(** * KUI: the key user interface of cgdb (lib/kui/src/kui.c)

    A shallow embedding of the map set matcher and of the key reader built
    on it, with the properties of the matcher stated over the embedding. *)

From stdpp Require Import list numbers strings.
From Stdlib Require Import ZArith Lia Sorted.

Local Open Scope Z_scope.

(** ** Zero-terminated int arrays

    An [int *] that points at a zero-terminated array is the list of its
    cells.  A read at an index the list does not cover yields [0]: the
    cell right after the listed ones is the terminator, and the embedding
    gives the same value to the cells behind it, which the C code has no
    business reading. *)

Abbreviation int_array := (list Z) (only parsing).

Definition ix (a : int_array) (i : nat) : Z := default 0 (a !! i).

(** [intcmp]: the index [i] walks both arrays.  [more] counts the cells of
    [one] not yet passed; with none left [one[i]] is the terminator and
    one of the first three branches has returned. *)
Fixpoint intcmp_loop (more : nat) (one two : int_array) (i : nat) : Z :=
  if (ix one i =? 0) && (ix two i =? 0) then 0
  else if ix one i =? 0 then -1
  else if ix two i =? 0 then 1
  else if ix one i <? ix two i then -1
  else if ix one i >? ix two i then 1
  else match more with
       | O => 0
       | S more' => intcmp_loop more' one two (S i)
       end.

Definition intcmp (one two : int_array) : Z :=
  intcmp_loop (length one) one two 0.

(** [intncmp]: [todo] is [n - pos], the number of iterations the guard
    [pos < n] still admits. *)
Fixpoint intncmp_loop (todo : nat) (one two : int_array) (i : nat) : Z :=
  match todo with
  | O => 0
  | S todo' =>
      if (ix one i =? 0) && (ix two i =? 0) then 0
      else if ix one i =? 0 then -1
      else if ix two i =? 0 then 1
      else if ix one i <? ix two i then -1
      else if ix one i >? ix two i then 1
      else intncmp_loop todo' one two (S i)
  end.

Definition intncmp (one two : int_array) (n : Z) : Z :=
  intncmp_loop (Z.to_nat n) one two 0.

(** [intlen]: the index of the first zero cell. *)
Fixpoint intlen_from (val : int_array) (length : Z) : Z :=
  match val with
  | [] => length
  | c :: val' => if c =? 0 then length else intlen_from val' (length + 1)
  end.

Definition intlen (val : int_array) : Z := intlen_from val 0.

(** A key sequence proper: no zero among the listed cells. *)
Definition zero_free (a : int_array) : Prop := Forall (fun c => c <> 0) a.

(** ** Maps *)

Record kui_map := Kui_map {
  original_key : string;
  literal_key : int_array;
  original_value : string;
  literal_value : int_array
}.

(** ** The list library

    The doubly linked list of the adt library (std_list) is used by the
    source but is not part of it.  Allocation never fails here. *)

(** Modelled from the spec: the iterator type of std_list, which the
    source file lacks.  A list is the sequence of its items ("a sequence of
    maps", "a position into map_list"); an iterator is [None] for the null
    pointer and [Some i] for the node at position [i]. *)
Definition std_list_iterator := option nat.

(** Modelled from the spec: std_list_begin, missing from the source file;
    "cursor := begin(map_list)" is the first position. *)
Definition std_list_begin {A} (l : list A) : std_list_iterator := Some 0%nat.

(** Modelled from the spec: std_list_end, missing from the source file;
    "end-of-list" is the position behind the last item, which carries no
    item. *)
Definition std_list_end {A} (l : list A) : std_list_iterator := Some (length l).

(** Modelled from the spec: std_list_next, missing from the source file;
    the cursor advances "forward through map_list" one position. *)
Definition std_list_next (iter : std_list_iterator) : std_list_iterator :=
  S <$> iter.

(** Modelled from the spec: std_list_get_data, missing from the source
    file; the item at the position, none at end-of-list or through a null
    iterator ([None] stands both for the call failing and for its handing
    out no item, which the callers treat alike). *)
Definition std_list_get_data {A} (l : list A) (iter : std_list_iterator)
  : option A :=
  match iter with
  | Some i => l !! i
  | None => None
  end.

(** Modelled from the spec: std_list_prepend, missing from the source
    file; "prepend" puts the item at the head. *)
Definition std_list_prepend {A} (l : list A) (x : A) : list A := x :: l.

Definition iter_eqb (a b : std_list_iterator) : bool := bool_decide (a = b).

(** ** Map sets *)

Inductive kui_map_state :=
| KUI_MAP_FOUND
| KUI_MAP_STILL_LOOKING
| KUI_MAP_NOT_FOUND
| KUI_MAP_ERROR.

Definition kui_map_state_eqb (a b : kui_map_state) : bool :=
  match a, b with
  | KUI_MAP_FOUND, KUI_MAP_FOUND
  | KUI_MAP_STILL_LOOKING, KUI_MAP_STILL_LOOKING
  | KUI_MAP_NOT_FOUND, KUI_MAP_NOT_FOUND
  | KUI_MAP_ERROR, KUI_MAP_ERROR => true
  | _, _ => false
  end.

Record kui_map_set := Kui_map_set {
  map_list : list kui_map;
  map_iter : std_list_iterator;
  map_state : kui_map_state;
  is_found : bool;
  map_iter_found : std_list_iterator
}.

Definition set_map_iter (it : std_list_iterator) (ms : kui_map_set) :=
  {| map_list := map_list ms; map_iter := it; map_state := map_state ms;
     is_found := is_found ms; map_iter_found := map_iter_found ms |}.

Definition set_map_state (st : kui_map_state) (ms : kui_map_set) :=
  {| map_list := map_list ms; map_iter := map_iter ms; map_state := st;
     is_found := is_found ms; map_iter_found := map_iter_found ms |}.

Definition set_found (it : std_list_iterator) (ms : kui_map_set) :=
  {| map_list := map_list ms; map_iter := map_iter ms;
     map_state := map_state ms;
     is_found := true; map_iter_found := it |}.

Definition kui_ms_reset_state (kui_ms : kui_map_set) : kui_map_set :=
  {| map_list := map_list kui_ms;
     map_iter := std_list_begin (map_list kui_ms);
     map_state := KUI_MAP_STILL_LOOKING;
     is_found := false;
     map_iter_found := None |}.

Definition kui_ms_get_state (kui_ms : kui_map_set) : kui_map_state :=
  map_state kui_ms.

Definition kui_ms_finalize_state (kui_ms : kui_map_set) : kui_map_set :=
  if is_found kui_ms then
    set_map_iter (map_iter_found kui_ms) (set_map_state KUI_MAP_FOUND kui_ms)
  else kui_ms.

(** The search loop of [kui_ms_update_state].  [rest] holds the items from
    [map_iter] on, so an empty [rest] is [map_iter == std_list_end]; the
    loop variables are [iter] (the index of [map_iter]), the state and
    [int_cur]. *)
Fixpoint update_search (rest : list kui_map) (int_matched : int_array)
    (key position : Z) (iter : nat) (state : kui_map_state)
    (int_cur : int_array) : nat * kui_map_state * int_array :=
  match rest with
  | [] => (iter, state, int_cur)
  | map :: rest' =>
      let int_cur := literal_key map in
      let strncmp_return_value := intncmp int_matched int_cur position in
      if negb (strncmp_return_value =? 0)
         || ((strncmp_return_value =? 0)
             && (ix int_cur (Z.to_nat position) >? key))
      then (iter, KUI_MAP_NOT_FOUND, int_cur)
      else if (strncmp_return_value =? 0)
              && (ix int_cur (Z.to_nat position) =? key)
      then (iter, KUI_MAP_STILL_LOOKING, int_cur)
      else update_search rest' int_matched key position (S iter) state int_cur
  end.

(** [kui_ms_update_state]: the return value and the map set it leaves.
    [int_cur] is assigned by the first turn of the loop, which the first
    [std_list_get_data] guarantees, so its value before is immaterial. *)
Definition kui_ms_update_state (kui_ms : kui_map_set) (key position : Z)
  : Z * kui_map_set :=
  if position <? 0 then (-1, kui_ms)
  else if key <? 0 then (-1, kui_ms)
  else if negb (kui_map_state_eqb (map_state kui_ms) KUI_MAP_STILL_LOOKING)
  then (-1, kui_ms)
  else
    match map_iter kui_ms, std_list_get_data (map_list kui_ms) (map_iter kui_ms) with
    | Some start, Some map =>
        let int_matched := literal_key map in
        let '(iter, state, int_cur) :=
          update_search (drop start (map_list kui_ms)) int_matched key position
                        start (map_state kui_ms) int_matched in
        let kui_ms := set_map_state state (set_map_iter (Some iter) kui_ms) in
        if kui_map_state_eqb (map_state kui_ms) KUI_MAP_NOT_FOUND
        then (0, kui_ms)
        else if iter_eqb (map_iter kui_ms) (std_list_end (map_list kui_ms))
        then (0, set_map_state KUI_MAP_NOT_FOUND kui_ms)
        else
          let cur_length := intlen int_cur in
          if negb (cur_length =? position + 1) then (0, kui_ms)
          else
            let kui_ms := set_found (map_iter kui_ms) kui_ms in
            let iter := std_list_next (map_iter kui_ms) in
            if iter_eqb iter (std_list_end (map_list kui_ms))
            then (0, set_map_state KUI_MAP_FOUND kui_ms)
            else
              match std_list_get_data (map_list kui_ms) iter with
              | None => (-1, kui_ms)
              | Some map =>
                  let int_matched := literal_key map in
                  if negb (intncmp int_matched int_cur (position + 1) =? 0)
                  then (0, set_map_state KUI_MAP_FOUND kui_ms)
                  else (0, kui_ms)
              end
    | _, _ => (-1, kui_ms)
    end.

(** ** Contexts

    [source] is the state of whatever stands behind [fd] and [state_data];
    the read callback returns the key read and the source it leaves.
    [buffer] is the list of keys put back, its head the next to be read. *)

Record kuictx (source : Type) := Kuictx {
  kui_map_set_list : list kui_map_set;
  buffer : list Z;
  callback : Z -> Z -> source -> Z * source;
  ms : Z;
  state_data : source;
  fd : Z
}.

Arguments Kuictx {source}.
Arguments kui_map_set_list {source}.
Arguments buffer {source}.
Arguments callback {source}.
Arguments ms {source}.
Arguments state_data {source}.
Arguments fd {source}.

Section Kuictx.

Context {source : Type}.

Definition set_map_sets (sets : list kui_map_set) (kctx : kuictx source) :=
  {| kui_map_set_list := sets; buffer := buffer kctx;
     callback := callback kctx; ms := ms kctx;
     state_data := state_data kctx; fd := fd kctx |}.

Definition set_buffer (b : list Z) (kctx : kuictx source) :=
  {| kui_map_set_list := kui_map_set_list kctx; buffer := b;
     callback := callback kctx; ms := ms kctx;
     state_data := state_data kctx; fd := fd kctx |}.

Definition set_state_data (sd : source) (kctx : kuictx source) :=
  {| kui_map_set_list := kui_map_set_list kctx; buffer := buffer kctx;
     callback := callback kctx; ms := ms kctx;
     state_data := sd; fd := fd kctx |}.

Definition kui_add_map_set (kctx : kuictx source) (kui_ms : kui_map_set) :=
  set_map_sets (kui_map_set_list kctx ++ [kui_ms]) kctx.

Definition kui_findchar (kctx : kuictx source) : Z * kuictx source :=
  match buffer kctx with
  | key :: rest => (key, set_buffer rest kctx)
  | [] =>
      let '(key, sd) := callback kctx (fd kctx) (ms kctx) (state_data kctx) in
      (key, set_state_data sd kctx)
  end.

Definition kui_cangetkey (kctx : kuictx source) : Z :=
  if (0 <? Z.of_nat (length (buffer kctx))) then 1 else 0.

End Kuictx.

Definition kui_reset_state_data (sets : list kui_map_set) : list kui_map_set :=
  kui_ms_reset_state <$> sets.

(** The loops over [kui_map_set_list] return at the first failing call;
    the sets before it have been updated, the ones after it have not. *)
Fixpoint kui_update_each_list (sets : list kui_map_set) (key position : Z)
  : Z * list kui_map_set :=
  match sets with
  | [] => (0, [])
  | map_set :: rest =>
      if negb (kui_map_state_eqb (kui_ms_get_state map_set) KUI_MAP_NOT_FOUND)
      then
        let '(r, map_set') := kui_ms_update_state map_set key position in
        if r =? -1 then (-1, map_set' :: rest)
        else
          let '(r', rest') := kui_update_each_list rest key position in
          (r', map_set' :: rest')
      else
        let '(r', rest') := kui_update_each_list rest key position in
        (r', map_set :: rest')
  end.

Fixpoint kui_should_continue_looking (sets : list kui_map_set)
    (should_continue : bool) : bool :=
  match sets with
  | [] => should_continue
  | map_set :: rest =>
      kui_should_continue_looking rest
        (if kui_map_state_eqb (kui_ms_get_state map_set) KUI_MAP_STILL_LOOKING
         then true else should_continue)
  end.

Definition kui_update_list_state (sets : list kui_map_set) : list kui_map_set :=
  kui_ms_finalize_state <$> sets.

(** [the_map_found] is [None] as long as the pointer has not been
    assigned. *)
Fixpoint kui_was_map_found (sets : list kui_map_set) (was_map_found : bool)
    (the_map_found : option kui_map) : Z * bool * option kui_map :=
  match sets with
  | [] => (0, was_map_found, the_map_found)
  | map_set :: rest =>
      if kui_map_state_eqb (kui_ms_get_state map_set) KUI_MAP_FOUND then
        match std_list_get_data (map_list map_set) (map_iter map_set) with
        | None => (-1, was_map_found, the_map_found)
        | Some data => kui_was_map_found rest true (Some data)
        end
      else kui_was_map_found rest was_map_found the_map_found
  end.

(** [for (j = from; j >= ...; --j) prepend (cells[j])], [count] turns. *)
Fixpoint prepend_down (count : nat) (cells : list Z) (j : Z) (buffer : list Z)
  : list Z :=
  match count with
  | O => buffer
  | S count' =>
      prepend_down count' cells (j - 1)
        (std_list_prepend buffer (ix cells (Z.to_nat j)))
  end.

(** [kui_update_buffer]: return value, buffer and [*key].  A set
    [map_was_found] with an unassigned [the_map_found] does not arise from
    [kui_findkey]; the embedding answers [-1] there. *)
Definition kui_update_buffer (buffer : list Z) (the_map_found : option kui_map)
    (map_was_found : bool) (position : Z) (bufmax : list Z) (key : Z)
  : Z * list Z * Z :=
  if map_was_found then
    match the_map_found with
    | None => (-1, buffer, key)
    | Some the_map_found =>
        let i := intlen (literal_key the_map_found) in
        let buffer := prepend_down (Z.to_nat (position - i + 1)) bufmax position buffer in
        let length := intlen (literal_value the_map_found) in
        let buffer :=
          prepend_down (Z.to_nat length) (literal_value the_map_found)
                       (length - 1) buffer in
        (0, buffer, key)
    end
  else
    let i := 1 in
    let key := ix bufmax 0 in
    let buffer := prepend_down (Z.to_nat (position - i + 1)) bufmax position buffer in
    (0, buffer, key).

(** ** One pass: [kui_findkey]

    [bufmax] is an array of 1024 cells on the stack, which C does not
    initialise: [stack] gives the cells as the call finds them.  A store
    behind the last cell is not a behaviour the C program defines; the
    embedding stops there with [Loop_overrun]. *)

Definition BUFMAX_CELLS : nat := 1024.

Definition bufmax_init (stack : nat -> Z) : list Z :=
  stack <$> seq 0 BUFMAX_CELLS.

Inductive loop_exit (source : Type) :=
| Loop_break (position : Z) (bufmax : list Z) (kctx : kuictx source)
| Loop_fail (kctx : kuictx source)
| Loop_overrun (position : Z) (kctx : kuictx source).

Arguments Loop_break {source}.
Arguments Loop_fail {source}.
Arguments Loop_overrun {source}.

(** The main loop.  [room] is the number of cells of [bufmax] from
    [position + 1] on. *)
Fixpoint findkey_loop {source} (room : nat) (kctx : kuictx source)
    (position : Z) (bufmax : list Z) : loop_exit source :=
  let '(key, kctx) := kui_findchar kctx in
  if key =? 0 then Loop_break position bufmax kctx
  else
    let position := position + 1 in
    match room with
    | O => Loop_overrun position kctx
    | S room' =>
        let bufmax := <[Z.to_nat position := key]> bufmax in
        let '(r, sets) :=
          kui_update_each_list (kui_map_set_list kctx) key position in
        let kctx := set_map_sets sets kctx in
        if r =? -1 then Loop_fail kctx
        else if negb (kui_should_continue_looking (kui_map_set_list kctx) false)
        then Loop_break position bufmax kctx
        else findkey_loop room' kctx position bufmax
    end.

Inductive findkey_result (source : Type) :=
| Findkey_return (key : Z) (was_map_found : bool) (kctx : kuictx source)
| Findkey_overrun (position : Z) (kctx : kuictx source).

Arguments Findkey_return {source}.
Arguments Findkey_overrun {source}.

Definition kui_findkey {source} (kctx : kuictx source) (stack : nat -> Z)
  : findkey_result source :=
  let kctx := set_map_sets (kui_reset_state_data (kui_map_set_list kctx)) kctx in
  match findkey_loop BUFMAX_CELLS kctx (-1) (bufmax_init stack) with
  | Loop_overrun position kctx => Findkey_overrun position kctx
  | Loop_fail kctx => Findkey_return (-1) false kctx
  | Loop_break position bufmax kctx =>
      let key := 0 in
      let kctx :=
        set_map_sets (kui_update_list_state (kui_map_set_list kctx)) kctx in
      let '(r, was_map_found, the_map_found) :=
        kui_was_map_found (kui_map_set_list kctx) false None in
      if r =? -1 then Findkey_return (-1) was_map_found kctx
      else
        let '(r, buffer, key) :=
          kui_update_buffer (buffer kctx) the_map_found was_map_found
                            position bufmax key in
        let kctx := set_buffer buffer kctx in
        if r =? -1 then Findkey_return (-1) was_map_found kctx
        else Findkey_return key was_map_found kctx
  end.

(** ** [kui_getkey]

    The do-while loop runs one pass per turn; [passes] bounds the number
    of passes looked at, and [Getkey_running] says the loop has not left
    after that many. *)

Inductive getkey_result (source : Type) :=
| Getkey_return (key : Z) (kctx : kuictx source)
| Getkey_overrun (position : Z) (kctx : kuictx source)
| Getkey_running (kctx : kuictx source).

Arguments Getkey_return {source}.
Arguments Getkey_overrun {source}.
Arguments Getkey_running {source}.

Fixpoint kui_getkey {source} (passes : nat) (kctx : kuictx source)
    (stack : nat -> Z) : getkey_result source :=
  match passes with
  | O => Getkey_running kctx
  | S passes' =>
      match kui_findkey kctx stack with
      | Findkey_overrun position kctx => Getkey_overrun position kctx
      | Findkey_return key map_found kctx =>
          if key =? -1 then Getkey_return (-1) kctx
          else if map_found then kui_getkey passes' kctx stack
          else Getkey_return key kctx
      end
  end.

(** [kui_create]: no map set yet, nothing put back. *)
Definition kui_create {source} (stdinfd : Z)
    (callback : Z -> Z -> source -> Z * source) (ms : Z) (state_data : source)
  : kuictx source :=
  {| kui_map_set_list := []; buffer := []; callback := callback; ms := ms;
     state_data := state_data; fd := stdinfd |}.

(** [kui_ms_create] leaves the cursor, the state and the latch as malloc
    hands them out; every pass resets them before it reads them.  [maps]
    is the list the registrations have built. *)
Definition kui_ms_of (maps : list kui_map) : kui_map_set :=
  {| map_list := maps; map_iter := None; map_state := KUI_MAP_ERROR;
     is_found := false; map_iter_found := None |}.

(** A source that hands out the keys of a list, then reports no data. *)
Definition list_callback (fd ms : Z) (pending : list Z) : Z * list Z :=
  match pending with
  | [] => (0, [])
  | key :: rest => (key, rest)
  end.

(** A context on that source, with the map sets added in order. *)
Definition kui_create_on (keys : list Z) (sets : list kui_map_set)
  : kuictx (list Z) :=
  foldl kui_add_map_set (kui_create 0 list_callback 1000 keys) sets.

(** ** Deregistration *)

(** Modelled from the spec: std_list_find, missing from the source file;
    "locate any existing map with equal literal_key" is the first position
    whose item compares equal, end-of-list when there is none. *)
Fixpoint std_list_find_from {A} (l : list A) (equal : A -> bool) (i : nat)
  : nat :=
  match l with
  | [] => i
  | x :: l' => if equal x then i else std_list_find_from l' equal (S i)
  end.

Definition std_list_find {A} (l : list A) (equal : A -> bool)
  : std_list_iterator :=
  Some (std_list_find_from l equal 0).

(** Modelled from the spec: std_list_remove, missing from the source
    file; "remove it" unlinks the item at the position; [None] is the null
    result, for an iterator that stands on no item. *)
Definition std_list_remove {A} (l : list A) (iter : std_list_iterator)
  : option (list A) :=
  match iter with
  | Some i => if (i <? length l)%nat then Some (delete i l) else None
  | None => None
  end.

(** [kui_ms_deregister_map] hands its string to [std_list_find] where a
    [struct kui_map *] is expected, so [kui_map_compare_callback] reads a
    [literal_key] field out of the characters.  [seen] is the int array
    that read yields. *)
Definition kui_ms_deregister_map (kui_ms : kui_map_set) (seen : int_array)
  : Z * kui_map_set :=
  let iter :=
    std_list_find (map_list kui_ms)
                  (fun map => intcmp seen (literal_key map) =? 0) in
  if iter_eqb iter (std_list_begin (map_list kui_ms)) then (-2, kui_ms)
  else
    match std_list_remove (map_list kui_ms) iter with
    | None => (-1, kui_ms)
    | Some l =>
        (0, {| map_list := l; map_iter := map_iter kui_ms;
               map_state := map_state kui_ms; is_found := is_found kui_ms;
               map_iter_found := map_iter_found kui_ms |})
    end.

(** ** The update rule as the specification words it

    The map list is sorted by [literal_key] under [intcmp].  Two key
    sequences share their first [n] positions when their prefixes of that
    length are the same list.  The walk starts at the cursor, with the
    anchor [A] the key under the cursor on entry. *)

Definition sorted_by_literal_key (maps : list kui_map) : Prop :=
  Sorted (fun one two => intcmp (literal_key one) (literal_key two) <= 0) maps.

Definition proper_keys (maps : list kui_map) : Prop :=
  Forall (fun map => zero_free (literal_key map)) maps.

Definition shares_prefix (n : nat) (a b : int_array) : Prop :=
  take n a = take n b.

Inductive walk_end :=
| Walk_not_found
| Walk_survivor (cursor : nat).

Inductive spec_walk (maps : list kui_map) (A : int_array) (token : Z)
    (position : nat) : nat -> walk_end -> Prop :=
| walk_exhausted cursor :
    maps !! cursor = None ->
    spec_walk maps A token position cursor Walk_not_found
| walk_left_prefix cursor C :
    maps !! cursor = Some C ->
    ~ shares_prefix position A (literal_key C) ->
    spec_walk maps A token position cursor Walk_not_found
| walk_greater cursor C :
    maps !! cursor = Some C ->
    shares_prefix position A (literal_key C) ->
    ix (literal_key C) position > token ->
    spec_walk maps A token position cursor Walk_not_found
| walk_equal cursor C :
    maps !! cursor = Some C ->
    shares_prefix position A (literal_key C) ->
    ix (literal_key C) position = token ->
    spec_walk maps A token position cursor (Walk_survivor cursor)
| walk_skip cursor C r :
    maps !! cursor = Some C ->
    shares_prefix position A (literal_key C) ->
    ix (literal_key C) position < token ->
    spec_walk maps A token position (S cursor) r ->
    spec_walk maps A token position cursor r.

(** No candidate after [cursor] shares the first [n] positions of [C]. *)
Definition no_longer_candidate (maps : list kui_map) (cursor n : nat)
    (C : int_array) : Prop :=
  forall j D, (cursor < j)%nat -> maps !! j = Some D ->
              ~ shares_prefix n C (literal_key D).

(** What [update] leaves, given how the walk ended. *)
Definition spec_update_result (before : kui_map_set) (position : nat)
    (r : walk_end) (after : kui_map_set) : Prop :=
  map_list after = map_list before /\
  match r with
  | Walk_not_found =>
      map_state after = KUI_MAP_NOT_FOUND /\
      is_found after = is_found before /\
      map_iter_found after = map_iter_found before
  | Walk_survivor cursor =>
      map_iter after = Some cursor /\
      exists C, map_list before !! cursor = Some C /\
        ((length (literal_key C) = S position ->
            is_found after = true /\ map_iter_found after = Some cursor) /\
         (length (literal_key C) <> S position ->
            is_found after = is_found before /\
            map_iter_found after = map_iter_found before) /\
         (length (literal_key C) = S position /\
          no_longer_candidate (map_list before) cursor (S position)
                              (literal_key C) ->
            map_state after = KUI_MAP_FOUND) /\
         (~ (length (literal_key C) = S position /\
             no_longer_candidate (map_list before) cursor (S position)
                                 (literal_key C)) ->
            map_state after = KUI_MAP_STILL_LOOKING))
  end.

(** Running a list of [update] calls, whatever each of them returns. *)
Fixpoint run_updates (kui_ms : kui_map_set) (calls : list (Z * Z))
  : kui_map_set :=
  match calls with
  | [] => kui_ms
  | (key, position) :: calls' =>
      run_updates (snd (kui_ms_update_state kui_ms key position)) calls'
  end.

(** The keys the next [n] reads deliver, and the context they leave. *)
Fixpoint findchar_n {source} (n : nat) (kctx : kuictx source)
  : list Z * kuictx source :=
  match n with
  | O => ([], kctx)
  | S n' =>
      let '(key, kctx) := kui_findchar kctx in
      let '(keys, kctx) := findchar_n n' kctx in
      (key :: keys, kctx)
  end.

(** The input of a context begins with [keys]. *)
Definition input_begins {source} (kctx : kuictx source) (keys : list Z) : Prop :=
  fst (findchar_n (length keys) kctx) = keys.

(** A map set that holds the single map [m]: as reset leaves it, and as a
    scan that matched the whole key of [m] leaves it. *)
Definition single_scanning (m : kui_map) : kui_map_set :=
  {| map_list := [m]; map_iter := Some 0%nat;
     map_state := KUI_MAP_STILL_LOOKING; is_found := false;
     map_iter_found := None |}.

Definition single_found (m : kui_map) : kui_map_set :=
  {| map_list := [m]; map_iter := Some 0%nat;
     map_state := KUI_MAP_FOUND; is_found := true;
     map_iter_found := Some 0%nat |}.

(** Keys a source can deliver and [update] accepts: positive tokens. *)
Definition positive_key (k : int_array) : Prop := Forall (fun c => 0 < c) k.

(** ** Sample maps *)

Definition map_a_X : kui_map := Kui_map "a" [97] "X" [88].
Definition map_abc_Y : kui_map := Kui_map "abc" [97; 98; 99] "Y" [89].
Definition map_a_a : kui_map := Kui_map "a" [97] "a" [97].

Definition prefix_maps : kui_map_set := kui_ms_of [map_a_X; map_abc_Y].

(** A key of 1025 tokens, one more than [bufmax] holds. *)
Definition long_key : int_array := replicate 1025 97.

Definition map_long : kui_map :=
  Kui_map
    (String.string_of_list_ascii (replicate 1025 (Ascii.ascii_of_nat 97)))
    long_key "X" [88].

(** The map a -> a on the input a. *)
Definition self_ctx : kuictx (list Z) :=
  kui_create_on [97] [kui_ms_of [map_a_a]].

(** The scenario of the two maps a -> X and abc -> Y on the input a d:
    the map set after the token a and after the token d, and the context
    after the first pass, after the first call and after the second. *)
Definition prefix_ctx : kuictx (list Z) := kui_create_on [97; 100] [prefix_maps].

Definition prefix_after_a : kui_map_set :=
  {| map_list := [map_a_X; map_abc_Y]; map_iter := Some 0%nat;
     map_state := KUI_MAP_STILL_LOOKING; is_found := true;
     map_iter_found := Some 0%nat |}.

Definition prefix_after_d : kui_map_set :=
  {| map_list := [map_a_X; map_abc_Y]; map_iter := Some 2%nat;
     map_state := KUI_MAP_NOT_FOUND; is_found := true;
     map_iter_found := Some 0%nat |}.

Definition prefix_ctx_pass : kuictx (list Z) :=
  {| kui_map_set_list :=
       [{| map_list := [map_a_X; map_abc_Y]; map_iter := Some 0%nat;
           map_state := KUI_MAP_FOUND; is_found := true;
           map_iter_found := Some 0%nat |}];
     buffer := [88; 100]; callback := list_callback; ms := 1000;
     state_data := []; fd := 0 |}.

Definition prefix_ctx_X : kuictx (list Z) :=
  {| kui_map_set_list :=
       [{| map_list := [map_a_X; map_abc_Y]; map_iter := Some 0%nat;
           map_state := KUI_MAP_NOT_FOUND; is_found := false;
           map_iter_found := None |}];
     buffer := [100]; callback := list_callback; ms := 1000;
     state_data := []; fd := 0 |}.

Definition prefix_ctx_d : kuictx (list Z) :=
  {| kui_map_set_list :=
       [{| map_list := [map_a_X; map_abc_Y]; map_iter := Some 2%nat;
           map_state := KUI_MAP_NOT_FOUND; is_found := false;
           map_iter_found := None |}];
     buffer := []; callback := list_callback; ms := 1000;
     state_data := []; fd := 0 |}.

(** The update calls of a scan: the tokens in the order read, each with
    its position, as [kui_findkey] hands them to a map set. *)
Fixpoint scan_calls_from (position : nat) (tokens : list Z) : list (Z * Z) :=
  match tokens with
  | [] => []
  | key :: tokens' =>
      (key, Z.of_nat position) :: scan_calls_from (S position) tokens'
  end.

Definition scan_calls (tokens : list Z) : list (Z * Z) :=
  scan_calls_from 0 tokens.

(** No map before position [c] of the list has a key that begins with
    [Q]. *)
Definition no_key_before (maps : list kui_map) (c : nat) (Q : list Z) : Prop :=
  forall i D, (i < c)%nat -> maps !! i = Some D ->
              ~ Q `prefix_of` literal_key D.

(** The map at position [f] has the longest non-empty key among the keys
    that are prefixes of [P]. *)
Definition longest_prefix_key (maps : list kui_map) (P : list Z) (f : nat)
  : Prop :=
  exists F, maps !! f = Some F /\ literal_key F <> [] /\
            literal_key F `prefix_of` P /\
            forall i D, maps !! i = Some D -> literal_key D `prefix_of` P ->
                        (length (literal_key D) <= length (literal_key F))%nat.

(** What holds of a map set during a scan that has been handed the tokens
    [P]: the latch stands on the longest key that is a prefix of [P], if
    there is one; while the set is still looking the cursor stands on the
    first key that begins with [P]; once it has given up, no key begins
    with some prefix of [P]; once it has found, the key found is the only
    one that begins with itself. *)
Definition scan_invariant (maps : list kui_map) (P : list Z)
    (kui_ms : kui_map_set) : Prop :=
  map_list kui_ms = maps /\
  (is_found kui_ms = true ->
   exists f, map_iter_found kui_ms = Some f /\ longest_prefix_key maps P f) /\
  (is_found kui_ms = false ->
   forall i D, maps !! i = Some D -> literal_key D `prefix_of` P ->
               literal_key D = []) /\
  match map_state kui_ms with
  | KUI_MAP_STILL_LOOKING =>
      maps = [] \/
      exists j A, map_iter kui_ms = Some j /\ maps !! j = Some A /\
                  P `prefix_of` literal_key A /\ no_key_before maps j P
  | KUI_MAP_NOT_FOUND =>
      exists Q, Q `prefix_of` P /\
                forall i D, maps !! i = Some D -> ~ Q `prefix_of` literal_key D
  | KUI_MAP_FOUND =>
      is_found kui_ms = true /\ map_iter kui_ms = map_iter_found kui_ms /\
      exists f F, map_iter_found kui_ms = Some f /\ maps !! f = Some F /\
                  literal_key F `prefix_of` P /\
                  forall i D, i <> f -> maps !! i = Some D ->
                              ~ literal_key F `prefix_of` literal_key D
  | KUI_MAP_ERROR => False
  end.

(** The context of that scenario when the loop of the first pass has read
    a and d and leaves. *)
Definition prefix_ctx_loop : kuictx (list Z) :=
  {| kui_map_set_list := [prefix_after_d];
     buffer := []; callback := list_callback; ms := 1000;
     state_data := []; fd := 0 |}.

(** A call that has stored a key behind the last cell of bufmax. *)
Definition getkey_overruns {source} (r : getkey_result source) : bool :=
  match r with
  | Getkey_overrun _ _ => true
  | _ => false
  end.

(** Neither the buffer nor the source of a context ever delivers a
    negative key. *)
Definition reads_nonnegative {source} (kctx : kuictx source) : Prop :=
  forall n, Forall (fun key => 0 <= key) (fst (findchar_n n kctx)).

(** Every key of the map lists has fewer than [bound] tokens. *)
Definition keys_shorter (bound : nat) (lists : list (list kui_map)) : Prop :=
  Forall (Forall (fun m => (length (literal_key m) < bound)%nat)) lists.

(** ** The arrays *)

Lemma ix_nil i : ix [] i = 0.
Proof. reflexivity. Qed.

Lemma ix_head x a : ix (x :: a) 0 = x.
Proof. reflexivity. Qed.

Lemma ix_tail a i : ix a (S i) = ix (tail a) i.
Proof. destruct a; reflexivity. Qed.

Lemma intncmp_loop_tail n : forall a b i,
  intncmp_loop n a b (S i) = intncmp_loop n (tail a) (tail b) i.
Proof.
  induction n as [|n IH]; intros a b i; simpl; [reflexivity|].
  rewrite !ix_tail, IH. reflexivity.
Qed.

Lemma intcmp_loop_tail n : forall a b i,
  intcmp_loop n a b (S i) = intcmp_loop n (tail a) (tail b) i.
Proof.
  induction n as [|n IH]; intros a b i; simpl; rewrite !ix_tail;
    [reflexivity | rewrite IH; reflexivity].
Qed.

Lemma zero_free_cons_inv x a : zero_free (x :: a) -> x <> 0 /\ zero_free a.
Proof. intros H. inversion H; subst. split; assumption. Qed.

Lemma intlen_from_zero_free a : forall n,
  zero_free a -> intlen_from a n = n + Z.of_nat (length a).
Proof.
  induction a as [|x a IH]; intros n Ha; simpl; [lia|].
  apply zero_free_cons_inv in Ha as [Hx Ha].
  destruct (Z.eqb_spec x 0) as [->|_]; [contradiction|].
  rewrite IH by assumption. lia.
Qed.

Lemma intlen_zero_free a : zero_free a -> intlen a = Z.of_nat (length a).
Proof. intros Ha. unfold intlen. rewrite intlen_from_zero_free; [lia|assumption]. Qed.

(** The counter of [intcmp_loop] never runs out before the loop returns:
    one turn more changes nothing. *)
Lemma intcmp_loop_counter more : forall one two i,
  (length one <= i + more)%nat ->
  intcmp_loop (S more) one two i = intcmp_loop more one two i.
Proof.
  induction more as [|more IH]; intros one two i Hlen.
  - assert (ix one i = 0) as Hend.
    { unfold ix. rewrite lookup_ge_None_2 by lia. reflexivity. }
    cbn [intcmp_loop]. rewrite Hend. cbn [Z.eqb andb].
    destruct (ix two i =? 0); reflexivity.
  - cbn [intcmp_loop] in *. rewrite IH by lia. reflexivity.
Qed.

(** [intncmp] on proper key sequences, cell by cell. *)
Lemma intncmp_loop_nil_nil n : intncmp_loop n [] [] 0 = 0.
Proof. destruct n; reflexivity. Qed.

Lemma intncmp_loop_nil_cons n y b :
  y <> 0 -> intncmp_loop (S n) [] (y :: b) 0 = -1.
Proof.
  intros Hy. simpl. unfold ix; simpl.
  destruct (Z.eqb_spec y 0); [contradiction|reflexivity].
Qed.

Lemma intncmp_loop_cons_nil n x a :
  x <> 0 -> intncmp_loop (S n) (x :: a) [] 0 = 1.
Proof.
  intros Hx. simpl. unfold ix; simpl.
  destruct (Z.eqb_spec x 0); [contradiction|reflexivity].
Qed.

Lemma intncmp_loop_cons_cons n x y a b :
  x <> 0 -> y <> 0 ->
  intncmp_loop (S n) (x :: a) (y :: b) 0 =
  if x <? y then -1 else if x >? y then 1 else intncmp_loop n a b 0.
Proof.
  intros Hx Hy. cbn [intncmp_loop]. rewrite intncmp_loop_tail.
  unfold ix; simpl.
  destruct (Z.eqb_spec x 0); [contradiction|].
  destruct (Z.eqb_spec y 0); [contradiction|]. reflexivity.
Qed.

Lemma intncmp_loop_shares n : forall a b,
  zero_free a -> zero_free b ->
  intncmp_loop n a b 0 = 0 <-> shares_prefix n a b.
Proof.
  unfold shares_prefix.
  induction n as [|n IH]; intros a b Ha Hb; [simpl; tauto|].
  destruct a as [|x a], b as [|y b].
  - simpl. tauto.
  - apply zero_free_cons_inv in Hb as [Hy Hb].
    rewrite intncmp_loop_nil_cons by assumption. simpl. split; [lia|discriminate].
  - apply zero_free_cons_inv in Ha as [Hx Ha].
    rewrite intncmp_loop_cons_nil by assumption. simpl. split; [lia|discriminate].
  - apply zero_free_cons_inv in Ha as [Hx Ha].
    apply zero_free_cons_inv in Hb as [Hy Hb].
    rewrite intncmp_loop_cons_cons by assumption. simpl.
    destruct (Z.ltb_spec x y).
    + split; [lia|]. intros [= -> _]. lia.
    + rewrite Z.gtb_ltb. destruct (Z.ltb_spec y x).
      * split; [lia|]. intros [= -> _]. lia.
      * assert (x = y) as -> by lia. rewrite IH by assumption.
        split; [intros ->; reflexivity | intros [= ?]; assumption].
Qed.

Lemma intncmp_shares (n : nat) a b :
  zero_free a -> zero_free b ->
  intncmp a b (Z.of_nat n) = 0 <-> shares_prefix n a b.
Proof.
  intros Ha Hb. unfold intncmp. rewrite Nat2Z.id.
  apply intncmp_loop_shares; assumption.
Qed.

(** [intcmp] on proper key sequences, cell by cell. *)
Lemma intcmp_nil_nil : intcmp [] [] = 0.
Proof. reflexivity. Qed.

Lemma intcmp_nil_cons y b : y <> 0 -> intcmp [] (y :: b) = -1.
Proof.
  intros Hy. unfold intcmp. cbn [length intcmp_loop].
  rewrite ix_nil, ix_head.
  destruct (Z.eqb_spec y 0); [contradiction|reflexivity].
Qed.

Lemma intcmp_cons_nil x a : x <> 0 -> intcmp (x :: a) [] = 1.
Proof.
  intros Hx. unfold intcmp. cbn [length intcmp_loop].
  rewrite ix_nil, ix_head.
  destruct (Z.eqb_spec x 0); [contradiction|reflexivity].
Qed.

Lemma intcmp_cons_cons x y a b :
  x <> 0 -> y <> 0 ->
  intcmp (x :: a) (y :: b) =
  if x <? y then -1 else if x >? y then 1 else intcmp a b.
Proof.
  intros Hx Hy. unfold intcmp. cbn [length intcmp_loop].
  rewrite intcmp_loop_tail, !ix_head. cbn [tail].
  destruct (Z.eqb_spec x 0); [contradiction|].
  destruct (Z.eqb_spec y 0); [contradiction|]. reflexivity.
Qed.

(** The order of [intcmp] is transitive on proper key sequences. *)
Lemma intcmp_le_trans : forall a b c,
  zero_free a -> zero_free b -> zero_free c ->
  intcmp a b <= 0 -> intcmp b c <= 0 -> intcmp a c <= 0.
Proof.
  induction a as [|x a IH]; intros b c Ha Hb Hc Hab Hbc.
  - destruct c as [|z c]; [rewrite intcmp_nil_nil; lia|].
    apply zero_free_cons_inv in Hc as [Hz _].
    rewrite intcmp_nil_cons by assumption. lia.
  - apply zero_free_cons_inv in Ha as [Hx Ha].
    destruct b as [|y b]; [rewrite intcmp_cons_nil in Hab by assumption; lia|].
    apply zero_free_cons_inv in Hb as [Hy Hb].
    destruct c as [|z c]; [rewrite intcmp_cons_nil in Hbc by assumption; lia|].
    apply zero_free_cons_inv in Hc as [Hz Hc].
    rewrite intcmp_cons_cons in * by assumption.
    rewrite !Z.gtb_ltb in *.
    destruct (Z.ltb_spec x y), (Z.ltb_spec y x), (Z.ltb_spec y z),
      (Z.ltb_spec z y), (Z.ltb_spec x z), (Z.ltb_spec z x); try lia.
    apply (IH b c); assumption.
Qed.

(** A key that lies between two keys with a common prefix has it too. *)
Lemma shares_prefix_between n : forall a b c,
  zero_free a -> zero_free b -> zero_free c ->
  intcmp a b <= 0 -> intcmp b c <= 0 ->
  shares_prefix n a c -> shares_prefix n a b.
Proof.
  unfold shares_prefix.
  induction n as [|n IH]; intros a b c Ha Hb Hc Hab Hbc Hac; [reflexivity|].
  destruct a as [|x a], c as [|z c]; simpl in Hac; try discriminate.
  - destruct b as [|y b]; [reflexivity|].
    apply zero_free_cons_inv in Hb as [Hy _].
    rewrite intcmp_cons_nil in Hbc by assumption. lia.
  - injection Hac as -> Hac.
    apply zero_free_cons_inv in Ha as [Hx Ha].
    apply zero_free_cons_inv in Hc as [_ Hc].
    destruct b as [|y b]; [rewrite intcmp_cons_nil in Hab by assumption; lia|].
    apply zero_free_cons_inv in Hb as [Hy Hb].
    rewrite intcmp_cons_cons in Hab, Hbc by assumption.
    rewrite !Z.gtb_ltb in *.
    destruct (Z.ltb_spec z y), (Z.ltb_spec y z); try lia.
    assert (y = z) as -> by lia. simpl. f_equal.
    apply (IH a b c); assumption.
Qed.

(** ** Sorted map lists *)

Lemma sorted_head_le m maps :
  sorted_by_literal_key (m :: maps) -> proper_keys (m :: maps) ->
  Forall (fun m' => intcmp (literal_key m) (literal_key m') <= 0) maps.
Proof.
  revert m. induction maps as [|b maps IH]; intros m Hs Hp; [constructor|].
  inversion Hs as [|? ? Hs' Hhd]; subst.
  inversion Hhd as [|? ? Hmb]; subst.
  inversion Hp as [|? ? Hm Hp']; subst.
  constructor; [assumption|].
  specialize (IH b Hs' Hp').
  inversion Hp' as [|? ? Hb Hp'']; subst.
  rewrite Forall_forall in *. intros m' Hin.
  apply intcmp_le_trans with (literal_key b); auto.
Qed.

Lemma sorted_lookup_le maps :
  sorted_by_literal_key maps -> proper_keys maps ->
  forall i j mi mj, (i < j)%nat ->
    maps !! i = Some mi -> maps !! j = Some mj ->
    intcmp (literal_key mi) (literal_key mj) <= 0.
Proof.
  induction maps as [|m maps IH]; intros Hs Hp i j mi mj Hij Hi Hj.
  - discriminate.
  - destruct j as [|j]; [lia|]. simpl in Hj.
    destruct i as [|i].
    + injection Hi as <-.
      pose proof (sorted_head_le _ _ Hs Hp) as Hall.
      rewrite Forall_forall in Hall. apply Hall.
      eapply list_elem_of_lookup_2; eassumption.
    + simpl in Hi. inversion Hs; subst. inversion Hp; subst.
      apply (IH ltac:(assumption) ltac:(assumption) i j); [lia|assumption..].
Qed.

Lemma proper_keys_lookup maps i m :
  proper_keys maps -> maps !! i = Some m -> zero_free (literal_key m).
Proof.
  intros Hp Hi. unfold proper_keys in Hp. rewrite Forall_forall in Hp.
  apply Hp. eapply list_elem_of_lookup_2; eassumption.
Qed.

(** In a sorted list the candidate right after the cursor decides whether
    any later one shares the prefix. *)
Lemma no_longer_candidate_next maps cursor n C :
  sorted_by_literal_key maps -> proper_keys maps ->
  maps !! cursor = Some C ->
  no_longer_candidate maps cursor n (literal_key C) <->
  (forall N, maps !! S cursor = Some N ->
             ~ shares_prefix n (literal_key C) (literal_key N)).
Proof.
  intros Hs Hp HC. split.
  - intros Hno N HN. apply (Hno (S cursor)); [lia|assumption].
  - intros Hnext j D Hj HD Hshare.
    destruct (maps !! S cursor) as [N|] eqn:HN.
    + apply (Hnext N eq_refl).
      destruct (decide (j = S cursor)) as [->|Hne]; [congruence|].
      apply shares_prefix_between with (literal_key D);
        eauto using proper_keys_lookup.
      * apply (sorted_lookup_le maps Hs Hp cursor (S cursor)); auto.
      * apply (sorted_lookup_le maps Hs Hp (S cursor) j); auto. lia.
    + apply lookup_ge_None in HN. apply lookup_lt_Some in HD. lia.
Qed.

(** ** The search loop against the walk *)

Lemma spec_walk_functional maps A token position cursor r1 r2 :
  spec_walk maps A token position cursor r1 ->
  spec_walk maps A token position cursor r2 -> r1 = r2.
Proof.
  intros Hw1. revert r2.
  induction Hw1; intros r2 Hw2; inversion Hw2; subst;
    try reflexivity; try congruence;
    repeat match goal with
    | Ha : ?l !! ?i = Some ?a, Hb : ?l !! ?i = Some ?b |- _ =>
        assert (a = b) by congruence; subst b; clear Hb
    end; try contradiction; try lia; auto.
Qed.

Lemma update_search_spec maps A key position :
  zero_free A -> proper_keys maps ->
  forall rest i cur0, drop i maps = rest -> (i <= length maps)%nat ->
    exists j cur,
      (update_search rest A key (Z.of_nat position) i
                     KUI_MAP_STILL_LOOKING cur0 = (j, KUI_MAP_NOT_FOUND, cur)
       /\ spec_walk maps A key position i Walk_not_found) \/
      (update_search rest A key (Z.of_nat position) i
                     KUI_MAP_STILL_LOOKING cur0 = (j, KUI_MAP_STILL_LOOKING, cur)
       /\ j = length maps
       /\ spec_walk maps A key position i Walk_not_found) \/
      (update_search rest A key (Z.of_nat position) i
                     KUI_MAP_STILL_LOOKING cur0 = (j, KUI_MAP_STILL_LOOKING, cur)
       /\ (exists C, maps !! j = Some C /\ cur = literal_key C)
       /\ spec_walk maps A key position i (Walk_survivor j)).
Proof.
  intros HA Hp rest.
  induction rest as [|m rest IH]; intros i cur0 Hdrop Hlen.
  - exists i, cur0. right. left. simpl.
    assert (maps !! i = None) as Hnone.
    { rewrite <- (Nat.add_0_r i), <- lookup_drop, Hdrop. reflexivity. }
    apply lookup_ge_None in Hnone.
    split; [reflexivity|]. split; [lia|].
    apply walk_exhausted. apply lookup_ge_None. lia.
  - assert (maps !! i = Some m) as Hm.
    { rewrite <- (Nat.add_0_r i), <- lookup_drop, Hdrop. reflexivity. }
    assert (drop (S i) maps = rest) as Hdrop'.
    { rewrite (drop_S _ _ _ Hm) in Hdrop. congruence. }
    pose proof (proper_keys_lookup _ _ _ Hp Hm) as Hzf.
    pose proof (intncmp_shares position A (literal_key m) HA Hzf) as Hsh.
    cbn [update_search]. rewrite Nat2Z.id.
    destruct (Z.eqb_spec (intncmp A (literal_key m) (Z.of_nat position)) 0)
      as [Hz|Hnz]; cbn [negb orb andb].
    + apply Hsh in Hz.
      rewrite Z.gtb_ltb.
      destruct (Z.ltb_spec key (ix (literal_key m) position)) as [Hgt|Hle].
      * exists i, (literal_key m). left. split; [reflexivity|].
        eapply walk_greater; eauto. lia.
      * destruct (Z.eqb_spec (ix (literal_key m) position) key) as [Heq|Hne].
        -- exists i, (literal_key m). right. right.
           split; [reflexivity|]. split; [eauto|].
           eapply walk_equal; eauto.
        -- apply lookup_lt_Some in Hm as Hlt.
           destruct (IH (S i) (literal_key m) Hdrop' ltac:(lia))
             as (j & cur & Hcases).
           exists j, cur.
           assert (forall r, spec_walk maps A key position (S i) r ->
                             spec_walk maps A key position i r) as Hstep.
           { intros r Hr. eapply walk_skip; eauto. lia. }
           destruct Hcases as [[-> Hw]|[(-> & ? & Hw)|(-> & ? & Hw)]];
             [left|right;left|right;right]; auto.
    + exists i, (literal_key m). left. split; [reflexivity|].
      eapply walk_left_prefix; eauto. tauto.
Qed.

Lemma iter_eqb_Some i j : iter_eqb (Some i) (Some j) = bool_decide (i = j).
Proof. unfold iter_eqb. apply bool_decide_ext. split; congruence. Qed.

Lemma shares_prefix_sym n a b : shares_prefix n a b -> shares_prefix n b a.
Proof. unfold shares_prefix. congruence. Qed.

Ltac ms_simpl :=
  unfold std_list_end, std_list_next, std_list_begin;
  cbn [set_map_state set_map_iter set_found map_state map_iter map_list
       is_found map_iter_found kui_map_state_eqb negb std_list_get_data
       std_list_next std_list_end std_list_begin fmap option_fmap option_map].

(** ** The update rule *)

(** C1. From a map set in state STILL_LOOKING whose list is sorted by
    literal_key and whose cursor stands on a map (the anchor), update with
    a token and a position returns 0 and leaves what the four-step walk of
    the specification gives: NOT_FOUND when the walk meets a candidate that
    has left the anchor's position-long prefix, or one whose token at
    position exceeds the input token, or the end of the list; otherwise
    the cursor on the first candidate with an equal token, candidates with
    a smaller token skipped.  is_found and found_cursor are set exactly
    when that candidate's key has length position+1, and a candidate so
    latched is promoted to FOUND at once exactly when no candidate behind
    it shares its first position+1 tokens; else the state stays
    STILL_LOOKING. *)
Theorem update_state_follows_spec_rule
    (kui_ms : kui_map_set) (key : Z) (position cursor : nat) (anchor : kui_map) :
  sorted_by_literal_key (map_list kui_ms) ->
  proper_keys (map_list kui_ms) ->
  map_state kui_ms = KUI_MAP_STILL_LOOKING ->
  map_iter kui_ms = Some cursor ->
  map_list kui_ms !! cursor = Some anchor ->
  0 <= key ->
  exists r after,
    kui_ms_update_state kui_ms key (Z.of_nat position) = (0, after) /\
    spec_walk (map_list kui_ms) (literal_key anchor) key position cursor r /\
    spec_update_result kui_ms position r after.
Proof.
  intros Hs Hp Hst Hit Hanchor Hkey.
  pose proof (proper_keys_lookup _ _ _ Hp Hanchor) as HA.
  apply lookup_lt_Some in Hanchor as Hlt.
  destruct (update_search_spec (map_list kui_ms) (literal_key anchor) key
              position HA Hp _ cursor (literal_key anchor) eq_refl ltac:(lia))
    as (j & cur & Hcases).
  unfold kui_ms_update_state.
  destruct (Z.ltb_spec (Z.of_nat position) 0); [lia|].
  destruct (Z.ltb_spec key 0); [lia|].
  rewrite Hst, Hit. cbn [kui_map_state_eqb negb std_list_get_data].
  rewrite Hanchor.
  destruct Hcases as [[Heq Hw]|[(Heq & -> & Hw)|(Heq & (C & HC & ->) & Hw)]];
    rewrite Heq; ms_simpl.
  - exists Walk_not_found. eexists. split; [reflexivity|]. split; [assumption|].
    repeat split.
  - rewrite iter_eqb_Some, bool_decide_eq_true_2 by reflexivity.
    exists Walk_not_found. eexists. split; [reflexivity|]. split; [assumption|].
    repeat split.
  - pose proof (proper_keys_lookup _ _ _ Hp HC) as HCz.
    apply lookup_lt_Some in HC as HjL.
    rewrite iter_eqb_Some, bool_decide_eq_false_2 by lia.
    rewrite (intlen_zero_free _ HCz).
    exists (Walk_survivor j).
    destruct (Z.eqb_spec (Z.of_nat (length (literal_key C)))
                         (Z.of_nat position + 1)) as [Hlen|Hlen];
      cbn [negb].
    + assert (length (literal_key C) = S position) as Hlen' by lia.
      pose proof (no_longer_candidate_next _ j (S position) C Hs Hp HC) as Hnext.
      ms_simpl.
      rewrite iter_eqb_Some.
      destruct (decide (S j = length (map_list kui_ms))) as [Hend|Hmid].
      * rewrite bool_decide_eq_true_2 by assumption.
        eexists. split; [reflexivity|]. split; [assumption|].
        split; [reflexivity|]. split; [reflexivity|].
        exists C. split; [assumption|]. cbn.
        split; [auto|]. split; [intros; contradiction|].
        split; [auto|]. intros Hnot. exfalso. apply Hnot. split; [assumption|].
        apply Hnext. intros N HN. apply lookup_lt_Some in HN. lia.
      * rewrite bool_decide_eq_false_2 by assumption.
        destruct (map_list kui_ms !! S j) as [N|] eqn:HN;
          [|apply lookup_ge_None in HN; lia].
        pose proof (proper_keys_lookup _ _ _ Hp HN) as HNz.
        pose proof (intncmp_shares (S position) (literal_key N) (literal_key C)
                      HNz HCz) as Hsh.
        replace (Z.of_nat position + 1) with (Z.of_nat (S position)) by lia.
        destruct (Z.eqb_spec (intncmp (literal_key N) (literal_key C)
                                (Z.of_nat (S position))) 0) as [Hz|Hnz];
          cbn [negb]; eexists; (split; [reflexivity|]);
          (split; [assumption|]); (split; [reflexivity|]);
          (split; [reflexivity|]); exists C; (split; [assumption|]); cbn;
          (split; [auto|]); (split; [intros; contradiction|]).
        -- split; [|reflexivity].
           intros [_ Hno]. exfalso. apply (Hno (S j) N); [lia|assumption|].
           apply shares_prefix_sym, Hsh, Hz.
        -- split; [reflexivity|].
           intros Hnot. exfalso. apply Hnot. split; [assumption|].
           apply Hnext. intros N' HN' Hshare.
           assert (N' = N) as -> by congruence.
           apply Hnz, Hsh, shares_prefix_sym, Hshare.
    + eexists. split; [reflexivity|]. split; [assumption|].
      split; [reflexivity|]. split; [reflexivity|].
      exists C. split; [assumption|]. cbn.
      split; [intros; lia|]. split; [auto|].
      split; [intros [? _]; lia|]. reflexivity.
Qed.

Lemma update_state_follows_spec_rule_witness :
  let kui_ms := kui_ms_reset_state (kui_ms_of [map_a_X; map_abc_Y]) in
  exists r after,
    kui_ms_update_state kui_ms 97 (Z.of_nat 0) = (0, after) /\
    spec_walk (map_list kui_ms) (literal_key map_a_X) 97 0 0 r /\
    spec_update_result kui_ms 0 r after.
Proof.
  apply (update_state_follows_spec_rule
           (kui_ms_reset_state (kui_ms_of [map_a_X; map_abc_Y])) 97 0 0 map_a_X).
  - repeat constructor. vm_compute. discriminate.
  - repeat constructor; vm_compute; discriminate.
  - reflexivity.
  - reflexivity.
  - reflexivity.
  - lia.
Defined.

(** ** The bounded compare at length zero *)

Lemma update_search_position_0 rest A key : forall i st cur j cur',
  update_search rest A key 0 i st cur = (j, KUI_MAP_NOT_FOUND, cur') ->
  st <> KUI_MAP_NOT_FOUND ->
  exists C, rest !! (j - i)%nat = Some C /\ (i <= j)%nat /\
            ix (literal_key C) 0 > key.
Proof.
  induction rest as [|m rest IH]; intros i st cur j cur' Hrun Hst.
  - simpl in Hrun. congruence.
  - cbn [update_search] in Hrun.
    change (intncmp A (literal_key m) 0) with 0 in Hrun.
    cbn [Z.eqb negb orb andb] in Hrun.
    change (Z.to_nat 0) with 0%nat in Hrun.
    rewrite Z.gtb_ltb in Hrun.
    destruct (Z.ltb_spec key (ix (literal_key m) 0)).
    + injection Hrun as <- _. exists m. rewrite Nat.sub_diag.
      split; [reflexivity|]. split; lia.
    + destruct (ix (literal_key m) 0 =? key); [discriminate|].
      destruct (IH _ _ _ _ _ Hrun Hst) as (C & HC & Hle & Hgt).
      exists C. replace (j - i)%nat with (S (j - S i)) by lia.
      split; [assumption|]. split; lia.
Qed.

(** C10. Whatever the two arrays hold, the bounded compare over zero
    positions returns 0, its loop body (the only place that reads a cell)
    not being entered.  So when update at position 0 returns 0 and leaves
    NOT_FOUND, no candidate was turned down for having left the matched
    prefix: either the list was exhausted, or the cursor rests on a
    candidate whose first token exceeds the input token. *)
Theorem intncmp_zero_positions :
  (forall one two : int_array, intncmp one two 0 = 0) /\
  (forall kui_ms key after,
     kui_ms_update_state kui_ms key 0 = (0, after) ->
     map_state after = KUI_MAP_NOT_FOUND ->
     map_iter after = std_list_end (map_list kui_ms) \/
     exists j C, map_iter after = Some j /\
                 map_list kui_ms !! j = Some C /\
                 ix (literal_key C) 0 > key).
Proof.
  split; [reflexivity|].
  intros kui_ms key after Hrun Hnf. unfold kui_ms_update_state in Hrun.
  cbn [Z.ltb Z.compare] in Hrun.
  destruct (key <? 0); [discriminate|].
  destruct (map_state kui_ms) eqn:Hst; cbn [kui_map_state_eqb negb] in Hrun;
    try discriminate.
  destruct (map_iter kui_ms) as [start|]; [|discriminate].
  cbn [std_list_get_data] in Hrun.
  destruct (map_list kui_ms !! start) as [anchor|] eqn:Hanchor; [|discriminate].
  destruct (update_search _ _ _ _ _ _ _) as [[j st] cur] eqn:Hsearch.
  revert Hrun. ms_simpl.
  destruct st; cbn [kui_map_state_eqb].
  - rewrite iter_eqb_Some. case_bool_decide.
    + intros [= <-]. left. subst j. reflexivity.
    + repeat case_match; intros [= <-]; discriminate.
  - rewrite iter_eqb_Some. case_bool_decide.
    + intros [= <-]. left. subst j. reflexivity.
    + repeat case_match; intros [= <-]; discriminate.
  - intros [= <-]. right.
    destruct (update_search_position_0 _ _ _ _ _ _ _ _ Hsearch ltac:(discriminate))
      as (C & HC & Hle & Hgt).
    rewrite lookup_drop in HC.
    exists j, C. replace (start + (j - start))%nat with j in HC by lia.
    auto.
  - rewrite iter_eqb_Some. case_bool_decide.
    + intros [= <-]. left. subst j. reflexivity.
    + repeat case_match; intros [= <-]; discriminate.
Qed.

Lemma intncmp_zero_positions_witness :
  intncmp [97; 98] [100] 0 = 0 /\
  (map_iter (snd (kui_ms_update_state
                    (kui_ms_reset_state (kui_ms_of [map_a_X; map_abc_Y])) 50 0))
   = std_list_end [map_a_X; map_abc_Y] \/
   exists j C,
     map_iter (snd (kui_ms_update_state
                      (kui_ms_reset_state (kui_ms_of [map_a_X; map_abc_Y])) 50 0))
     = Some j /\
     [map_a_X; map_abc_Y] !! j = Some C /\ ix (literal_key C) 0 > 50).
Proof.
  split.
  - apply (proj1 intncmp_zero_positions).
  - apply (proj2 intncmp_zero_positions
             (kui_ms_reset_state (kui_ms_of [map_a_X; map_abc_Y])) 50);
      reflexivity.
Defined.

(** ** The state after a scan *)

Lemma update_search_state rest A key position : forall i st cur,
  let st' := snd (fst (update_search rest A key position i st cur)) in
  st' = st \/ st' = KUI_MAP_NOT_FOUND \/ st' = KUI_MAP_STILL_LOOKING.
Proof.
  induction rest as [|m rest IH]; intros i st cur; cbn [update_search].
  - left. reflexivity.
  - repeat case_match; simpl; auto.
Qed.

(** The latch covers every FOUND the scan can produce, and no call
    produces ERROR. *)
Definition latch_covers (kui_ms : kui_map_set) : Prop :=
  map_state kui_ms <> KUI_MAP_ERROR /\
  (map_state kui_ms = KUI_MAP_FOUND -> is_found kui_ms = true).

Lemma latch_covers_reset kui_ms : latch_covers (kui_ms_reset_state kui_ms).
Proof. split; simpl; [discriminate|discriminate]. Qed.

Lemma latch_covers_update kui_ms key position :
  latch_covers kui_ms ->
  latch_covers (snd (kui_ms_update_state kui_ms key position)).
Proof.
  intros Hinv. unfold kui_ms_update_state.
  destruct (position <? 0); [assumption|].
  destruct (key <? 0); [assumption|].
  destruct (map_state kui_ms) eqn:Hst; cbn [kui_map_state_eqb negb];
    try assumption.
  destruct (map_iter kui_ms) as [start|]; [|assumption].
  destruct (std_list_get_data _ _) as [anchor|]; [|assumption].
  pose proof (update_search_state (drop start (map_list kui_ms))
                (literal_key anchor) key position start
                KUI_MAP_STILL_LOOKING (literal_key anchor)) as Hs.
  destruct (update_search _ _ _ _ _ _ _) as [[j st] cur].
  simpl in Hs.
  assert (st = KUI_MAP_NOT_FOUND \/ st = KUI_MAP_STILL_LOOKING) as [->| ->]
    by tauto; ms_simpl.
  - split; simpl; discriminate.
  - repeat case_match; simpl; split; simpl; try discriminate; auto.
Qed.

Lemma latch_covers_run calls : forall kui_ms,
  latch_covers kui_ms -> latch_covers (run_updates kui_ms calls).
Proof.
  induction calls as [|[key position] calls IH]; intros kui_ms Hinv;
    [assumption|].
  simpl. apply IH, latch_covers_update, Hinv.
Qed.

(** C5, as the code has it.  After reset, any list of update calls and
    finalize, the state is never ERROR; it is FOUND exactly when is_found
    was latched during the scan; otherwise finalize leaves the state the
    updates left, which is STILL_LOOKING or NOT_FOUND. *)
Theorem finalize_after_updates (kui_ms : kui_map_set) (calls : list (Z * Z)) :
  let scanned := run_updates (kui_ms_reset_state kui_ms) calls in
  let final := kui_ms_finalize_state scanned in
  map_state final <> KUI_MAP_ERROR /\
  (map_state final = KUI_MAP_FOUND <-> is_found scanned = true) /\
  (is_found scanned = false ->
   map_state final = map_state scanned /\
   (map_state final = KUI_MAP_STILL_LOOKING \/
    map_state final = KUI_MAP_NOT_FOUND)).
Proof.
  intros scanned final.
  pose proof (latch_covers_run calls _ (latch_covers_reset kui_ms)) as [Hne Hf].
  fold scanned in Hne, Hf. subst final. unfold kui_ms_finalize_state.
  destruct (is_found scanned) eqn:Hlatch.
  - simpl. split; [discriminate|]. split; [tauto|discriminate].
  - split; [assumption|]. split.
    + split; [intros H; specialize (Hf H); discriminate|discriminate].
    + intros _. split; [reflexivity|].
      destruct (map_state scanned); auto; [|congruence].
      specialize (Hf eq_refl). discriminate.
Qed.

(** C5 as stated fails: with the single map abc -> Y, reset, update with
    the token a at position 0 and finalize leave STILL_LOOKING. *)
Lemma finalize_leaves_still_looking :
  ~ (map_state (kui_ms_finalize_state
                 (run_updates (kui_ms_reset_state (kui_ms_of [map_abc_Y]))
                              [(97, 0)])) = KUI_MAP_FOUND \/
     map_state (kui_ms_finalize_state
                 (run_updates (kui_ms_reset_state (kui_ms_of [map_abc_Y]))
                              [(97, 0)])) = KUI_MAP_NOT_FOUND).
Proof. vm_compute. intros [H|H]; discriminate. Qed.

(** ** Passes *)

Section Passes.

Context {source : Type}.
Implicit Types kctx : kuictx source.

Lemma findkey_loop_no_data room kctx position bufmax kctx' :
  kui_findchar kctx = (0, kctx') ->
  findkey_loop room kctx position bufmax = Loop_break position bufmax kctx'.
Proof. intros H. destruct room; simpl; rewrite H; reflexivity. Qed.

Lemma findkey_loop_step room kctx position bufmax key kctx' :
  kui_findchar kctx = (key, kctx') -> key <> 0 ->
  findkey_loop (S room) kctx position bufmax =
  let position := position + 1 in
  let bufmax := <[Z.to_nat position := key]> bufmax in
  let '(r, sets) := kui_update_each_list (kui_map_set_list kctx') key position in
  let kctx := set_map_sets sets kctx' in
  if r =? -1 then Loop_fail kctx
  else if negb (kui_should_continue_looking (kui_map_set_list kctx) false)
  then Loop_break position bufmax kctx
  else findkey_loop room kctx position bufmax.
Proof.
  intros H Hkey. cbn [findkey_loop]. rewrite H.
  destruct (Z.eqb_spec key 0); [contradiction|reflexivity].
Qed.

Lemma findkey_loop_overrun kctx position bufmax key kctx' :
  kui_findchar kctx = (key, kctx') -> key <> 0 ->
  findkey_loop 0 kctx position bufmax = Loop_overrun (position + 1) kctx'.
Proof.
  intros H Hkey. cbn [findkey_loop]. rewrite H.
  destruct (Z.eqb_spec key 0); [contradiction|reflexivity].
Qed.

Lemma findchar_set_map_sets sets kctx :
  kui_findchar (set_map_sets sets kctx) =
  (fst (kui_findchar kctx), set_map_sets sets (snd (kui_findchar kctx))).
Proof.
  unfold kui_findchar. destruct kctx as [s b cb m sd f]; simpl.
  destruct b; [|reflexivity]. destruct (cb f m sd); reflexivity.
Qed.

Lemma findchar_map_sets kctx :
  kui_map_set_list (snd (kui_findchar kctx)) = kui_map_set_list kctx.
Proof.
  unfold kui_findchar. destruct (buffer kctx); [|reflexivity].
  destruct (callback _ _ _ _); reflexivity.
Qed.

End Passes.

Lemma finalize_reset kui_ms :
  kui_ms_finalize_state (kui_ms_reset_state kui_ms) = kui_ms_reset_state kui_ms.
Proof. reflexivity. Qed.

Lemma update_list_state_reset sets :
  kui_update_list_state (kui_reset_state_data sets) = kui_reset_state_data sets.
Proof.
  unfold kui_update_list_state, kui_reset_state_data.
  induction sets as [|s sets IH]; [reflexivity|].
  rewrite !fmap_cons, IH. reflexivity.
Qed.

Lemma was_map_found_reset sets was the :
  kui_was_map_found (kui_reset_state_data sets) was the = (0, was, the).
Proof.
  induction sets as [|s sets IH]; simpl; [reflexivity|apply IH].
Qed.

Lemma bufmax_init_first stack : ix (bufmax_init stack) 0 = stack 0%nat.
Proof. reflexivity. Qed.

Lemma bufmax_init_length stack : length (bufmax_init stack) = BUFMAX_CELLS.
Proof. unfold bufmax_init. rewrite length_fmap, length_seq. reflexivity. Qed.

Lemma update_state_empty_list kui_ms key position :
  map_list kui_ms = [] ->
  fst (kui_ms_update_state (kui_ms_reset_state kui_ms) key position) = -1.
Proof.
  intros Hnil. unfold kui_ms_update_state.
  destruct (position <? 0); [reflexivity|].
  destruct (key <? 0); [reflexivity|].
  simpl. rewrite Hnil. reflexivity.
Qed.

(** ** A pass that finds no data *)

(** C4, what the code does.  When the first read of a call finds no data,
    the pass has stored nothing in bufmax, no map set is FOUND, and the
    pass returns the cell bufmax[0] as the stack happened to hold it: the
    value returned is that cell, whatever it is, not 0. *)
Theorem no_data_pass_returns_stack_cell {source : Type}
    (kctx kctx' : kuictx source) (stack : nat -> Z) (passes : nat) :
  kui_findchar kctx = (0, kctx') ->
  exists k,
    kui_getkey (S passes) kctx stack = Getkey_return (stack 0%nat) k /\
    buffer k = buffer kctx' /\ state_data k = state_data kctx'.
Proof.
  intros Hread. cbn [kui_getkey]. unfold kui_findkey.
  rewrite (findkey_loop_no_data _ _ _ _
             (set_map_sets (kui_reset_state_data (kui_map_set_list kctx)) kctx')).
  2:{ rewrite findchar_set_map_sets, Hread. reflexivity. }
  cbn [set_map_sets kui_map_set_list buffer].
  rewrite update_list_state_reset, was_map_found_reset.
  cbn [Z.eqb]. unfold kui_update_buffer.
  change (Z.to_nat (-1 - 1 + 1)) with 0%nat. cbn [prepend_down Z.eqb].
  rewrite bufmax_init_first.
  destruct (Z.eqb_spec (stack 0%nat) (-1)) as [->|_];
    eexists; (split; [reflexivity|]); split; reflexivity.
Qed.

Lemma no_data_pass_returns_stack_cell_witness :
  exists k,
    kui_getkey 1 (kui_create_on [] [prefix_maps]) (fun _ => 7)
    = Getkey_return 7 k /\
    buffer k = [] /\ state_data k = [].
Proof.
  apply (no_data_pass_returns_stack_cell
           (kui_create_on [] [prefix_maps])
           (kui_create_on [] [prefix_maps]) (fun _ => 7) 0).
  reflexivity.
Defined.

(** ** A map set without maps *)

(** C7, what the code does.  With a single map set that holds no map, the
    first update of a pass asks the list for the item under the cursor,
    there is none, and the call fails: get_key returns -1 for a key the
    source did deliver. *)
Theorem empty_map_set_getkey_fails {source : Type}
    (kctx kctx' : kuictx source) (kui_ms : kui_map_set) (key : Z)
    (stack : nat -> Z) (passes : nat) :
  kui_map_set_list kctx = [kui_ms] ->
  map_list kui_ms = [] ->
  kui_findchar kctx = (key, kctx') ->
  key <> 0 ->
  exists k, kui_getkey (S passes) kctx stack = Getkey_return (-1) k.
Proof.
  intros Hsets Hnil Hread Hkey. cbn [kui_getkey]. unfold kui_findkey.
  change BUFMAX_CELLS with (S 1023).
  erewrite findkey_loop_step; [| |exact Hkey].
  2:{ rewrite findchar_set_map_sets, Hread. reflexivity. }
  cbn [set_map_sets kui_map_set_list fst snd]. rewrite Hsets.
  cbn [kui_reset_state_data fmap list_fmap kui_update_each_list
       kui_ms_get_state kui_ms_reset_state map_state kui_map_state_eqb negb].
  pose proof (update_state_empty_list kui_ms key (-1 + 1) Hnil) as Hfail.
  fold (kui_ms_reset_state kui_ms).
  destruct (kui_ms_update_state _ _ _) as [r after]. simpl in Hfail. subst r.
  cbn [Z.eqb]. eexists. reflexivity.
Qed.

Lemma empty_map_set_getkey_fails_witness :
  exists k,
    kui_getkey 1 (kui_create_on [97; 98] [kui_ms_of []]) (fun _ => 0)
    = Getkey_return (-1) k.
Proof.
  apply (empty_map_set_getkey_fails
           (kui_create_on [97; 98] [kui_ms_of []])
           (kui_create_on [98] [kui_ms_of []]) (kui_ms_of []) 97 (fun _ => 0) 0);
    [reflexivity|reflexivity|reflexivity|discriminate].
Defined.

(** ** Putting keys back *)

Lemma prepend_down_cells cells : forall count j buffer,
  (count <= S j)%nat ->
  prepend_down count cells (Z.of_nat j) buffer =
  (ix cells <$> seq (S j - count) count) ++ buffer.
Proof.
  induction count as [|count IH]; intros j buffer Hle; [reflexivity|].
  cbn [prepend_down]. unfold std_list_prepend. rewrite Nat2Z.id.
  destruct count as [|count].
  - cbn [prepend_down]. replace (S j - 1)%nat with j by lia. reflexivity.
  - destruct j as [|j]; [lia|].
    replace (Z.of_nat (S j) - 1) with (Z.of_nat j) by lia.
    rewrite IH by lia.
    replace (S (S j) - S (S count))%nat with (S j - S count)%nat by lia.
    rewrite (seq_S (S count)), fmap_app, <- app_assoc.
    replace (S j - S count + S count)%nat with (S j) by lia. reflexivity.
Qed.

Lemma ix_seq_all (cells : list Z) : ix cells <$> seq 0 (length cells) = cells.
Proof.
  induction cells as [|c cells IH]; [reflexivity|].
  cbn [length seq fmap list_fmap]. f_equal.
  rewrite <- seq_shift, <- list_fmap_compose.
  etransitivity; [|exact IH]. apply list_fmap_ext. intros ? ? _. reflexivity.
Qed.

Lemma prepend_down_all cells buffer :
  prepend_down (Z.to_nat (Z.of_nat (length cells))) cells
               (Z.of_nat (length cells) - 1) buffer
  = cells ++ buffer.
Proof.
  rewrite Nat2Z.id. destruct (length cells) as [|n] eqn:Hlen.
  - destruct cells; [reflexivity|discriminate].
  - replace (Z.of_nat (S n) - 1) with (Z.of_nat n) by lia.
    rewrite prepend_down_cells by lia.
    replace (S n - S n)%nat with 0%nat by lia.
    rewrite <- Hlen, ix_seq_all. reflexivity.
Qed.

(** ** A map set with one map *)

Lemma positive_zero_free k : positive_key k -> zero_free k.
Proof.
  intros Hpos. eapply Forall_impl; [exact Hpos|]. intros c Hc. simpl in Hc. lia.
Qed.

Lemma ix_lookup (a : int_array) i c : a !! i = Some c -> ix a i = c.
Proof. unfold ix. intros ->. reflexivity. Qed.

Lemma update_single m i c :
  positive_key (literal_key m) ->
  literal_key m !! i = Some c ->
  kui_ms_update_state (single_scanning m) c (Z.of_nat i) =
  (0, if decide (S i = length (literal_key m))
      then single_found m else single_scanning m).
Proof.
  intros Hpos Hc. pose proof (positive_zero_free _ Hpos) as Hzf.
  assert (0 < c) as Hcpos.
  { unfold positive_key in Hpos. rewrite Forall_forall in Hpos. apply Hpos.
    eapply list_elem_of_lookup_2; eassumption. }
  unfold kui_ms_update_state.
  destruct (Z.ltb_spec (Z.of_nat i) 0); [lia|].
  destruct (Z.ltb_spec c 0); [lia|].
  cbn [single_scanning map_state map_iter map_list kui_map_state_eqb negb
       std_list_get_data lookup list_lookup drop update_search].
  assert (intncmp (literal_key m) (literal_key m) (Z.of_nat i) = 0) as ->.
  { apply intncmp_shares; [assumption..|reflexivity]. }
  rewrite Nat2Z.id, (ix_lookup _ _ _ Hc), Z.gtb_ltb, Z.ltb_irrefl, (Z.eqb_refl c).
  cbn [Z.eqb negb orb andb]. ms_simpl.
  rewrite iter_eqb_Some, bool_decide_eq_false_2 by (simpl; lia).
  rewrite (intlen_zero_free _ Hzf).
  destruct (decide (S i = length (literal_key m))) as [Hlast|Hmore].
  - destruct (Z.eqb_spec (Z.of_nat (length (literal_key m))) (Z.of_nat i + 1));
      [|lia].
    cbn [negb]. rewrite iter_eqb_Some, bool_decide_eq_true_2 by reflexivity.
    reflexivity.
  - destruct (Z.eqb_spec (Z.of_nat (length (literal_key m))) (Z.of_nat i + 1));
      [lia|].
    reflexivity.
Qed.

Section Single.

Context {source : Type}.
Implicit Types kctx : kuictx source.

Lemma set_map_sets_id sets kctx :
  kui_map_set_list kctx = sets -> set_map_sets sets kctx = kctx.
Proof. destruct kctx. simpl. intros <-. reflexivity. Qed.

Lemma findchar_n_set_map_sets sets n : forall kctx,
  findchar_n n (set_map_sets sets kctx) =
  (fst (findchar_n n kctx), set_map_sets sets (snd (findchar_n n kctx))).
Proof.
  induction n as [|n IH]; intros kctx; [reflexivity|].
  cbn [findchar_n]. rewrite findchar_set_map_sets.
  destruct (kui_findchar kctx) as [key k1]. cbn [fst snd].
  rewrite IH. destruct (findchar_n n k1). reflexivity.
Qed.

Lemma findchar_n_map_sets n : forall kctx,
  kui_map_set_list (snd (findchar_n n kctx)) = kui_map_set_list kctx.
Proof.
  induction n as [|n IH]; intros kctx; [reflexivity|].
  cbn [findchar_n]. pose proof (findchar_map_sets kctx) as H1.
  destruct (kui_findchar kctx) as [key k1]. specialize (IH k1).
  destruct (findchar_n n k1). simpl in *. congruence.
Qed.

Lemma findchar_n_buffer keys : forall kctx rest,
  buffer kctx = keys ++ rest ->
  findchar_n (length keys) kctx = (keys, set_buffer rest kctx).
Proof.
  induction keys as [|key keys IH]; intros kctx rest Hbuf.
  - simpl in *. destruct kctx; simpl in *; subst. reflexivity.
  - cbn [length findchar_n]. unfold kui_findchar. rewrite Hbuf.
    cbn [app]. rewrite (IH _ rest) by reflexivity. reflexivity.
Qed.

(** The scan of one pass over the key of the single map: every token but
    the last leaves the set as it is, the last one leaves it FOUND and
    ends the loop. *)
Lemma findchar_n_S n kctx :
  findchar_n (S n) kctx =
  (fst (kui_findchar kctx) :: fst (findchar_n n (snd (kui_findchar kctx))),
   snd (findchar_n n (snd (kui_findchar kctx)))).
Proof.
  cbn [findchar_n]. destruct (kui_findchar kctx) as [key k1].
  cbn [fst snd]. destruct (findchar_n n k1). reflexivity.
Qed.

Lemma positive_lookup_nonzero (k : int_array) i c :
  positive_key k -> k !! i = Some c -> c <> 0.
Proof.
  intros Hpos Hc. unfold positive_key in Hpos. rewrite Forall_forall in Hpos.
  assert (0 < c); [|lia]. apply Hpos.
  eapply list_elem_of_lookup_2; eassumption.
Qed.

(** One turn of the loop on a token of the key of the single map. *)
Lemma findkey_loop_single_step m room kctx i bufmax c :
  positive_key (literal_key m) ->
  kui_map_set_list kctx = [single_scanning m] ->
  fst (kui_findchar kctx) = c ->
  literal_key m !! i = Some c ->
  findkey_loop (S room) kctx (Z.of_nat i - 1) bufmax =
  if decide (S i = length (literal_key m))
  then Loop_break (Z.of_nat i) (<[i:=c]> bufmax)
                  (set_map_sets [single_found m] (snd (kui_findchar kctx)))
  else findkey_loop room (snd (kui_findchar kctx)) (Z.of_nat i)
                    (<[i:=c]> bufmax).
Proof.
  intros Hpos Hsets Hkey Hc.
  destruct (kui_findchar kctx) as [key k1] eqn:Hread. cbn [fst snd] in *.
  subst key.
  pose proof (positive_lookup_nonzero _ _ _ Hpos Hc) as Hnz.
  rewrite (findkey_loop_step _ _ _ _ _ _ Hread Hnz). cbn zeta.
  pose proof (findchar_map_sets kctx) as Hk1. rewrite Hread in Hk1.
  cbn [snd] in Hk1. rewrite Hk1, Hsets.
  cbn [kui_update_each_list kui_ms_get_state single_scanning map_state
       kui_map_state_eqb negb].
  fold (single_scanning m).
  replace (Z.of_nat i - 1 + 1) with (Z.of_nat i) by lia.
  rewrite (update_single m i c Hpos Hc), Nat2Z.id.
  destruct (decide (S i = length (literal_key m))); cbn [Z.eqb].
  - reflexivity.
  - cbn [set_map_sets kui_map_set_list kui_should_continue_looking
         kui_ms_get_state single_scanning map_state kui_map_state_eqb negb].
    fold (set_map_sets [single_scanning m] k1).
    rewrite (set_map_sets_id _ k1) by congruence. reflexivity.
Qed.

(** The scan of one pass over the key of the single map: every token but
    the last leaves the set as it is, the last one leaves it FOUND and
    ends the loop. *)
Lemma findkey_loop_single m : forall n room kctx i bufmax,
  positive_key (literal_key m) ->
  kui_map_set_list kctx = [single_scanning m] ->
  fst (findchar_n (S n) kctx) = take (S n) (drop i (literal_key m)) ->
  (i + S n = length (literal_key m))%nat ->
  (S n <= room)%nat ->
  exists bufmax',
    findkey_loop room kctx (Z.of_nat i - 1) bufmax =
    Loop_break (Z.of_nat (length (literal_key m)) - 1) bufmax'
               (set_map_sets [single_found m] (snd (findchar_n (S n) kctx))).
Proof.
  induction n as [|n IH]; intros room kctx i bufmax Hpos Hsets Hin Hlen Hroom;
    (destruct room as [|room]; [lia|]);
    (destruct (literal_key m !! i) as [c|] eqn:Hc;
      [|apply lookup_ge_None in Hc; lia]);
    rewrite findchar_n_S in Hin |- *; cbn [fst snd] in Hin |- *;
    rewrite (drop_S _ _ _ Hc), firstn_cons in Hin;
    assert (fst (kui_findchar kctx) = c) as Hkey by congruence;
    match type of Hin with
    | _ :: ?l = _ :: ?r => assert (l = r) as Hkeys by congruence
    end;
    rewrite (findkey_loop_single_step m room kctx i bufmax c Hpos Hsets Hkey Hc).
  - rewrite decide_True by lia. eexists. f_equal. lia.
  - rewrite decide_False by lia.
    destruct (IH room (snd (kui_findchar kctx)) (S i) (<[i:=c]> bufmax) Hpos)
      as [bufmax' Hloop]; [|exact Hkeys|lia|lia|].
    { rewrite findchar_map_sets. exact Hsets. }
    replace (Z.of_nat (S i) - 1) with (Z.of_nat i) in Hloop by lia.
    rewrite Hloop. eexists. reflexivity.
Qed.

(** The same scan when the key is longer than the room left in bufmax. *)
Lemma findkey_loop_single_overrun m : forall room kctx i bufmax,
  positive_key (literal_key m) ->
  kui_map_set_list kctx = [single_scanning m] ->
  fst (findchar_n (S room) kctx) = take (S room) (drop i (literal_key m)) ->
  (i + S room <= length (literal_key m))%nat ->
  findkey_loop room kctx (Z.of_nat i - 1) bufmax =
  Loop_overrun (Z.of_nat (i + room)) (snd (findchar_n (S room) kctx)).
Proof.
  induction room as [|room IH]; intros kctx i bufmax Hpos Hsets Hin Hlen;
    (destruct (literal_key m !! i) as [c|] eqn:Hc;
      [|apply lookup_ge_None in Hc; lia]);
    rewrite findchar_n_S in Hin |- *; cbn [fst snd] in Hin |- *;
    rewrite (drop_S _ _ _ Hc), firstn_cons in Hin;
    assert (fst (kui_findchar kctx) = c) as Hkey by congruence;
    match type of Hin with
    | _ :: ?l = _ :: ?r => assert (l = r) as Hkeys by congruence
    end.
  - pose proof (positive_lookup_nonzero _ _ _ Hpos Hc) as Hnz.
    destruct (kui_findchar kctx) as [key k1] eqn:Hread. cbn [fst snd] in *.
    subst key.
    rewrite (findkey_loop_overrun _ _ _ _ _ Hread Hnz). f_equal. lia.
  - rewrite (findkey_loop_single_step m room kctx i bufmax c Hpos Hsets Hkey Hc).
    rewrite decide_False by lia.
    replace (Z.of_nat i) with (Z.of_nat (S i) - 1) by lia.
    rewrite (IH (snd (kui_findchar kctx)) (S i) (<[i:=c]> bufmax) Hpos);
      [f_equal; lia| |exact Hkeys|lia].
    rewrite findchar_map_sets. exact Hsets.
Qed.

End Single.

Lemma reset_single kui_ms m :
  map_list kui_ms = [m] -> kui_ms_reset_state kui_ms = single_scanning m.
Proof. intros H. unfold kui_ms_reset_state. rewrite H. reflexivity. Qed.

Section SinglePass.

Context {source : Type}.
Implicit Types kctx : kuictx source.

(** A pass over a single map whose whole key the input delivers: the map
    is found, the key is consumed and the value is put back. *)
Lemma findkey_single_found kctx kui_ms m stack :
  kui_map_set_list kctx = [kui_ms] ->
  map_list kui_ms = [m] ->
  positive_key (literal_key m) ->
  zero_free (literal_value m) ->
  literal_key m <> [] ->
  (length (literal_key m) <= BUFMAX_CELLS)%nat ->
  input_begins kctx (literal_key m) ->
  kui_findkey kctx stack =
  Findkey_return 0 true
    (set_buffer
       (literal_value m
        ++ buffer (snd (findchar_n (length (literal_key m)) kctx)))
       (set_map_sets [single_found m]
                     (snd (findchar_n (length (literal_key m)) kctx)))).
Proof.
  intros Hsets Hmaps Hpos Hval Hne Hlen Hin.
  unfold kui_findkey. rewrite Hsets.
  cbn [kui_reset_state_data fmap list_fmap].
  rewrite (reset_single _ _ Hmaps).
  destruct (length (literal_key m)) as [|n] eqn:Hn.
  { destruct (literal_key m); [contradiction|discriminate]. }
  destruct (findkey_loop_single m n BUFMAX_CELLS
              (set_map_sets [single_scanning m] kctx) 0 (bufmax_init stack)
              Hpos eq_refl) as [bufmax' Hloop]; [|lia|lia|].
  { rewrite findchar_n_set_map_sets. cbn [fst drop].
    unfold input_begins in Hin. rewrite Hn in Hin. rewrite Hin.
    rewrite drop_0, firstn_all2 by lia. reflexivity. }
  change (Z.of_nat 0 - 1) with (-1) in Hloop. rewrite Hloop.
  rewrite findchar_n_set_map_sets. cbn [snd].
  cbn [set_map_sets kui_map_set_list buffer kui_update_list_state fmap
       list_fmap kui_ms_finalize_state single_found is_found
       kui_was_map_found kui_ms_get_state map_state kui_map_state_eqb
       set_map_state set_map_iter map_iter map_list map_iter_found
       std_list_get_data lookup list_lookup Z.eqb].
  unfold kui_update_buffer.
  rewrite (intlen_zero_free _ (positive_zero_free _ Hpos)), Hn.
  replace (Z.of_nat (S n) - 1 - Z.of_nat (S n) + 1) with 0 by lia.
  change (Z.to_nat 0) with 0%nat. cbn [prepend_down].
  rewrite (intlen_zero_free _ Hval), prepend_down_all.
  cbn [Z.eqb]. reflexivity.
Qed.

(** The same pass when the key does not fit into bufmax. *)
Lemma findkey_single_overrun kctx kui_ms m stack :
  kui_map_set_list kctx = [kui_ms] ->
  map_list kui_ms = [m] ->
  positive_key (literal_key m) ->
  (BUFMAX_CELLS < length (literal_key m))%nat ->
  input_begins kctx (take (S BUFMAX_CELLS) (literal_key m)) ->
  kui_findkey kctx stack =
  Findkey_overrun (Z.of_nat BUFMAX_CELLS)
    (set_map_sets [single_scanning m] (snd (findchar_n (S BUFMAX_CELLS) kctx))).
Proof.
  intros Hsets Hmaps Hpos Hlen Hin.
  unfold kui_findkey. rewrite Hsets.
  cbn [kui_reset_state_data fmap list_fmap].
  rewrite (reset_single _ _ Hmaps).
  unfold input_begins in Hin. rewrite length_take_le in Hin by lia.
  change (-1) with (Z.of_nat 0 - 1).
  rewrite (findkey_loop_single_overrun m BUFMAX_CELLS
             (set_map_sets [single_scanning m] kctx) 0 (bufmax_init stack)
             Hpos eq_refl); [| |cbn [Nat.add]; lia].
  - rewrite findchar_n_set_map_sets. reflexivity.
  - rewrite findchar_n_set_map_sets, drop_0. exact Hin.
Qed.

End SinglePass.

(** ** A key longer than bufmax *)

(** C3, what the code does.  With a single map whose key has more than
    1024 tokens and an input that delivers the first 1025 of them, the
    pass is still looking after 1024 reads and stores the next key at
    bufmax[1024], behind the last cell: no check stands before the store
    and no error is returned. *)
Theorem long_key_overruns_bufmax {source : Type} (kctx : kuictx source)
    (kui_ms : kui_map_set) (m : kui_map) (stack : nat -> Z) (passes : nat) :
  kui_map_set_list kctx = [kui_ms] ->
  map_list kui_ms = [m] ->
  positive_key (literal_key m) ->
  (1024 < length (literal_key m))%nat ->
  input_begins kctx (take 1025 (literal_key m)) ->
  exists k,
    kui_findkey kctx stack = Findkey_overrun 1024 k /\
    kui_getkey (S passes) kctx stack = Getkey_overrun 1024 k.
Proof.
  intros Hsets Hmaps Hpos Hlen Hin.
  pose proof (findkey_single_overrun kctx kui_ms m stack Hsets Hmaps Hpos
                Hlen Hin) as Hpass.
  eexists. split; [exact Hpass|].
  cbn [kui_getkey]. rewrite Hpass. reflexivity.
Qed.

Lemma long_key_overruns_bufmax_witness :
  exists k,
    kui_findkey (kui_create_on long_key [kui_ms_of [map_long]]) (fun _ => 0)
    = Findkey_overrun 1024 k /\
    kui_getkey 1 (kui_create_on long_key [kui_ms_of [map_long]]) (fun _ => 0)
    = Getkey_overrun 1024 k.
Proof.
  apply (long_key_overruns_bufmax
           (kui_create_on long_key [kui_ms_of [map_long]])
           (kui_ms_of [map_long]) map_long (fun _ => 0) 0).
  - reflexivity.
  - reflexivity.
  - apply Forall_replicate. lia.
  - vm_compute. lia.
  - vm_compute. reflexivity.
Defined.

(** ** A map onto itself *)

Lemma self_map_passes {source : Type} (passes : nat) :
  forall (kctx : kuictx source) (kui_ms : kui_map_set) (m : kui_map)
         (stack : nat -> Z),
  kui_map_set_list kctx = [kui_ms] ->
  map_list kui_ms = [m] ->
  literal_value m = literal_key m ->
  positive_key (literal_key m) ->
  literal_key m <> [] ->
  (length (literal_key m) <= 1024)%nat ->
  input_begins kctx (literal_key m) ->
  exists k,
    kui_getkey passes kctx stack = Getkey_running k /\
    input_begins k (literal_key m).
Proof.
  induction passes as [|passes IH];
    intros kctx kui_ms m stack Hsets Hmaps Hself Hpos Hne Hlen Hin.
  - exists kctx. split; [reflexivity|assumption].
  - cbn [kui_getkey].
    rewrite (findkey_single_found kctx kui_ms m stack Hsets Hmaps Hpos);
      [|rewrite Hself; apply positive_zero_free; assumption
       |assumption|exact Hlen|assumption].
    cbn [Z.eqb]. rewrite Hself.
    apply (IH _ (single_found m) m stack); try assumption; try reflexivity.
    unfold input_begins. erewrite findchar_n_buffer; reflexivity.
Qed.

(** C2, as the code has it.  With a single map whose literal_value equals
    its literal_key and an input that begins with that key, every pass
    consumes the key, reports the map found and puts the same tokens back
    at the head of the buffer; the loop of get_key then starts the next
    pass, which finds the input as the one before found it.  After any
    number of passes get_key is still running. *)
Theorem self_map_getkey_keeps_running {source : Type} (passes : nat)
    (kctx : kuictx source) (kui_ms : kui_map_set) (m : kui_map)
    (stack : nat -> Z) :
  kui_map_set_list kctx = [kui_ms] ->
  map_list kui_ms = [m] ->
  literal_value m = literal_key m ->
  positive_key (literal_key m) ->
  literal_key m <> [] ->
  (length (literal_key m) <= 1024)%nat ->
  input_begins kctx (literal_key m) ->
  (exists pass,
     kui_findkey kctx stack = Findkey_return 0 true pass /\
     input_begins pass (literal_key m)) /\
  (exists k,
     kui_getkey passes kctx stack = Getkey_running k /\
     input_begins k (literal_key m)).
Proof.
  intros Hsets Hmaps Hself Hpos Hne Hlen Hin. split.
  - rewrite (findkey_single_found kctx kui_ms m stack Hsets Hmaps Hpos);
      [|rewrite Hself; apply positive_zero_free; assumption
       |assumption|exact Hlen|assumption].
    eexists. split; [reflexivity|]. rewrite Hself.
    unfold input_begins. erewrite findchar_n_buffer; reflexivity.
  - apply (self_map_passes passes kctx kui_ms m stack); assumption.
Qed.

Lemma self_map_getkey_keeps_running_witness :
  (exists pass,
     kui_findkey self_ctx (fun _ => 0) = Findkey_return 0 true pass /\
     input_begins pass [97]) /\
  (exists k,
     kui_getkey 5 self_ctx (fun _ => 0) = Getkey_running k /\
     input_begins k [97]).
Proof.
  apply (self_map_getkey_keeps_running 5 self_ctx (kui_ms_of [map_a_a])
           map_a_a (fun _ => 0)).
  - reflexivity.
  - reflexivity.
  - reflexivity.
  - repeat constructor.
  - discriminate.
  - simpl. lia.
  - reflexivity.
Defined.

(** C2 as stated fails: with the map a -> a and the input a, no number of
    passes brings get_key to return. *)
Lemma self_map_getkey_never_returns :
  ~ (exists passes key k,
       kui_getkey passes self_ctx (fun _ => 0) = Getkey_return key k).
Proof.
  intros (passes & key & k & Hret).
  destruct (self_map_passes passes self_ctx
              (kui_ms_of [map_a_a]) map_a_a (fun _ => 0))
    as (k' & Hrun & _);
    try reflexivity; [repeat constructor|discriminate|simpl; lia|].
  congruence.
Qed.

(** ** Prefix against extension *)

(** C9. One map set with a -> X and abc -> Y, the source delivering a
    then d.  Reading a latches the short match and keeps looking; reading
    d ends the scan NOT_FOUND; finalize promotes a -> X.  The pass puts d
    and then X back, the next pass emits X, and the next call emits d. *)
Theorem prefix_vs_extension (stack : nat -> Z) :
  kui_ms_update_state (kui_ms_reset_state prefix_maps) 97 0
  = (0, prefix_after_a) /\
  kui_ms_update_state prefix_after_a 100 1 = (0, prefix_after_d) /\
  map_state (kui_ms_finalize_state prefix_after_d) = KUI_MAP_FOUND /\
  std_list_get_data (map_list prefix_after_d)
                    (map_iter (kui_ms_finalize_state prefix_after_d))
  = Some map_a_X /\
  kui_findkey prefix_ctx stack = Findkey_return 0 true prefix_ctx_pass /\
  kui_getkey 2 prefix_ctx stack = Getkey_return 88 prefix_ctx_X /\
  kui_getkey 1 prefix_ctx_X stack = Getkey_return 100 prefix_ctx_d.
Proof. repeat split; vm_compute; reflexivity. Qed.

(** ** A pass that finds no map *)

Lemma ix_insert_eq (cells : list Z) i c :
  (i < length cells)%nat -> ix (<[i:=c]> cells) i = c.
Proof. intros H. unfold ix. rewrite list_lookup_insert_eq by assumption. reflexivity. Qed.

Lemma ix_insert_ne (cells : list Z) i j c :
  i <> j -> ix (<[i:=c]> cells) j = ix cells j.
Proof. intros H. unfold ix. rewrite list_lookup_insert_ne by assumption. reflexivity. Qed.

Lemma ix_seq_take (cells : list Z) : forall n,
  (n <= length cells)%nat -> ix cells <$> seq 0 n = take n cells.
Proof.
  induction cells as [|c cells IH]; intros n Hn.
  - simpl in Hn. assert (n = 0%nat) as -> by lia. reflexivity.
  - destruct n as [|n]; [reflexivity|].
    cbn [seq fmap list_fmap take]. rewrite ix_head. f_equal.
    rewrite <- seq_shift, <- list_fmap_compose.
    etransitivity; [|apply IH; simpl in Hn; lia].
    apply list_fmap_ext. intros ? ? _. reflexivity.
Qed.

Lemma was_map_found_none sets was the :
  Forall (fun kui_ms => map_state kui_ms <> KUI_MAP_FOUND) sets ->
  kui_was_map_found sets was the = (0, was, the).
Proof.
  induction 1 as [|kui_ms sets Hms _ IH]; [reflexivity|].
  cbn [kui_was_map_found]. unfold kui_ms_get_state.
  destruct (map_state kui_ms); try contradiction; exact IH.
Qed.

Section Trace.

Context {source : Type}.
Implicit Types kctx : kuictx source.

(** What the loop has stored when it leaves by a break: the cells from
    [p] on hold the keys read, in the order read, none of them 0; the
    cells before are untouched; the buffer is the one the reads left. *)
Lemma findkey_loop_trace : forall room kctx p bufmax position bufmax' kloop,
  findkey_loop room kctx (Z.of_nat p - 1) bufmax
  = Loop_break position bufmax' kloop ->
  (p + room <= length bufmax)%nat ->
  exists n,
    position = Z.of_nat (p + n) - 1 /\
    (p + n <= length bufmax)%nat /\
    length bufmax' = length bufmax /\
    (forall j, (j < p)%nat -> ix bufmax' j = ix bufmax j) /\
    ix bufmax' <$> seq p n = fst (findchar_n n kctx) /\
    Forall (fun key => key <> 0) (fst (findchar_n n kctx)) /\
    (buffer kloop = buffer (snd (findchar_n n kctx)) \/
     buffer kloop = buffer (snd (findchar_n (S n) kctx))).
Proof.
  induction room as [|room IH];
    intros kctx p bufmax position bufmax' kloop Hloop Hroom;
    cbn [findkey_loop] in Hloop;
    destruct (kui_findchar kctx) as [key k1] eqn:Hread;
    (destruct (Z.eqb_spec key 0) as [->|Hkey];
     [injection Hloop as <- <- <-; exists 0%nat;
      rewrite Nat.add_0_r; repeat split; auto; try lia;
      right; rewrite findchar_n_S, Hread; reflexivity|]);
    [discriminate|].
  destruct (kui_update_each_list (kui_map_set_list k1) key
              (Z.of_nat p - 1 + 1)) as [r sets].
  destruct (r =? -1); [discriminate|].
  replace (Z.to_nat (Z.of_nat p - 1 + 1)) with p in Hloop by lia.
  destruct (negb _).
  - injection Hloop as <- <- <-. exists 1%nat.
    split; [lia|]. split; [lia|]. split; [apply length_insert|].
    split; [intros j Hj; apply ix_insert_ne; lia|].
    rewrite findchar_n_S, Hread. cbn [fst snd findchar_n seq fmap list_fmap].
    rewrite ix_insert_eq by lia.
    split; [reflexivity|]. split; [repeat constructor; assumption|].
    left. reflexivity.
  - replace (Z.of_nat p - 1 + 1) with (Z.of_nat (S p) - 1) in Hloop by lia.
    apply IH in Hloop; [|rewrite length_insert; lia].
    destruct Hloop as (n & Hposn & Hfit & Hlen & Hold & Hnew & Hnz & Hbuf).
    rewrite length_insert in Hfit, Hlen.
    rewrite findchar_n_set_map_sets in Hnew, Hnz, Hbuf. cbn [fst snd] in *.
    exists (S n).
    split; [lia|]. split; [lia|]. split; [assumption|].
    split; [intros j Hj; rewrite Hold by lia; apply ix_insert_ne; lia|].
    rewrite !findchar_n_S, Hread. cbn [fst snd seq fmap list_fmap].
    rewrite Hold by lia. rewrite ix_insert_eq by lia. rewrite Hnew.
    split; [reflexivity|]. split; [constructor; assumption|].
    rewrite findchar_n_set_map_sets in Hbuf. cbn [snd] in Hbuf.
    rewrite findchar_n_S in Hbuf. cbn [snd] in Hbuf. exact Hbuf.
Qed.

End Trace.

(** C8. A pass whose loop has stored at least one key and after which,
    finalize done, no map set is FOUND returns the first key it read,
    bufmax[0], and leaves the keys read after it, bufmax[1..=position], at
    the head of the buffer in the order read, before what the reads had
    left there. *)
Theorem no_match_pass_returns_first_key {source : Type}
    (kctx kloop : kuictx source) (stack : nat -> Z) (position : Z)
    (bufmax : list Z) :
  findkey_loop BUFMAX_CELLS
    (set_map_sets (kui_reset_state_data (kui_map_set_list kctx)) kctx)
    (-1) (bufmax_init stack)
  = Loop_break position bufmax kloop ->
  0 <= position ->
  Forall (fun kui_ms => map_state kui_ms <> KUI_MAP_FOUND)
         (kui_update_list_state (kui_map_set_list kloop)) ->
  exists first rest kctx',
    fst (findchar_n (Z.to_nat (position + 1)) kctx) = first :: rest /\
    take (Z.to_nat (position + 1)) bufmax = first :: rest /\
    first = ix bufmax 0 /\
    kui_findkey kctx stack = Findkey_return first false kctx' /\
    buffer kctx' = rest ++ buffer kloop.
Proof.
  intros Hloop Hpos Hnone.
  apply (was_map_found_none _ false None) in Hnone.
  pose proof Hloop as Htrace. change (-1) with (Z.of_nat 0 - 1) in Htrace.
  apply findkey_loop_trace in Htrace;
    [|rewrite bufmax_init_length; cbn [Nat.add]; lia].
  destruct Htrace as (n & Hposn & Hfit & Hlen & _ & Hnew & _ & _).
  rewrite findchar_n_set_map_sets in Hnew. cbn [fst Nat.add] in *.
  destruct n as [|n]; [lia|].
  replace (Z.to_nat (position + 1)) with (S n) by lia.
  rewrite <- Hnew, <- ix_seq_take by lia.
  cbn [seq fmap list_fmap].
  exists (ix bufmax 0), (ix bufmax <$> seq 1 n). eexists.
  split; [reflexivity|]. split; [reflexivity|]. split; [reflexivity|].
  unfold kui_findkey. rewrite Hloop.
  cbn [set_map_sets kui_map_set_list buffer]. rewrite Hnone. cbn [Z.eqb].
  unfold kui_update_buffer.
  replace (position - 1 + 1) with (Z.of_nat n) by lia.
  replace position with (Z.of_nat n) by lia.
  rewrite Nat2Z.id, prepend_down_cells by lia.
  replace (S n - n)%nat with 1%nat by lia.
  cbn [Z.eqb]. split; reflexivity.
Qed.

Lemma no_match_pass_returns_first_key_witness :
  exists first rest kctx',
    fst (findchar_n (Z.to_nat (1 + 1))
           (kui_create_on [97; 98] [kui_ms_of [map_abc_Y]]))
    = first :: rest /\
    take (Z.to_nat (1 + 1)) (<[1%nat:=98]> (<[0%nat:=97]> (bufmax_init (fun _ => 0))))
    = first :: rest /\
    first = ix (<[1%nat:=98]> (<[0%nat:=97]> (bufmax_init (fun _ => 0)))) 0 /\
    kui_findkey (kui_create_on [97; 98] [kui_ms_of [map_abc_Y]])
                (fun _ => 0)
    = Findkey_return first false kctx' /\
    buffer kctx' = rest ++ [].
Proof.
  apply (no_match_pass_returns_first_key
           (kui_create_on [97; 98] [kui_ms_of [map_abc_Y]])
           {| kui_map_set_list :=
                [{| map_list := [map_abc_Y]; map_iter := Some 0%nat;
                    map_state := KUI_MAP_STILL_LOOKING; is_found := false;
                    map_iter_found := None |}];
              buffer := []; callback := list_callback; ms := 1000;
              state_data := []; fd := 0 |}
           (fun _ => 0) 1
           (<[1%nat:=98]> (<[0%nat:=97]> (bufmax_init (fun _ => 0))))).
  - vm_compute. reflexivity.
  - lia.
  - repeat constructor. discriminate.
Defined.

(** ** Deregistration *)

(** C6, what the code does.  Whatever the comparator reads behind the
    string, a map that is the first of the list is never removed: if the
    search finds it, the iterator equals [std_list_begin] and the call
    returns -2, the code meant for an absent key; and when the search
    finds nothing in a list that is not empty, the call returns -1, the
    generic error. *)
Theorem deregister_first_map_stays (m : kui_map) (rest : list kui_map)
    (seen : int_array) :
  let kui_ms := kui_ms_of (m :: rest) in
  (intcmp seen (literal_key m) = 0 ->
   kui_ms_deregister_map kui_ms seen = (-2, kui_ms)) /\
  (Forall (fun m' => intcmp seen (literal_key m') <> 0) (m :: rest) ->
   kui_ms_deregister_map kui_ms seen = (-1, kui_ms)).
Proof.
  intros kui_ms. split.
  - intros Heq. unfold kui_ms_deregister_map, std_list_find. simpl.
    rewrite Heq. reflexivity.
  - intros Hall. unfold kui_ms_deregister_map, std_list_find.
    assert (forall l i, Forall (fun m' => intcmp seen (literal_key m') <> 0) l ->
              std_list_find_from l
                (fun map => intcmp seen (literal_key map) =? 0) i
              = (i + length l)%nat) as Hfind.
    { induction l as [|x l IH]; intros i Hl; simpl; [lia|].
      inversion Hl; subst.
      destruct (Z.eqb_spec (intcmp seen (literal_key x)) 0); [contradiction|].
      rewrite IH by assumption. lia. }
    rewrite Hfind by assumption. subst kui_ms. cbn [kui_ms_of map_list].
    unfold std_list_begin. rewrite iter_eqb_Some.
    rewrite bool_decide_eq_false_2 by (simpl; lia).
    unfold std_list_remove.
    destruct (Nat.ltb_spec (0 + length (m :: rest)) (length (m :: rest)));
      [lia|reflexivity].
Qed.

Lemma deregister_first_map_stays_witness :
  kui_ms_deregister_map (kui_ms_of [map_a_X]) [97] = (-2, kui_ms_of [map_a_X]) /\
  kui_ms_deregister_map (kui_ms_of [map_a_X]) [98] = (-1, kui_ms_of [map_a_X]).
Proof.
  split.
  - apply (proj1 (deregister_first_map_stays map_a_X [] [97])). reflexivity.
  - apply (proj2 (deregister_first_map_stays map_a_X [] [98])).
    repeat constructor. vm_compute. discriminate.
Defined.

(** ** More on the compare functions *)

Lemma intcmp_unfold (a b : list Z) :
  intcmp a b =
  if (ix a 0 =? 0) && (ix b 0 =? 0) then 0
  else if ix a 0 =? 0 then -1
  else if ix b 0 =? 0 then 1
  else if ix a 0 <? ix b 0 then -1
  else if ix a 0 >? ix b 0 then 1
  else intcmp (tail a) (tail b).
Proof.
  destruct a as [|x a].
  - unfold intcmp. cbn [length intcmp_loop]. rewrite ix_nil. cbn [Z.eqb andb].
    destruct (ix b 0 =? 0); reflexivity.
  - unfold intcmp. cbn [length intcmp_loop tail].
    rewrite intcmp_loop_tail. reflexivity.
Qed.

Lemma intncmp_loop_unfold n (a b : list Z) :
  intncmp_loop (S n) a b 0 =
  if (ix a 0 =? 0) && (ix b 0 =? 0) then 0
  else if ix a 0 =? 0 then -1
  else if ix b 0 =? 0 then 1
  else if ix a 0 <? ix b 0 then -1
  else if ix a 0 >? ix b 0 then 1
  else intncmp_loop n (tail a) (tail b) 0.
Proof. cbn [intncmp_loop]. rewrite intncmp_loop_tail. reflexivity. Qed.

Lemma intcmp_sign : forall a b : list Z,
  zero_free a -> zero_free b -> intcmp b a = - intcmp a b.
Proof.
  induction a as [|x a IH]; intros b Ha Hb.
  - destruct b as [|y b]; [reflexivity|].
    apply zero_free_cons_inv in Hb as [Hy _].
    rewrite intcmp_cons_nil, intcmp_nil_cons by assumption. reflexivity.
  - apply zero_free_cons_inv in Ha as [Hx Ha].
    destruct b as [|y b].
    + rewrite intcmp_cons_nil, intcmp_nil_cons by assumption. reflexivity.
    + apply zero_free_cons_inv in Hb as [Hy Hb].
      rewrite !intcmp_cons_cons by assumption. rewrite !Z.gtb_ltb.
      destruct (Z.ltb_spec x y), (Z.ltb_spec y x); try lia; auto.
Qed.

Lemma intcmp_eq_iff : forall a b : list Z,
  zero_free a -> zero_free b -> intcmp a b = 0 <-> a = b.
Proof.
  induction a as [|x a IH]; intros b Ha Hb.
  - destruct b as [|y b]; [tauto|].
    apply zero_free_cons_inv in Hb as [Hy _].
    rewrite intcmp_nil_cons by assumption. split; [lia|discriminate].
  - apply zero_free_cons_inv in Ha as [Hx Ha].
    destruct b as [|y b].
    + rewrite intcmp_cons_nil by assumption. split; [lia|discriminate].
    + apply zero_free_cons_inv in Hb as [Hy Hb].
      rewrite intcmp_cons_cons by assumption. rewrite Z.gtb_ltb.
      destruct (Z.ltb_spec x y); [split; [lia|intros [= -> _]; lia]|].
      destruct (Z.ltb_spec y x); [split; [lia|intros [= -> _]; lia]|].
      assert (x = y) as -> by lia. rewrite IH by assumption.
      split; [intros ->; reflexivity|intros [= ->]; reflexivity].
Qed.

Lemma intcmp_range (a : list Z) : forall b : list Z,
  intcmp a b = -1 \/ intcmp a b = 0 \/ intcmp a b = 1.
Proof.
  induction a as [|x a IH]; intros b; rewrite intcmp_unfold.
  - rewrite ix_nil. cbn [Z.eqb andb]. destruct (ix b 0 =? 0); auto.
  - repeat case_match; auto.
Qed.

(** X1. On key sequences (no zero cell) [intcmp] is a total order with
    results -1, 0 and 1: swapping the arguments negates the result, the
    result is 0 exactly for equal sequences, and the order is transitive. *)
Theorem intcmp_total_order (a b c : list Z) :
  zero_free a -> zero_free b -> zero_free c ->
  (intcmp a b = -1 \/ intcmp a b = 0 \/ intcmp a b = 1) /\
  intcmp b a = - intcmp a b /\
  (intcmp a b = 0 <-> a = b) /\
  (intcmp a b <= 0 -> intcmp b c <= 0 -> intcmp a c <= 0).
Proof.
  intros Ha Hb Hc. split; [apply intcmp_range|].
  split; [apply intcmp_sign; assumption|].
  split; [apply intcmp_eq_iff; assumption|].
  apply intcmp_le_trans; assumption.
Qed.

Lemma intcmp_total_order_witness :
  (intcmp [97] [97; 98] = -1 \/ intcmp [97] [97; 98] = 0
   \/ intcmp [97] [97; 98] = 1) /\
  intcmp [97; 98] [97] = - intcmp [97] [97; 98] /\
  (intcmp [97] [97; 98] = 0 <-> [97] = [97; 98]) /\
  (intcmp [97] [97; 98] <= 0 -> intcmp [97; 98] [98] <= 0 ->
   intcmp [97] [98] <= 0).
Proof.
  apply (intcmp_total_order [97] [97; 98] [98]);
    repeat constructor; discriminate.
Defined.

(** A prefix orders before each of its proper extensions. *)
Lemma intcmp_prefix : forall (a : list Z) c b,
  zero_free a -> c <> 0 -> intcmp a (a ++ c :: b) = -1.
Proof.
  induction a as [|x a IH]; intros c b Ha Hc.
  - apply intcmp_nil_cons. assumption.
  - apply zero_free_cons_inv in Ha as [Hx Ha]. cbn [app].
    rewrite intcmp_cons_cons by assumption.
    rewrite Z.gtb_ltb, Z.ltb_irrefl. apply IH; assumption.
Qed.

(** X2. [intncmp] over [n] positions is [intcmp] on what the first [n]
    cells of the two key sequences hold; with [n] beyond the shorter of
    the two it is [intcmp] itself. *)
Theorem intncmp_is_intcmp_on_prefixes (n : nat) : forall a b : list Z,
  zero_free a -> zero_free b ->
  intncmp a b (Z.of_nat n) = intcmp (take n a) (take n b) /\
  ((length a < n)%nat \/ (length b < n)%nat ->
   intncmp a b (Z.of_nat n) = intcmp a b).
Proof.
  unfold intncmp. rewrite Nat2Z.id.
  induction n as [|n IH]; intros a b Ha Hb.
  - split; [reflexivity|]. intros [H|H]; lia.
  - destruct a as [|x a], b as [|y b].
    + split; reflexivity.
    + apply zero_free_cons_inv in Hb as [Hy Hb].
      rewrite intncmp_loop_nil_cons by assumption. cbn [take].
      rewrite !intcmp_nil_cons by assumption. split; reflexivity.
    + apply zero_free_cons_inv in Ha as [Hx Ha].
      rewrite intncmp_loop_cons_nil by assumption. cbn [take].
      rewrite !intcmp_cons_nil by assumption. split; reflexivity.
    + apply zero_free_cons_inv in Ha as [Hx Ha].
      apply zero_free_cons_inv in Hb as [Hy Hb].
      rewrite intncmp_loop_cons_cons by assumption. cbn [take].
      rewrite !intcmp_cons_cons by assumption.
      destruct (IH a b Ha Hb) as [Htake Hall].
      destruct (x <? y); [split; reflexivity|].
      destruct (x >? y); [split; reflexivity|].
      split; [exact Htake|]. intros Hlen. apply Hall. simpl in Hlen. lia.
Qed.

Lemma intncmp_is_intcmp_on_prefixes_witness :
  intncmp [97; 98; 99] [97; 98; 100] (Z.of_nat 2)
  = intcmp (take 2 [97; 98; 99]) (take 2 [97; 98; 100]) /\
  ((length [97; 98; 99] < 2)%nat \/ (length [97; 98; 100] < 2)%nat ->
   intncmp [97; 98; 99] [97; 98; 100] (Z.of_nat 2)
   = intcmp [97; 98; 99] [97; 98; 100]).
Proof.
  apply (intncmp_is_intcmp_on_prefixes 2 [97; 98; 99] [97; 98; 100]);
    repeat constructor; discriminate.
Defined.

Lemma intlen_from_terminated (a : list Z) : forall x n,
  zero_free a -> intlen_from (a ++ 0 :: x) n = n + Z.of_nat (length a).
Proof.
  induction a as [|c a IH]; intros x n Ha.
  - cbn. lia.
  - apply zero_free_cons_inv in Ha as [Hc Ha]. cbn [app intlen_from].
    destruct (Z.eqb_spec c 0); [contradiction|].
    rewrite IH by assumption. cbn [length]. lia.
Qed.

Lemma intcmp_terminated : forall (a b x y : list Z),
  zero_free a -> zero_free b ->
  intcmp (a ++ 0 :: x) (b ++ 0 :: y) = intcmp a b.
Proof.
  induction a as [|c a IH]; intros b x y Ha Hb.
  - destruct b as [|d b].
    + rewrite intcmp_unfold. reflexivity.
    + apply zero_free_cons_inv in Hb as [Hd Hb].
      rewrite intcmp_unfold, intcmp_nil_cons by assumption.
      cbn [app]. rewrite !ix_head. cbn [Z.eqb andb].
      destruct (Z.eqb_spec d 0); [contradiction|reflexivity].
  - apply zero_free_cons_inv in Ha as [Hc Ha].
    destruct b as [|d b].
    + rewrite intcmp_unfold, intcmp_cons_nil by assumption.
      cbn [app]. rewrite !ix_head.
      destruct (Z.eqb_spec c 0); [contradiction|reflexivity].
    + apply zero_free_cons_inv in Hb as [Hd Hb].
      cbn [app]. rewrite !intcmp_cons_cons by assumption.
      rewrite IH by assumption. reflexivity.
Qed.

Lemma intncmp_loop_terminated n : forall (a b x y : list Z),
  zero_free a -> zero_free b ->
  intncmp_loop n (a ++ 0 :: x) (b ++ 0 :: y) 0 = intncmp_loop n a b 0.
Proof.
  induction n as [|n IH]; intros a b x y Ha Hb; [reflexivity|].
  destruct a as [|c a], b as [|d b].
  - rewrite intncmp_loop_unfold. reflexivity.
  - apply zero_free_cons_inv in Hb as [Hd Hb].
    rewrite intncmp_loop_unfold, intncmp_loop_nil_cons by assumption.
    cbn [app]. rewrite !ix_head. cbn [Z.eqb andb].
    destruct (Z.eqb_spec d 0); [contradiction|reflexivity].
  - apply zero_free_cons_inv in Ha as [Hc Ha].
    rewrite intncmp_loop_unfold, intncmp_loop_cons_nil by assumption.
    cbn [app]. rewrite !ix_head.
    destruct (Z.eqb_spec c 0); [contradiction|reflexivity].
  - apply zero_free_cons_inv in Ha as [Hc Ha].
    apply zero_free_cons_inv in Hb as [Hd Hb].
    cbn [app]. rewrite !intncmp_loop_cons_cons by assumption.
    rewrite IH by assumption. reflexivity.
Qed.

(** X3. The three array functions stop at the first zero cell: whatever
    the arrays hold behind their terminators, [intlen] is the number of
    cells before the terminator and [intcmp] and [intncmp] compare those
    cells only. *)
Theorem cells_behind_terminator_are_ignored (a b x y : list Z) (n : Z) :
  zero_free a -> zero_free b ->
  intlen (a ++ 0 :: x) = Z.of_nat (length a) /\
  intcmp (a ++ 0 :: x) (b ++ 0 :: y) = intcmp a b /\
  intncmp (a ++ 0 :: x) (b ++ 0 :: y) n = intncmp a b n.
Proof.
  intros Ha Hb. split; [|split].
  - unfold intlen. rewrite intlen_from_terminated by assumption. lia.
  - apply intcmp_terminated; assumption.
  - apply intncmp_loop_terminated; assumption.
Qed.

Lemma cells_behind_terminator_are_ignored_witness :
  intlen ([97; 98] ++ 0 :: [5; 6]) = Z.of_nat (length [97; 98]) /\
  intcmp ([97; 98] ++ 0 :: [5; 6]) ([97] ++ 0 :: [7]) = intcmp [97; 98] [97] /\
  intncmp ([97; 98] ++ 0 :: [5; 6]) ([97] ++ 0 :: [7]) 2
  = intncmp [97; 98] [97] 2.
Proof.
  apply (cells_behind_terminator_are_ignored [97; 98] [97] [5; 6] [7] 2);
    repeat constructor; discriminate.
Defined.

(** ** What an update call can and cannot do *)

Lemma update_search_range rest A key position : forall i st cur,
  let j := fst (fst (update_search rest A key position i st cur)) in
  (i <= j <= i + length rest)%nat.
Proof.
  induction rest as [|m rest IH]; intros i st cur; cbn [update_search].
  - simpl. lia.
  - repeat case_match; cbn [fst length]; try lia.
    specialize (IH (S i) st (literal_key m)). simpl in IH. lia.
Qed.

Lemma update_state_returns (kui_ms : kui_map_set) (key position : Z) :
  (fst (kui_ms_update_state kui_ms key position) = -1 \/
   fst (kui_ms_update_state kui_ms key position) = 0) /\
  (fst (kui_ms_update_state kui_ms key position) = -1 <->
   position < 0 \/ key < 0 \/ map_state kui_ms <> KUI_MAP_STILL_LOOKING \/
   std_list_get_data (map_list kui_ms) (map_iter kui_ms) = None) /\
  (fst (kui_ms_update_state kui_ms key position) = -1 ->
   snd (kui_ms_update_state kui_ms key position) = kui_ms).
Proof.
  unfold kui_ms_update_state.
  destruct (Z.ltb_spec position 0) as [Hp|Hp];
    [cbn [fst snd]; repeat split; auto|].
  destruct (Z.ltb_spec key 0) as [Hk|Hk];
    [cbn [fst snd]; repeat split; auto|].
  destruct (map_state kui_ms) eqn:Hst; cbn [kui_map_state_eqb negb];
    try (cbn [fst snd]; repeat split; auto;
         intros _; right; right; left; discriminate).
  destruct (map_iter kui_ms) as [start|] eqn:Hit; cbn [std_list_get_data];
    [|cbn [fst snd]; repeat split; auto].
  destruct (map_list kui_ms !! start) as [anchor|] eqn:Hanchor;
    [|cbn [fst snd]; repeat split; auto].
  apply lookup_lt_Some in Hanchor as Hlt.
  pose proof (update_search_range (drop start (map_list kui_ms))
                (literal_key anchor) key position start
                KUI_MAP_STILL_LOOKING (literal_key anchor)) as Hrange.
  rewrite length_drop in Hrange.
  destruct (update_search _ _ _ _ _ _ _) as [[j st] cur]. simpl in Hrange.
  assert (forall (r : Z) (after : kui_map_set),
            r = 0 ->
            (r = -1 \/ r = 0) /\
            (r = -1 <->
             position < 0 \/ key < 0 \/
             KUI_MAP_STILL_LOOKING <> KUI_MAP_STILL_LOOKING \/
             Some anchor = None) /\
            (r = -1 -> after = kui_ms)) as Hzero.
  { intros r after ->. split; [auto|]. split; [|discriminate].
    split; [discriminate|].
    intros [?|[?|[?|?]]]; try lia; try congruence. }
  ms_simpl.
  destruct (kui_map_state_eqb st KUI_MAP_NOT_FOUND); [apply Hzero; reflexivity|].
  rewrite iter_eqb_Some. case_bool_decide; [apply Hzero; reflexivity|].
  destruct (negb _); [apply Hzero; reflexivity|].
  rewrite iter_eqb_Some. case_bool_decide; [apply Hzero; reflexivity|].
  destruct (map_list kui_ms !! S j) as [N|] eqn:HN;
    [|apply lookup_ge_None in HN; lia].
  destruct (negb _); apply Hzero; reflexivity.
Qed.

(** X4. An update call returns -1 exactly when it is made out of order:
    with a negative position or key, on a map set that is not
    STILL_LOOKING, or with the cursor on no map; it then leaves the map
    set as it was.  Every other call returns 0. *)
Theorem update_state_fails_exactly (kui_ms : kui_map_set) (key position : Z) :
  (fst (kui_ms_update_state kui_ms key position) = -1 \/
   fst (kui_ms_update_state kui_ms key position) = 0) /\
  (fst (kui_ms_update_state kui_ms key position) = -1 <->
   position < 0 \/ key < 0 \/ map_state kui_ms <> KUI_MAP_STILL_LOOKING \/
   std_list_get_data (map_list kui_ms) (map_iter kui_ms) = None) /\
  (fst (kui_ms_update_state kui_ms key position) = -1 ->
   snd (kui_ms_update_state kui_ms key position) = kui_ms).
Proof. exact (update_state_returns kui_ms key position). Qed.

(** X5. Whatever it returns, an update call leaves the list of maps
    alone, never clears the latch, and never moves the cursor backward or
    behind the end of the list. *)
Theorem update_state_keeps (kui_ms : kui_map_set) (key position : Z) :
  let after := snd (kui_ms_update_state kui_ms key position) in
  map_list after = map_list kui_ms /\
  (is_found kui_ms = true -> is_found after = true) /\
  (forall i, map_iter kui_ms = Some i ->
     exists j, map_iter after = Some j /\ (i <= j)%nat /\
               (j <= Nat.max i (length (map_list kui_ms)))%nat).
Proof.
  unfold kui_ms_update_state.
  assert (map_list kui_ms = map_list kui_ms /\
          (is_found kui_ms = true -> is_found kui_ms = true) /\
          (forall i, map_iter kui_ms = Some i ->
             exists j, map_iter kui_ms = Some j /\ (i <= j)%nat /\
                       (j <= Nat.max i (length (map_list kui_ms)))%nat))
    as Hsame.
  { split; [reflexivity|]. split; [auto|]. intros i Hi. exists i.
    split; [assumption|]. lia. }
  destruct (position <? 0); [exact Hsame|].
  destruct (key <? 0); [exact Hsame|].
  destruct (negb _); [exact Hsame|].
  destruct (map_iter kui_ms) as [start|] eqn:Hit;
    [|cbn [snd]; rewrite Hit; exact Hsame].
  cbn [std_list_get_data].
  destruct (map_list kui_ms !! start) as [anchor|] eqn:Hanchor;
    [|cbn [snd]; rewrite Hit; exact Hsame].
  apply lookup_lt_Some in Hanchor as Hlt.
  pose proof (update_search_range (drop start (map_list kui_ms))
                (literal_key anchor) key position start
                (map_state kui_ms) (literal_key anchor)) as Hrange.
  rewrite length_drop in Hrange.
  destruct (update_search _ _ _ _ _ _ _) as [[j st] cur]. simpl in Hrange.
  clear Hsame. ms_simpl.
  assert (forall after,
            map_list after = map_list kui_ms ->
            (is_found kui_ms = true -> is_found after = true) ->
            map_iter after = Some j ->
            map_list after = map_list kui_ms /\
            (is_found kui_ms = true -> is_found after = true) /\
            (forall i, Some start = Some i ->
               exists j', map_iter after = Some j' /\ (i <= j')%nat /\
                          (j' <= Nat.max i (length (map_list kui_ms)))%nat))
    as Hgo.
  { intros after Hl Hf Hi. split; [assumption|]. split; [assumption|].
    intros i [= <-]. exists j. split; [assumption|]. lia. }
  repeat case_match; cbn [snd]; apply Hgo; cbn; auto.
Qed.

(** ** What an update finds, in terms of the keys registered *)

(** The outcome of an update call as the walk and the latch rule give it
    (a lemma for the statements below). *)
Lemma update_state_walk_result
    (kui_ms : kui_map_set) (key : Z) (position cursor : nat) (anchor : kui_map) :
  sorted_by_literal_key (map_list kui_ms) ->
  proper_keys (map_list kui_ms) ->
  map_state kui_ms = KUI_MAP_STILL_LOOKING ->
  map_iter kui_ms = Some cursor ->
  map_list kui_ms !! cursor = Some anchor ->
  0 <= key ->
  exists r after,
    kui_ms_update_state kui_ms key (Z.of_nat position) = (0, after) /\
    spec_walk (map_list kui_ms) (literal_key anchor) key position cursor r /\
    spec_update_result kui_ms position r after.
Proof.
  intros Hs Hp Hst Hit Hanchor Hkey.
  pose proof (proper_keys_lookup _ _ _ Hp Hanchor) as HA.
  apply lookup_lt_Some in Hanchor as Hlt.
  destruct (update_search_spec (map_list kui_ms) (literal_key anchor) key
              position HA Hp _ cursor (literal_key anchor) eq_refl ltac:(lia))
    as (j & cur & Hcases).
  unfold kui_ms_update_state.
  destruct (Z.ltb_spec (Z.of_nat position) 0); [lia|].
  destruct (Z.ltb_spec key 0); [lia|].
  rewrite Hst, Hit. cbn [kui_map_state_eqb negb std_list_get_data].
  rewrite Hanchor.
  destruct Hcases as [[Heq Hw]|[(Heq & -> & Hw)|(Heq & (C & HC & ->) & Hw)]];
    rewrite Heq; ms_simpl.
  - exists Walk_not_found. eexists. split; [reflexivity|]. split; [assumption|].
    repeat split.
  - rewrite iter_eqb_Some, bool_decide_eq_true_2 by reflexivity.
    exists Walk_not_found. eexists. split; [reflexivity|]. split; [assumption|].
    repeat split.
  - pose proof (proper_keys_lookup _ _ _ Hp HC) as HCz.
    apply lookup_lt_Some in HC as HjL.
    rewrite iter_eqb_Some, bool_decide_eq_false_2 by lia.
    rewrite (intlen_zero_free _ HCz).
    exists (Walk_survivor j).
    destruct (Z.eqb_spec (Z.of_nat (length (literal_key C)))
                         (Z.of_nat position + 1)) as [Hlen|Hlen];
      cbn [negb].
    + assert (length (literal_key C) = S position) as Hlen' by lia.
      pose proof (no_longer_candidate_next _ j (S position) C Hs Hp HC) as Hnext.
      ms_simpl.
      rewrite iter_eqb_Some.
      destruct (decide (S j = length (map_list kui_ms))) as [Hend|Hmid].
      * rewrite bool_decide_eq_true_2 by assumption.
        eexists. split; [reflexivity|]. split; [assumption|].
        split; [reflexivity|]. split; [reflexivity|].
        exists C. split; [assumption|]. cbn.
        split; [auto|]. split; [intros; contradiction|].
        split; [auto|]. intros Hnot. exfalso. apply Hnot. split; [assumption|].
        apply Hnext. intros N HN. apply lookup_lt_Some in HN. lia.
      * rewrite bool_decide_eq_false_2 by assumption.
        destruct (map_list kui_ms !! S j) as [N|] eqn:HN;
          [|apply lookup_ge_None in HN; lia].
        pose proof (proper_keys_lookup _ _ _ Hp HN) as HNz.
        pose proof (intncmp_shares (S position) (literal_key N) (literal_key C)
                      HNz HCz) as Hsh.
        replace (Z.of_nat position + 1) with (Z.of_nat (S position)) by lia.
        destruct (Z.eqb_spec (intncmp (literal_key N) (literal_key C)
                                (Z.of_nat (S position))) 0) as [Hz|Hnz];
          cbn [negb]; eexists; (split; [reflexivity|]);
          (split; [assumption|]); (split; [reflexivity|]);
          (split; [reflexivity|]); exists C; (split; [assumption|]); cbn;
          (split; [auto|]); (split; [intros; contradiction|]).
        -- split; [|reflexivity].
           intros [_ Hno]. exfalso. apply (Hno (S j) N); [lia|assumption|].
           apply shares_prefix_sym, Hsh, Hz.
        -- split; [reflexivity|].
           intros Hnot. exfalso. apply Hnot. split; [assumption|].
           apply Hnext. intros N' HN' Hshare.
           assert (N' = N) as -> by congruence.
           apply Hnz, Hsh, shares_prefix_sym, Hshare.
    + eexists. split; [reflexivity|]. split; [assumption|].
      split; [reflexivity|]. split; [reflexivity|].
      exists C. split; [assumption|]. cbn.
      split; [intros; lia|]. split; [auto|].
      split; [intros [? _]; lia|]. reflexivity.
Qed.

Lemma prefix_take_length (P k : list Z) :
  P `prefix_of` k <-> take (length P) k = P.
Proof.
  split.
  - intros [k' ->]. apply take_app_length.
  - intros H. rewrite <- H. apply prefix_take.
Qed.

Lemma shares_prefix_of (P A C : list Z) :
  P `prefix_of` A ->
  shares_prefix (length P) A C <-> P `prefix_of` C.
Proof.
  intros HA. apply prefix_take_length in HA. unfold shares_prefix.
  rewrite prefix_take_length, HA. split; congruence.
Qed.

Lemma prefix_snoc_ix (P C : list Z) t :
  t <> 0 ->
  (P ++ [t]) `prefix_of` C <-> P `prefix_of` C /\ ix C (length P) = t.
Proof.
  intros Ht. split.
  - intros [k ->]. split.
    + exists ([t] ++ k). rewrite <- app_assoc. reflexivity.
    + unfold ix. rewrite <- app_assoc, lookup_app_r by lia.
      rewrite Nat.sub_diag. reflexivity.
  - intros [HP Hix]. apply prefix_take_length in HP.
    apply prefix_take_length. rewrite length_app. cbn [length].
    rewrite Nat.add_1_r.
    assert (C !! length P = Some t) as Hlook.
    { unfold ix in Hix. destruct (C !! length P); simpl in Hix; congruence. }
    rewrite (take_S_r _ _ _ Hlook), HP. reflexivity.
Qed.

Lemma intcmp_prefix_le (P K : list Z) :
  zero_free K -> P `prefix_of` K -> intcmp P K <= 0.
Proof.
  intros HK [k ->]. apply Forall_app in HK as [HP Hk].
  destruct k as [|c k].
  - rewrite app_nil_r.
    assert (intcmp P P = 0) as -> by (apply intcmp_eq_iff; auto). lia.
  - apply zero_free_cons_inv in Hk as [Hc _].
    rewrite intcmp_prefix by assumption. lia.
Qed.

Lemma intcmp_antisym (a b : list Z) :
  zero_free a -> zero_free b -> intcmp a b <= 0 -> intcmp b a <= 0 -> a = b.
Proof.
  intros Ha Hb Hab Hba. apply intcmp_eq_iff; [assumption..|].
  rewrite (intcmp_sign a b) in Hba by assumption. lia.
Qed.

(** A key that has a smaller token where another has a greater one, after
    a common prefix, orders strictly before it. *)
Lemma intcmp_greater_at : forall (n : nat) (C D : list Z),
  zero_free C -> zero_free D ->
  take n C = take n D -> (n <= length D)%nat ->
  0 < ix D n -> ix D n < ix C n -> intcmp C D = 1.
Proof.
  induction n as [|n IH]; intros C D HC HD Htake Hlen Hpos Hlt.
  - destruct D as [|d D]; [rewrite ix_nil in Hpos; lia|].
    destruct C as [|c C]; [rewrite ix_nil in Hlt; rewrite ix_head in *; lia|].
    rewrite !ix_head in *.
    apply zero_free_cons_inv in HC as [Hc _].
    apply zero_free_cons_inv in HD as [Hd _].
    rewrite intcmp_cons_cons by assumption. rewrite Z.gtb_ltb.
    destruct (Z.ltb_spec c d); [lia|].
    destruct (Z.ltb_spec d c); [reflexivity|lia].
  - destruct D as [|d D]; [simpl in Hlen; lia|].
    destruct C as [|c C]; [discriminate|].
    cbn [take] in Htake. injection Htake as -> Htake.
    apply zero_free_cons_inv in HC as [Hc HC].
    apply zero_free_cons_inv in HD as [_ HD].
    rewrite intcmp_cons_cons by assumption.
    rewrite Z.gtb_ltb, Z.ltb_irrefl.
    rewrite !ix_tail in *. cbn [tail] in *.
    apply IH; auto. simpl in Hlen. lia.
Qed.

Section Extensions.

Variable maps : list kui_map.
Hypothesis maps_sorted : sorted_by_literal_key maps.
Hypothesis maps_proper : proper_keys maps.

(** How the walk ends, in terms of the keys: it gives up only when no key
    begins with the tokens matched so far and the new one, and it stops on
    the first key that does. *)
Lemma spec_walk_extension (j : nat) (Amap : kui_map) (P : list Z) (t : Z) :
  maps !! j = Some Amap ->
  P `prefix_of` literal_key Amap ->
  0 < t ->
  forall c r,
    spec_walk maps (literal_key Amap) t (length P) c r ->
    (j <= c)%nat ->
    no_key_before maps c (P ++ [t]) ->
    match r with
    | Walk_not_found => no_key_before maps (length maps) (P ++ [t])
    | Walk_survivor c' =>
        exists C, maps !! c' = Some C /\
                  (P ++ [t]) `prefix_of` literal_key C /\
                  no_key_before maps c' (P ++ [t])
    end.
Proof.
  intros HA HPA Ht c r Hwalk.
  assert (t <> 0) as Htnz by lia.
  induction Hwalk as [c Hnone|c C HC Hns|c C HC Hsh Hgt|c C HC Hsh Heq
                     |c C r HC Hsh Hlt Hwalk IH]; intros Hjc Hbefore.
  - intros i D Hi HD Hpre.
    destruct (decide (i < c)%nat) as [Hic|Hic]; [exact (Hbefore i D Hic HD Hpre)|].
    apply lookup_lt_Some in HD as Hlt. apply lookup_ge_None in Hnone. lia.
  - intros i D Hi HD Hpre.
    destruct (decide (i < c)%nat) as [Hic|Hic]; [exact (Hbefore i D Hic HD Hpre)|].
    apply prefix_app_l in Hpre as HPD.
    apply (shares_prefix_of P _ _ HPA) in HPD.
    destruct (decide (i = c)) as [->|Hne]; [apply Hns; congruence|].
    destruct (decide (c = j)) as [->|Hcj].
    { apply Hns. assert (C = Amap) as -> by congruence. reflexivity. }
    apply Hns.
    apply shares_prefix_between with (literal_key D);
      eauto using proper_keys_lookup.
    + apply (sorted_lookup_le maps maps_sorted maps_proper j c); auto. lia.
    + apply (sorted_lookup_le maps maps_sorted maps_proper c i); auto. lia.
  - apply (shares_prefix_of P _ _ HPA) in Hsh.
    intros i D Hi HD Hpre.
    destruct (decide (i < c)%nat) as [Hic|Hic]; [exact (Hbefore i D Hic HD Hpre)|].
    apply (prefix_snoc_ix _ _ _ Htnz) in Hpre as [HPD Hix].
    destruct (decide (i = c)) as [->|Hne].
    { assert (D = C) as -> by congruence. lia. }
    assert (intcmp (literal_key C) (literal_key D) <= 0) as Hle.
    { apply (sorted_lookup_le maps maps_sorted maps_proper c i); auto. lia. }
    rewrite (intcmp_greater_at (length P)) in Hle;
      eauto using proper_keys_lookup; try lia.
    + apply prefix_take_length in Hsh, HPD. congruence.
    + apply prefix_length in HPD. lia.
  - apply (shares_prefix_of P _ _ HPA) in Hsh.
    exists C. split; [assumption|]. split; [|assumption].
    apply prefix_snoc_ix; auto.
  - apply (shares_prefix_of P _ _ HPA) in Hsh.
    apply IH; [lia|].
    intros i D Hi HD Hpre.
    destruct (decide (i < c)%nat) as [Hic|Hic]; [exact (Hbefore i D Hic HD Hpre)|].
    assert (i = c) as -> by lia. assert (D = C) as -> by congruence.
    apply (prefix_snoc_ix _ _ _ Htnz) in Hpre as [_ Hix]. lia.
Qed.

(** In a sorted list the first key that begins with [Q] is [Q] itself when
    [Q] is a key at all. *)
Lemma first_extension_is_key (Q : list Z) (c i : nat) (C D : kui_map) :
  maps !! c = Some C -> Q `prefix_of` literal_key C ->
  no_key_before maps c Q ->
  maps !! i = Some D -> literal_key D = Q ->
  literal_key C = Q.
Proof.
  intros HC HQC Hleast HD HDQ.
  destruct (decide (i = c)) as [->|Hne]; [congruence|].
  destruct (decide (i < c)%nat) as [Hlt|Hge].
  { exfalso. apply (Hleast i D Hlt HD). rewrite HDQ. reflexivity. }
  pose proof (proper_keys_lookup _ _ _ maps_proper HC) as HzC.
  pose proof (proper_keys_lookup _ _ _ maps_proper HD) as HzD.
  apply intcmp_antisym; [assumption|congruence| |].
  - rewrite <- HDQ.
    apply (sorted_lookup_le maps maps_sorted maps_proper c i); auto. lia.
  - apply intcmp_prefix_le; assumption.
Qed.

End Extensions.

Section Step.

Variable kui_ms : kui_map_set.
Hypothesis maps_sorted : sorted_by_literal_key (map_list kui_ms).
Hypothesis maps_proper : proper_keys (map_list kui_ms).

(** One update call of a scan, in terms of the keys.  [P] is what the
    scan has matched, [t] the new token. *)
Lemma update_step_exact (P : list Z) (t : Z) (j : nat) (Amap : kui_map) :
  map_state kui_ms = KUI_MAP_STILL_LOOKING ->
  map_iter kui_ms = Some j ->
  map_list kui_ms !! j = Some Amap ->
  P `prefix_of` literal_key Amap ->
  no_key_before (map_list kui_ms) j (P ++ [t]) ->
  0 < t ->
  exists after,
    kui_ms_update_state kui_ms t (Z.of_nat (length P)) = (0, after) /\
    map_list after = map_list kui_ms /\
    ((no_key_before (map_list kui_ms) (length (map_list kui_ms)) (P ++ [t]) /\
      map_state after = KUI_MAP_NOT_FOUND /\
      is_found after = is_found kui_ms /\
      map_iter_found after = map_iter_found kui_ms) \/
     (exists j' C,
        map_iter after = Some j' /\
        map_list kui_ms !! j' = Some C /\
        (P ++ [t]) `prefix_of` literal_key C /\
        no_key_before (map_list kui_ms) j' (P ++ [t]) /\
        ((literal_key C = P ++ [t] /\
          is_found after = true /\ map_iter_found after = Some j' /\
          ((map_state after = KUI_MAP_FOUND /\
            forall i D, i <> j' -> map_list kui_ms !! i = Some D ->
                        ~ (P ++ [t]) `prefix_of` literal_key D) \/
           (map_state after = KUI_MAP_STILL_LOOKING /\
            exists i D, i <> j' /\ map_list kui_ms !! i = Some D /\
                        (P ++ [t]) `prefix_of` literal_key D))) \/
         (literal_key C <> P ++ [t] /\
          (forall i D, map_list kui_ms !! i = Some D ->
                       literal_key D <> P ++ [t]) /\
          is_found after = is_found kui_ms /\
          map_iter_found after = map_iter_found kui_ms /\
          map_state after = KUI_MAP_STILL_LOOKING)))).
Proof.
  intros Hst Hit HA HPA Hbefore Ht.
  destruct (update_state_walk_result kui_ms t (length P) j Amap
              maps_sorted maps_proper Hst Hit HA ltac:(lia))
    as (r & after & Hrun & Hwalk & Hlist & Hres).
  exists after. split; [exact Hrun|]. split; [exact Hlist|].
  pose proof (spec_walk_extension (map_list kui_ms) maps_sorted maps_proper
                j Amap P t HA HPA Ht j r Hwalk ltac:(lia) Hbefore) as Hext.
  destruct r as [|j'].
  - left. destruct Hres as (Hnf & Hf & Hfi). auto.
  - right. destruct Hext as (C & HC & HPC & Hleast).
    destruct Hres as (Hiter & C' & HC' & Hlatch & Hkeep & Hfound & Hstill).
    assert (C' = C) as -> by congruence.
    exists j', C. split; [assumption|]. split; [assumption|].
    split; [assumption|]. split; [assumption|].
    pose proof (proper_keys_lookup _ _ _ maps_proper HC) as HzC.
    assert (length (literal_key C) = S (length P) <-> literal_key C = P ++ [t])
      as Hlen.
    { split.
      - intros Hl. symmetry. apply prefix_length_eq; [assumption|].
        rewrite length_app. simpl. lia.
      - intros ->. rewrite length_app. simpl. lia. }
    assert (forall D : list Z,
              shares_prefix (S (length P)) (literal_key C) D <->
              (P ++ [t]) `prefix_of` D) as Hshare.
    { intros D. replace (S (length P)) with (length (P ++ [t]))
        by (rewrite length_app; simpl; lia).
      apply shares_prefix_of. assumption. }
    destruct (decide (literal_key C = P ++ [t])) as [Hkey|Hkey].
    + left. split; [assumption|].
      destruct (Hlatch (proj2 Hlen Hkey)) as [Hf Hfi].
      split; [assumption|]. split; [assumption|].
      pose proof (no_longer_candidate_next _ j' (S (length P)) C maps_sorted
                    maps_proper HC) as Hnext.
      destruct (map_list kui_ms !! S j') as [N|] eqn:HN.
      * destruct (decide (take (S (length P)) (literal_key C)
                          = take (S (length P)) (literal_key N))) as [Hs|Hs].
        -- right. split.
           ++ apply Hstill. intros [_ Hno]. apply (Hno (S j') N); auto.
           ++ exists (S j'), N. split; [lia|]. split; [assumption|].
              apply Hshare. exact Hs.
        -- left. assert (no_longer_candidate (map_list kui_ms) j'
                           (S (length P)) (literal_key C)) as Hno.
           { apply Hnext. intros N' [= <-]. exact Hs. }
           split; [apply Hfound; split; [apply Hlen; assumption|exact Hno]|].
           intros i D Hi HD Hpre.
           destruct (decide (i < j')%nat) as [Hlt|Hge];
             [exact (Hleast i D Hlt HD Hpre)|].
           apply (Hno i D); [lia|assumption|]. apply Hshare. exact Hpre.
      * left. assert (no_longer_candidate (map_list kui_ms) j'
                        (S (length P)) (literal_key C)) as Hno.
        { apply Hnext. intros N' [=]. }
        split; [apply Hfound; split; [apply Hlen; assumption|exact Hno]|].
        intros i D Hi HD Hpre.
        destruct (decide (i < j')%nat) as [Hlt|Hge];
          [exact (Hleast i D Hlt HD Hpre)|].
        apply (Hno i D); [lia|assumption|]. apply Hshare. exact Hpre.
    + right. split; [assumption|].
      split.
      { intros i D HD HDQ. apply Hkey.
        exact (first_extension_is_key (map_list kui_ms) maps_sorted maps_proper
                 (P ++ [t]) j' i C D HC HPC Hleast HD HDQ). }
      assert (length (literal_key C) <> S (length P)) as Hl by tauto.
      destruct (Hkeep Hl) as [Hf Hfi].
      split; [assumption|]. split; [assumption|].
      apply Hstill. tauto.
Qed.

End Step.

(** X6. One update call of a scan over a sorted list, in terms of the
    keys registered.  The set is still looking, its cursor on the first
    map whose key begins with the tokens [P] matched so far.  Then the
    call with the next token [t] returns 0 and: it ends NOT_FOUND exactly
    when no key begins with [P ++ [t]]; otherwise the cursor stands on the
    first map whose key does; the latch is set, on the map whose key is
    [P ++ [t]], exactly when that is a key, and is left alone otherwise;
    and the state is FOUND exactly when [P ++ [t]] is a key and no other
    key begins with it. *)
Theorem update_state_first_extension (kui_ms : kui_map_set) (P : list Z)
    (t : Z) (j : nat) (Amap : kui_map) :
  sorted_by_literal_key (map_list kui_ms) ->
  proper_keys (map_list kui_ms) ->
  map_state kui_ms = KUI_MAP_STILL_LOOKING ->
  map_iter kui_ms = Some j ->
  map_list kui_ms !! j = Some Amap ->
  P `prefix_of` literal_key Amap ->
  no_key_before (map_list kui_ms) j P ->
  0 < t ->
  exists after,
    kui_ms_update_state kui_ms t (Z.of_nat (length P)) = (0, after) /\
    (map_state after = KUI_MAP_NOT_FOUND <->
     forall i D, map_list kui_ms !! i = Some D ->
                 ~ (P ++ [t]) `prefix_of` literal_key D) /\
    (map_state after <> KUI_MAP_NOT_FOUND ->
     exists j' C, map_iter after = Some j' /\
                  map_list kui_ms !! j' = Some C /\
                  (P ++ [t]) `prefix_of` literal_key C /\
                  no_key_before (map_list kui_ms) j' (P ++ [t])) /\
    (map_state after = KUI_MAP_FOUND <->
     exists f F, map_list kui_ms !! f = Some F /\
                 literal_key F = P ++ [t] /\
                 forall i D, i <> f -> map_list kui_ms !! i = Some D ->
                             ~ (P ++ [t]) `prefix_of` literal_key D) /\
    ((exists f F, map_list kui_ms !! f = Some F /\ literal_key F = P ++ [t]) ->
     is_found after = true /\
     exists f F, map_iter_found after = Some f /\
                 map_list kui_ms !! f = Some F /\ literal_key F = P ++ [t]) /\
    ((forall i D, map_list kui_ms !! i = Some D -> literal_key D <> P ++ [t]) ->
     is_found after = is_found kui_ms /\
     map_iter_found after = map_iter_found kui_ms).
Proof.
  intros Hs Hp Hst Hit HA HPA Hbefore Ht.
  assert (no_key_before (map_list kui_ms) j (P ++ [t])) as Hbefore'.
  { intros i D Hi HD Hpre. apply (Hbefore i D Hi HD).
    eapply prefix_app_l. exact Hpre. }
  destruct (update_step_exact kui_ms Hs Hp P t j Amap Hst Hit HA HPA Hbefore' Ht)
    as (after & Hrun & _ & Hcases).
  exists after. split; [exact Hrun|].
  destruct Hcases as [(Hnone & Hnf & Hf & Hfi)
                     |(j' & C & Hiter & HC & HPC & Hleast & Hsub)].
  - assert (forall i D, map_list kui_ms !! i = Some D ->
                        ~ (P ++ [t]) `prefix_of` literal_key D) as Hnone'.
    { intros i D HD. apply (Hnone i D); [|assumption].
      eapply lookup_lt_Some. exact HD. }
    split; [tauto|]. split; [congruence|].
    split.
    { split; [congruence|]. intros (f & F & HF & HFk & _). exfalso.
      apply (Hnone' f F HF). rewrite HFk. reflexivity. }
    split.
    { intros (f & F & HF & HFk). exfalso.
      apply (Hnone' f F HF). rewrite HFk. reflexivity. }
    auto.
  - assert (~ (forall i D, map_list kui_ms !! i = Some D ->
                           ~ (P ++ [t]) `prefix_of` literal_key D)) as Hsome.
    { intros Hno. exact (Hno j' C HC HPC). }
    destruct Hsub as [(Hkey & Hf & Hfi & Hstate)|(Hkey & Hnokey & Hf & Hfi & Hstill)].
    + destruct Hstate as [(Hfound & Honly)|(Hstill & i & D & Hi & HD & HPD)].
      * split; [split; [congruence|tauto]|].
        split; [intros _; exists j', C; auto|].
        split; [split; [intros _; exists j', C; auto|auto]|].
        split; [intros _; split; [assumption|exists j', C; auto]|].
        intros Hno. exfalso. exact (Hno j' C HC Hkey).
      * split; [split; [congruence|tauto]|].
        split; [intros _; exists j', C; auto|].
        split.
        { split; [congruence|]. intros (f & F & HF & HFk & Honly). exfalso.
          destruct (decide (j' = f)) as [->|Hne].
          - exact (Honly i D Hi HD HPD).
          - exact (Honly j' C Hne HC HPC). }
        split; [intros _; split; [assumption|exists j', C; auto]|].
        intros Hno. exfalso. exact (Hno j' C HC Hkey).
    + split; [split; [congruence|tauto]|].
      split; [intros _; exists j', C; auto|].
      split.
      { split; [congruence|]. intros (f & F & HF & HFk & _). exfalso.
        exact (Hnokey f F HF HFk). }
      split.
      { intros (f & F & HF & HFk). exfalso. exact (Hnokey f F HF HFk). }
      auto.
Qed.

Lemma update_state_first_extension_witness :
  exists after,
    kui_ms_update_state (kui_ms_reset_state prefix_maps) 97
                        (Z.of_nat (length (@nil Z))) = (0, after) /\
    (map_state after = KUI_MAP_NOT_FOUND <->
     forall i D, [map_a_X; map_abc_Y] !! i = Some D ->
                 ~ ([] ++ [97]) `prefix_of` literal_key D) /\
    (map_state after <> KUI_MAP_NOT_FOUND ->
     exists j' C, map_iter after = Some j' /\
                  [map_a_X; map_abc_Y] !! j' = Some C /\
                  ([] ++ [97]) `prefix_of` literal_key C /\
                  no_key_before [map_a_X; map_abc_Y] j' ([] ++ [97])) /\
    (map_state after = KUI_MAP_FOUND <->
     exists f F, [map_a_X; map_abc_Y] !! f = Some F /\
                 literal_key F = [] ++ [97] /\
                 forall i D, i <> f -> [map_a_X; map_abc_Y] !! i = Some D ->
                             ~ ([] ++ [97]) `prefix_of` literal_key D) /\
    ((exists f F, [map_a_X; map_abc_Y] !! f = Some F /\
                  literal_key F = [] ++ [97]) ->
     is_found after = true /\
     exists f F, map_iter_found after = Some f /\
                 [map_a_X; map_abc_Y] !! f = Some F /\
                 literal_key F = [] ++ [97]) /\
    ((forall i D, [map_a_X; map_abc_Y] !! i = Some D ->
                  literal_key D <> [] ++ [97]) ->
     is_found after = is_found (kui_ms_reset_state prefix_maps) /\
     map_iter_found after = map_iter_found (kui_ms_reset_state prefix_maps)).
Proof.
  apply (update_state_first_extension (kui_ms_reset_state prefix_maps) [] 97
           0 map_a_X).
  - repeat constructor. vm_compute. discriminate.
  - repeat constructor; vm_compute; discriminate.
  - reflexivity.
  - reflexivity.
  - reflexivity.
  - apply prefix_nil.
  - intros i D Hi. lia.
  - lia.
Defined.

(** ** A whole scan: the longest key wins *)

Lemma update_not_looking kui_ms key position :
  map_state kui_ms <> KUI_MAP_STILL_LOOKING ->
  snd (kui_ms_update_state kui_ms key position) = kui_ms.
Proof.
  intros Hst. unfold kui_ms_update_state.
  destruct (position <? 0); [reflexivity|].
  destruct (key <? 0); [reflexivity|].
  destruct (map_state kui_ms); try contradiction; reflexivity.
Qed.

Lemma update_no_maps kui_ms key position :
  map_list kui_ms = [] ->
  snd (kui_ms_update_state kui_ms key position) = kui_ms.
Proof.
  intros Hnil. unfold kui_ms_update_state.
  destruct (position <? 0); [reflexivity|].
  destruct (key <? 0); [reflexivity|].
  destruct (negb _); [reflexivity|].
  rewrite Hnil. destruct (map_iter kui_ms); reflexivity.
Qed.

Lemma prefix_snoc_cases (D P : list Z) t :
  D `prefix_of` (P ++ [t]) -> D `prefix_of` P \/ D = P ++ [t].
Proof.
  intros [k Hk]. destruct k as [|x k _] using rev_ind.
  - right. rewrite app_nil_r in Hk. congruence.
  - left. rewrite app_assoc in Hk. apply app_inj_tail in Hk as [-> _].
    exists k. reflexivity.
Qed.

Section Scan.

Variable maps : list kui_map.
Hypothesis maps_sorted : sorted_by_literal_key maps.
Hypothesis maps_proper : proper_keys maps.

Lemma longest_prefix_key_snoc P t f :
  longest_prefix_key maps P f ->
  (forall i D, maps !! i = Some D -> literal_key D <> P ++ [t]) ->
  longest_prefix_key maps (P ++ [t]) f.
Proof.
  intros (F & HF & Hne & HFP & Hlong) Hnokey.
  exists F. split; [assumption|]. split; [assumption|].
  split; [apply prefix_app_r; assumption|].
  intros i D HD HDP. apply prefix_snoc_cases in HDP as [HDP|HDP].
  - exact (Hlong i D HD HDP).
  - exfalso. exact (Hnokey i D HD HDP).
Qed.

Lemma scan_invariant_reset kui_ms :
  map_list kui_ms = maps ->
  scan_invariant maps [] (kui_ms_reset_state kui_ms).
Proof.
  intros Hmaps. unfold scan_invariant. cbn.
  split; [assumption|]. split; [discriminate|].
  split; [intros _ i D _ HD; apply prefix_nil_inv; exact HD|].
  destruct maps as [|A rest] eqn:Hm; [left; reflexivity|].
  right. exists 0%nat, A. split; [reflexivity|]. split; [reflexivity|].
  split; [apply prefix_nil|]. intros i D Hi. lia.
Qed.

Lemma scan_invariant_step P t kui_ms :
  0 < t ->
  scan_invariant maps P kui_ms ->
  scan_invariant maps (P ++ [t])
    (snd (kui_ms_update_state kui_ms t (Z.of_nat (length P)))).
Proof.
  intros Ht (Hmaps & Hon & Hoff & Hstate).
  destruct (map_state kui_ms) eqn:Hst.
  - (* found earlier: the call fails and changes nothing *)
    rewrite update_not_looking by congruence.
    destruct Hstate as (Hf & Hcur & f & F & Hfi & HF & HFP & Honly).
    assert (forall i D, maps !! i = Some D -> literal_key D <> P ++ [t])
      as Hnokey.
    { intros i D HD HDk.
      destruct (decide (i = f)) as [->|Hne].
      - assert (D = F) as -> by congruence.
        apply prefix_length in HFP. rewrite HDk, length_app in HFP.
        simpl in HFP. lia.
      - apply (Honly i D Hne HD). rewrite HDk.
        apply prefix_app_r. assumption. }
    unfold scan_invariant. rewrite Hst.
    split; [assumption|]. split.
    { intros Hf'. destruct (Hon Hf') as (f' & Hf'i & Hlong).
      exists f'. split; [assumption|].
      apply longest_prefix_key_snoc; assumption. }
    split; [congruence|].
    split; [assumption|]. split; [assumption|].
    exists f, F. split; [assumption|]. split; [assumption|].
    split; [apply prefix_app_r; assumption|assumption].
  - (* still looking *)
    destruct Hstate as [Hnil|(j & A & Hit & HA & HPA & Hleast)].
    { rewrite update_no_maps by congruence.
      unfold scan_invariant. rewrite Hst.
      split; [congruence|].
      split; [intros Hf; destruct (Hon Hf) as (f & _ & F & HF & _);
              rewrite Hnil in HF; discriminate|].
      split; [intros _ i D HD; rewrite Hnil in HD; discriminate|].
      left. assumption. }
    assert (no_key_before (map_list kui_ms) j (P ++ [t])) as Hleast'.
    { rewrite Hmaps. intros i D Hi HD Hpre. apply (Hleast i D Hi HD).
      eapply prefix_app_l. exact Hpre. }
    assert (sorted_by_literal_key (map_list kui_ms)) as Hs'
      by (rewrite Hmaps; exact maps_sorted).
    assert (proper_keys (map_list kui_ms)) as Hp'
      by (rewrite Hmaps; exact maps_proper).
    assert (map_list kui_ms !! j = Some A) as HA' by (rewrite Hmaps; exact HA).
    destruct (update_step_exact kui_ms Hs' Hp' P t j A
                Hst Hit HA' HPA Hleast' Ht)
      as (after & Hrun & Hlist & Hcases).
    rewrite Hmaps in Hlist, Hcases. clear Hs' Hp' HA' Hleast'.
    rewrite Hrun. cbn [snd]. unfold scan_invariant.
    split; [assumption|].
    destruct Hcases as [(Hnone & Hnf & Hf & Hfi)
                       |(j' & C & Hiter & HC & HPC & Hfirst & Hsub)].
    + assert (forall i D, maps !! i = Some D ->
                          ~ (P ++ [t]) `prefix_of` literal_key D) as Hnone'.
      { intros i D HD. apply (Hnone i D); [|assumption].
        eapply lookup_lt_Some. exact HD. }
      assert (forall i D, maps !! i = Some D ->
                          literal_key D <> P ++ [t]) as Hnokey.
      { intros i D HD HDk. apply (Hnone' i D HD). rewrite HDk. reflexivity. }
      rewrite Hnf, Hf, Hfi. split.
      { intros Hf'. destruct (Hon Hf') as (f' & Hf'i & Hlong).
        exists f'. split; [assumption|].
        apply longest_prefix_key_snoc; assumption. }
      split.
      { intros Hf' i D HD HDP. apply prefix_snoc_cases in HDP as [HDP|HDP].
        - exact (Hoff Hf' i D HD HDP).
        - exfalso. exact (Hnokey i D HD HDP). }
      exists (P ++ [t]). split; [reflexivity|assumption].
    + destruct Hsub as [(Hkey & Hf & Hfi & Hstate')
                       |(Hkey & Hnokey & Hf & Hfi & Hstill)].
      * assert (longest_prefix_key (maps) (P ++ [t]) j') as Hlong.
        { exists C. split; [assumption|].
          split; [rewrite Hkey; destruct P; discriminate|].
          split; [rewrite Hkey; reflexivity|].
          intros i D HD HDP. apply prefix_length in HDP.
          rewrite Hkey. exact HDP. }
        split; [intros _; exists j'; auto|].
        split; [congruence|].
        destruct Hstate' as [(Hfound & Honly)|(Hstill & _)].
        -- rewrite Hfound. split; [assumption|]. split; [congruence|].
           exists j', C. split; [assumption|]. split; [assumption|].
           split; [rewrite Hkey; reflexivity|].
           rewrite Hkey. exact Honly.
        -- rewrite Hstill. right. exists j', C. auto.
      * rewrite Hstill, Hf, Hfi. split.
        { intros Hf'. destruct (Hon Hf') as (f' & Hf'i & Hlong).
          exists f'. split; [assumption|].
          apply longest_prefix_key_snoc; assumption. }
        split.
        { intros Hf' i D HD HDP. apply prefix_snoc_cases in HDP as [HDP|HDP].
          - exact (Hoff Hf' i D HD HDP).
          - exfalso. exact (Hnokey i D HD HDP). }
        right. exists j', C. auto.
  - (* given up earlier: the call is not made by the context, and would
       fail and change nothing *)
    rewrite update_not_looking by congruence.
    destruct Hstate as (Q & HQP & Hdead).
    assert (forall i D, maps !! i = Some D -> literal_key D <> P ++ [t])
      as Hnokey.
    { intros i D HD HDk. apply (Hdead i D HD). rewrite HDk.
      apply prefix_app_r. assumption. }
    unfold scan_invariant. rewrite Hst.
    split; [assumption|]. split.
    { intros Hf'. destruct (Hon Hf') as (f' & Hf'i & Hlong).
      exists f'. split; [assumption|].
      apply longest_prefix_key_snoc; assumption. }
    split.
    { intros Hf' i D HD HDP. apply prefix_snoc_cases in HDP as [HDP|HDP].
      - exact (Hoff Hf' i D HD HDP).
      - exfalso. exact (Hnokey i D HD HDP). }
    exists Q. split; [apply prefix_app_r; assumption|assumption].
  - contradiction.
Qed.

Lemma scan_invariant_run : forall tokens P kui_ms,
  positive_key tokens ->
  scan_invariant maps P kui_ms ->
  scan_invariant maps (P ++ tokens)
    (run_updates kui_ms (scan_calls_from (length P) tokens)).
Proof.
  induction tokens as [|t tokens IH]; intros P kui_ms Hpos Hinv.
  - rewrite app_nil_r. exact Hinv.
  - inversion Hpos as [|? ? Ht Hpos']; subst.
    cbn [scan_calls_from run_updates].
    replace (P ++ t :: tokens) with ((P ++ [t]) ++ tokens)
      by (rewrite <- app_assoc; reflexivity).
    replace (S (length P)) with (length (P ++ [t]))
      by (rewrite length_app; simpl; lia).
    apply IH; [assumption|]. apply scan_invariant_step; assumption.
Qed.

End Scan.

(** X7. A scan over a sorted list of maps finds the longest match.  Reset,
    the update calls for the tokens read (all positive) at positions 0, 1,
    ... and finalize leave the map set FOUND exactly when some non-empty
    key is a prefix of the tokens, and then the cursor stands on a map
    whose key is such a prefix and no key that is one is longer. *)
Theorem scan_finds_longest_key (kui_ms : kui_map_set) (tokens : list Z) :
  sorted_by_literal_key (map_list kui_ms) ->
  proper_keys (map_list kui_ms) ->
  positive_key tokens ->
  let after :=
    kui_ms_finalize_state
      (run_updates (kui_ms_reset_state kui_ms) (scan_calls tokens)) in
  map_list after = map_list kui_ms /\
  (map_state after = KUI_MAP_FOUND <->
   exists i D, map_list kui_ms !! i = Some D /\ literal_key D <> [] /\
               literal_key D `prefix_of` tokens) /\
  (map_state after = KUI_MAP_FOUND ->
   exists f, map_iter after = Some f /\
             longest_prefix_key (map_list kui_ms) tokens f).
Proof.
  intros Hs Hp Hpos after.
  pose proof (scan_invariant_run (map_list kui_ms) Hs Hp tokens []
                (kui_ms_reset_state kui_ms) Hpos
                (scan_invariant_reset _ Hs Hp _ eq_refl)) as Hinv.
  cbn [app length] in Hinv. fold (scan_calls tokens) in Hinv.
  destruct Hinv as (Hmaps & Hon & Hoff & Hstate).
  subst after. unfold kui_ms_finalize_state.
  destruct (is_found (run_updates _ _)) eqn:Hf.
  - destruct (Hon eq_refl) as (f & Hfi & Hlong).
    cbn. split; [assumption|]. split.
    + split; [|reflexivity]. intros _.
      destruct Hlong as (F & HF & Hne & HFP & _). exists f, F. auto.
    + intros _. exists f. auto.
  - split; [assumption|].
    assert (map_state (run_updates (kui_ms_reset_state kui_ms)
                         (scan_calls tokens)) <> KUI_MAP_FOUND) as Hnf.
    { intros Hfound. rewrite Hfound in Hstate.
      destruct Hstate as [Hf' _]. congruence. }
    split; [|contradiction].
    split; [contradiction|].
    intros (i & D & HD & Hne & HDP). exfalso.
    exact (Hne (Hoff eq_refl i D HD HDP)).
Qed.

Lemma scan_finds_longest_key_witness :
  let after :=
    kui_ms_finalize_state
      (run_updates (kui_ms_reset_state prefix_maps) (scan_calls [97; 100])) in
  map_list after = map_list prefix_maps /\
  (map_state after = KUI_MAP_FOUND <->
   exists i D, map_list prefix_maps !! i = Some D /\ literal_key D <> [] /\
               literal_key D `prefix_of` [97; 100]) /\
  (map_state after = KUI_MAP_FOUND ->
   exists f, map_iter after = Some f /\
             longest_prefix_key (map_list prefix_maps) [97; 100] f).
Proof.
  apply (scan_finds_longest_key prefix_maps [97; 100]).
  - repeat constructor. vm_compute. discriminate.
  - repeat constructor; vm_compute; discriminate.
  - repeat constructor.
Defined.

(** ** Keys that begin no map *)

Lemma update_search_no_first rest A t : forall i cur,
  Forall (fun m => ix (literal_key m) 0 <> t) rest ->
  exists j cur',
    update_search rest A t 0 i KUI_MAP_STILL_LOOKING cur
    = (j, KUI_MAP_NOT_FOUND, cur') /\ (j < i + length rest)%nat
    \/ update_search rest A t 0 i KUI_MAP_STILL_LOOKING cur
       = (j, KUI_MAP_STILL_LOOKING, cur') /\ j = (i + length rest)%nat.
Proof.
  induction rest as [|m rest IH]; intros i cur Hno.
  - exists i, cur. right. split; [reflexivity|]. simpl. lia.
  - inversion Hno as [|? ? Hm Hrest]; subst.
    cbn [update_search].
    change (intncmp A (literal_key m) 0) with 0.
    change (Z.to_nat 0) with 0%nat. cbn [Z.eqb negb orb andb].
    destruct (ix (literal_key m) 0 >? t).
    + exists i, (literal_key m). left. split; [reflexivity|]. simpl. lia.
    + destruct (Z.eqb_spec (ix (literal_key m) 0) t); [contradiction|].
      destruct (IH (S i) (literal_key m) Hrest) as (j & cur' & [[H1 H2]|[H1 H2]]);
        exists j, cur'; [left|right]; (split; [assumption|]); simpl; lia.
Qed.

Lemma update_state_no_first kui_ms t :
  0 <= t ->
  map_list kui_ms <> [] ->
  Forall (fun m => ix (literal_key m) 0 <> t) (map_list kui_ms) ->
  exists after,
    kui_ms_update_state (kui_ms_reset_state kui_ms) t 0 = (0, after) /\
    map_state after = KUI_MAP_NOT_FOUND /\ is_found after = false.
Proof.
  intros Ht Hne Hno. unfold kui_ms_update_state.
  cbn [Z.ltb Z.compare].
  destruct (Z.ltb_spec t 0); [lia|].
  cbn [kui_ms_reset_state map_state map_iter map_list kui_map_state_eqb negb].
  unfold std_list_begin. cbn [std_list_get_data].
  destruct (map_list kui_ms) as [|A rest] eqn:Hmaps; [contradiction|].
  cbn [lookup list_lookup drop].
  destruct (update_search_no_first (A :: rest) (literal_key A) t 0
              (literal_key A) Hno) as (j & cur' & [[Hrun Hj]|[Hrun Hj]]);
    rewrite Hrun; ms_simpl.
  - eexists. split; [reflexivity|]. split; reflexivity.
  - cbn [kui_ms_reset_state map_list]. rewrite Hmaps.
    rewrite iter_eqb_Some, bool_decide_eq_true_2 by (simpl in *; lia).
    eexists. split; [reflexivity|]. split; reflexivity.
Qed.

(** The sets a pass may look at without failing when [t] arrives first:
    each holds a map, and no key begins with [t]. *)
Lemma update_each_list_no_first sets t :
  0 <= t ->
  Forall (fun kui_ms =>
            map_list kui_ms <> [] /\
            Forall (fun m => ix (literal_key m) 0 <> t) (map_list kui_ms))
         sets ->
  exists sets',
    kui_update_each_list (kui_reset_state_data sets) t 0 = (0, sets') /\
    Forall (fun kui_ms => map_state kui_ms = KUI_MAP_NOT_FOUND /\
                          is_found kui_ms = false) sets'.
Proof.
  intros Ht. induction 1 as [|kui_ms sets [Hne Hno] _ IH].
  - exists []. split; [reflexivity|constructor].
  - destruct IH as (sets' & Hrun & Hall).
    destruct (update_state_no_first kui_ms t Ht Hne Hno)
      as (after & Hup & Hnf & Hf).
    unfold kui_reset_state_data in *. rewrite fmap_cons.
    cbn [kui_update_each_list]. unfold kui_ms_get_state at 1.
    cbn [kui_ms_reset_state map_state kui_map_state_eqb negb].
    fold (kui_ms_reset_state kui_ms). rewrite Hup. cbn [Z.eqb].
    rewrite Hrun. exists (after :: sets').
    split; [reflexivity|]. constructor; auto.
Qed.

Lemma should_continue_none sets :
  Forall (fun kui_ms => map_state kui_ms = KUI_MAP_NOT_FOUND /\
                        is_found kui_ms = false) sets ->
  kui_should_continue_looking sets false = false /\
  kui_update_list_state sets = sets /\
  Forall (fun kui_ms => map_state kui_ms <> KUI_MAP_FOUND) sets.
Proof.
  induction 1 as [|kui_ms sets [Hnf Hf] _ (IH1 & IH2 & IH3)].
  - repeat split; constructor.
  - cbn [kui_should_continue_looking]. unfold kui_ms_get_state.
    rewrite Hnf. cbn [kui_map_state_eqb]. split; [assumption|]. split.
    + unfold kui_update_list_state in *. rewrite fmap_cons, IH2.
      unfold kui_ms_finalize_state. rewrite Hf. reflexivity.
    + constructor; [congruence|assumption].
Qed.

Lemma getkey_unmapped_key {source : Type}
    (kctx kctx' : kuictx source) (t : Z) (stack : nat -> Z) (passes : nat) :
  kui_findchar kctx = (t, kctx') ->
  0 < t ->
  Forall (fun kui_ms =>
            map_list kui_ms <> [] /\
            Forall (fun m => ix (literal_key m) 0 <> t) (map_list kui_ms))
         (kui_map_set_list kctx) ->
  exists k,
    kui_getkey (S passes) kctx stack = Getkey_return t k /\
    buffer k = buffer kctx' /\ state_data k = state_data kctx' /\
    Forall (fun kui_ms => map_state kui_ms = KUI_MAP_NOT_FOUND)
           (kui_map_set_list k).
Proof.
  intros Hread Ht Hsets.
  destruct (update_each_list_no_first _ t ltac:(lia) Hsets)
    as (sets' & Hrun & Hall).
  destruct (should_continue_none sets' Hall) as (Hcont & Hfin & Hnone).
  cbn [kui_getkey]. unfold kui_findkey.
  change BUFMAX_CELLS with (S 1023).
  rewrite (findkey_loop_step _ _ _ _ t
             (set_map_sets (kui_reset_state_data (kui_map_set_list kctx)) kctx'))
    by (first [lia | rewrite findchar_set_map_sets, Hread; reflexivity]).
  cbn [set_map_sets kui_map_set_list fst snd].
  pose proof (findchar_map_sets kctx) as Hk. rewrite Hread in Hk.
  cbn [snd] in Hk.
  change (-1 + 1) with 0. rewrite Hrun. cbn [Z.eqb].
  cbn [set_map_sets kui_map_set_list buffer]. rewrite Hcont. cbn [negb].
  unfold set_map_sets at 1 2 3. cbn [kui_map_set_list].
  rewrite Hfin, (was_map_found_none _ false None Hnone). cbn [Z.eqb].
  unfold kui_update_buffer. change (Z.to_nat (0 - 1 + 1)) with 0%nat.
  cbn [prepend_down]. change (Z.to_nat 0) with 0%nat.
  rewrite ix_insert_eq by (rewrite bufmax_init_length; unfold BUFMAX_CELLS; lia).
  cbn [Z.eqb].
  destruct (Z.eqb_spec t (-1)); [lia|].
  eexists. split; [reflexivity|]. cbn.
  split; [reflexivity|]. split; [reflexivity|].
  unfold kui_update_list_state in Hfin. rewrite ?Hfin.
  eapply Forall_impl; [exact Hall|]. intros ? [? _]. assumption.
Qed.

(** X8. A key that begins no map passes through unchanged.  When every
    map set of the context holds at least one map, no key begins with the
    token [t] and [t] is the next key the input delivers, the call reads
    that one key and returns it; every map set ends NOT_FOUND, and nothing
    is put back. *)
Theorem unmapped_key_passes_through {source : Type}
    (kctx kctx' : kuictx source) (t : Z) (stack : nat -> Z) (passes : nat) :
  kui_findchar kctx = (t, kctx') ->
  0 < t ->
  Forall (fun kui_ms =>
            map_list kui_ms <> [] /\
            Forall (fun m => ix (literal_key m) 0 <> t) (map_list kui_ms))
         (kui_map_set_list kctx) ->
  exists k,
    kui_getkey (S passes) kctx stack = Getkey_return t k /\
    buffer k = buffer kctx' /\ state_data k = state_data kctx' /\
    Forall (fun kui_ms => map_state kui_ms = KUI_MAP_NOT_FOUND)
           (kui_map_set_list k).
Proof.
  exact (getkey_unmapped_key kctx kctx' t stack passes).
Qed.

Lemma unmapped_key_passes_through_witness :
  exists k,
    kui_getkey 1 (kui_create_on [100; 97] [prefix_maps]) (fun _ => 0)
    = Getkey_return 100 k /\
    buffer k = buffer (kui_create_on [97] [prefix_maps]) /\
    state_data k = state_data (kui_create_on [97] [prefix_maps]) /\
    Forall (fun kui_ms => map_state kui_ms = KUI_MAP_NOT_FOUND)
           (kui_map_set_list k).
Proof.
  apply (unmapped_key_passes_through
           (kui_create_on [100; 97] [prefix_maps])
           (kui_create_on [97] [prefix_maps]) 100 (fun _ => 0) 0).
  - reflexivity.
  - lia.
  - repeat constructor; cbn; discriminate.
Defined.

(** ** The loops over the map sets *)

Lemma update_state_map_list kui_ms key position :
  map_list (snd (kui_ms_update_state kui_ms key position)) = map_list kui_ms.
Proof.
  unfold kui_ms_update_state.
  destruct (position <? 0); [reflexivity|].
  destruct (key <? 0); [reflexivity|].
  destruct (negb _); [reflexivity|].
  destruct (map_iter kui_ms) as [start|]; [|reflexivity].
  cbn [std_list_get_data].
  destruct (map_list kui_ms !! start) as [anchor|]; [|reflexivity].
  destruct (update_search _ _ _ _ _ _ _) as [[j st] cur].
  repeat case_match; reflexivity.
Qed.

Lemma update_each_list_returns sets key position :
  (fst (kui_update_each_list sets key position) = -1 \/
   fst (kui_update_each_list sets key position) = 0) /\
  (fst (kui_update_each_list sets key position) = -1 <->
   Exists (fun kui_ms =>
             map_state kui_ms <> KUI_MAP_NOT_FOUND /\
             (position < 0 \/ key < 0 \/
              map_state kui_ms <> KUI_MAP_STILL_LOOKING \/
              std_list_get_data (map_list kui_ms) (map_iter kui_ms) = None))
          sets).
Proof.
  induction sets as [|s sets [IHr IHiff]]; cbn [kui_update_each_list].
  - split; [right; reflexivity|]. split; [discriminate|].
    intros H. inversion H.
  - unfold kui_ms_get_state.
    destruct (update_state_returns s key position) as (Hr & Hiff & _).
    destruct (kui_update_each_list sets key position) as [r' rest'].
    cbn [fst] in IHr, IHiff. rewrite Exists_cons.
    destruct (negb (kui_map_state_eqb (map_state s) KUI_MAP_NOT_FOUND)) eqn:Hnf.
    + assert (map_state s <> KUI_MAP_NOT_FOUND) as Hne
        by (intros Heq; rewrite Heq in Hnf; discriminate).
      destruct (kui_ms_update_state s key position) as [r s'].
      cbn [fst] in Hr, Hiff. destruct Hr as [-> | ->].
      * change (-1 =? -1) with true. cbn [fst].
        split; [left; reflexivity|]. split; [|reflexivity].
        intros _. left. split; [assumption|]. apply Hiff. reflexivity.
      * change (0 =? -1) with false. cbn [fst].
        split; [assumption|]. rewrite IHiff. split; [auto|].
        intros [[_ Hc]|?]; [|assumption]. apply Hiff in Hc. discriminate.
    + assert (map_state s = KUI_MAP_NOT_FOUND) as Heq
        by (destruct (map_state s); simpl in Hnf; congruence).
      cbn [fst]. split; [assumption|]. rewrite IHiff. split; [auto|].
      intros [[Hc _]|?]; [contradiction|assumption].
Qed.

(** X9. The loop over the map sets returns -1 exactly when some map set
    that has not given up is handed a call out of order: a negative
    position or key, a state other than STILL_LOOKING (so also FOUND), or
    a cursor on no map.  Every other call returns 0. *)
Theorem update_each_list_fails_exactly (sets : list kui_map_set)
    (key position : Z) :
  (fst (kui_update_each_list sets key position) = -1 \/
   fst (kui_update_each_list sets key position) = 0) /\
  (fst (kui_update_each_list sets key position) = -1 <->
   Exists (fun kui_ms =>
             map_state kui_ms <> KUI_MAP_NOT_FOUND /\
             (position < 0 \/ key < 0 \/
              map_state kui_ms <> KUI_MAP_STILL_LOOKING \/
              std_list_get_data (map_list kui_ms) (map_iter kui_ms) = None))
          sets).
Proof. exact (update_each_list_returns sets key position). Qed.

Lemma update_each_list_ok sets key position : forall r sets',
  kui_update_each_list sets key position = (r, sets') -> r <> -1 ->
  Forall2 (fun s s' =>
             (map_state s = KUI_MAP_NOT_FOUND /\ s' = s) \/
             (fst (kui_ms_update_state s key position) <> -1 /\
              s' = snd (kui_ms_update_state s key position)))
          sets sets'.
Proof.
  induction sets as [|s sets IH]; intros r sets' Hrun Hr;
    cbn [kui_update_each_list] in Hrun.
  - injection Hrun as <- <-. constructor.
  - unfold kui_ms_get_state in Hrun.
    destruct (kui_update_each_list sets key position) as [r' rest'].
    specialize (IH r' rest' eq_refl).
    destruct (negb (kui_map_state_eqb (map_state s) KUI_MAP_NOT_FOUND)) eqn:Hnf.
    + destruct (kui_ms_update_state s key position) as [r0 s0] eqn:Hup.
      destruct (Z.eqb_spec r0 (-1)).
      * injection Hrun as <- <-. contradiction.
      * injection Hrun as <- <-. constructor; [|auto].
        right. rewrite Hup. split; [assumption|reflexivity].
    + injection Hrun as <- <-. constructor; [|auto].
      left. split; [|reflexivity].
      destruct (map_state s); simpl in Hnf; congruence.
Qed.

Lemma update_each_list_map_lists sets key position :
  map_list <$> snd (kui_update_each_list sets key position) = map_list <$> sets.
Proof.
  induction sets as [|s sets IH]; [reflexivity|].
  cbn [kui_update_each_list].
  pose proof (update_state_map_list s key position) as Hs.
  destruct (kui_update_each_list sets key position) as [r' rest'].
  cbn [snd] in IH.
  destruct (negb _).
  - destruct (kui_ms_update_state s key position) as [r s']. cbn [snd] in Hs.
    destruct (r =? -1); cbn [snd]; rewrite !fmap_cons; congruence.
  - cbn [snd]. rewrite !fmap_cons. congruence.
Qed.

Lemma should_continue_exists sets : forall b,
  kui_should_continue_looking sets b = true ->
  b = true \/ Exists (fun s => map_state s = KUI_MAP_STILL_LOOKING) sets.
Proof.
  induction sets as [|s sets IH]; intros b H;
    cbn [kui_should_continue_looking] in H.
  - left. assumption.
  - apply IH in H as [H|H]; [|right; right; assumption].
    unfold kui_ms_get_state in H.
    destruct (map_state s) eqn:Hst; cbn in H; auto.
Qed.

Lemma update_search_still rest A key position : forall i st cur j cur',
  update_search rest A key position i st cur
  = (j, KUI_MAP_STILL_LOOKING, cur') ->
  (j < i + length rest)%nat ->
  ix cur' (Z.to_nat position) = key /\
  exists m, rest !! (j - i)%nat = Some m /\ cur' = literal_key m.
Proof.
  induction rest as [|m rest IH]; intros i st cur j cur' Hrun Hj;
    cbn [update_search] in Hrun.
  - assert (j = i) by congruence. simpl in Hj. lia.
  - destruct (negb _ || _); [discriminate|].
    destruct (_ && _) eqn:Hhit.
    + assert (j = i) as -> by congruence.
      assert (cur' = literal_key m) as -> by congruence.
      apply andb_true_iff in Hhit as [_ Hhit]. apply Z.eqb_eq in Hhit.
      split; [assumption|]. exists m.
      rewrite Nat.sub_diag. split; reflexivity.
    + pose proof (update_search_range rest A key position (S i) st
                    (literal_key m)) as Hrange.
      rewrite Hrun in Hrange. simpl in Hrange.
      apply IH in Hrun; [|simpl in Hj; lia].
      destruct Hrun as (Hc & m' & Hm' & ->). split; [assumption|].
      exists m'. replace (j - i)%nat with (S (j - S i)) by lia.
      split; [assumption|reflexivity].
Qed.

(** A map set that an update call leaves STILL_LOOKING holds a key with
    the key of the call at the position of the call. *)
Lemma update_state_still kui_ms key position :
  fst (kui_ms_update_state kui_ms key position) <> -1 ->
  map_state (snd (kui_ms_update_state kui_ms key position))
  = KUI_MAP_STILL_LOOKING ->
  exists m, m ∈ map_list kui_ms /\
            ix (literal_key m) (Z.to_nat position) = key.
Proof.
  unfold kui_ms_update_state.
  destruct (position <? 0); [cbn; congruence|].
  destruct (key <? 0); [cbn; congruence|].
  destruct (negb _); [cbn; congruence|].
  destruct (map_iter kui_ms) as [start|]; [|cbn; congruence].
  cbn [std_list_get_data].
  destruct (map_list kui_ms !! start) as [anchor|] eqn:Hanchor;
    [|cbn; congruence].
  apply lookup_lt_Some in Hanchor as Hlt.
  pose proof (update_search_range (drop start (map_list kui_ms))
                (literal_key anchor) key position start
                (map_state kui_ms) (literal_key anchor)) as Hrange.
  rewrite length_drop in Hrange.
  destruct (update_search _ _ _ _ _ _ _) as [[j st] cur] eqn:Hrun.
  simpl in Hrange. ms_simpl.
  destruct (kui_map_state_eqb st KUI_MAP_NOT_FOUND) eqn:Hnf.
  { cbn. intros _ Hs. rewrite Hs in Hnf. discriminate. }
  rewrite iter_eqb_Some. case_bool_decide as Hend; [cbn; discriminate|].
  assert (st = KUI_MAP_STILL_LOOKING ->
          exists m, m ∈ map_list kui_ms /\
                    ix (literal_key m) (Z.to_nat position) = key) as Hfin.
  { intros ->. apply update_search_still in Hrun; [|rewrite length_drop; lia].
    destruct Hrun as (Hc & m & Hm & ->). exists m. split; [|assumption].
    rewrite lookup_drop in Hm. eapply list_elem_of_lookup_2. exact Hm. }
  repeat case_match; cbn; intros Hr Hs; try congruence; auto.
Qed.

Lemma ix_nonzero_lt (a : list Z) i : ix a i <> 0 -> (i < length a)%nat.
Proof.
  unfold ix. intros H. destruct (a !! i) eqn:Hi.
  - eapply lookup_lt_Some. exact Hi.
  - contradiction.
Qed.

Lemma reset_map_lists sets :
  map_list <$> kui_reset_state_data sets = map_list <$> sets.
Proof.
  unfold kui_reset_state_data. rewrite <- list_fmap_compose.
  apply list_fmap_ext. intros ? ? _. reflexivity.
Qed.

Lemma finalize_map_lists sets :
  map_list <$> kui_update_list_state sets = map_list <$> sets.
Proof.
  unfold kui_update_list_state. rewrite <- list_fmap_compose.
  apply list_fmap_ext. intros ? s _. cbn. unfold kui_ms_finalize_state.
  destruct (is_found s); reflexivity.
Qed.

(** ** Keys that fit into bufmax *)

Section Bound.

Context {source : Type}.
Implicit Types kctx : kuictx source.

(** The loop of a pass leaves the map lists as they are, however it
    ends. *)
Lemma findkey_loop_map_lists : forall room kctx position bufmax,
  match findkey_loop room kctx position bufmax with
  | Loop_break _ _ k | Loop_fail k | Loop_overrun _ k =>
      map_list <$> kui_map_set_list k = map_list <$> kui_map_set_list kctx
  end.
Proof.
  induction room as [|room IH]; intros kctx position bufmax;
    cbn [findkey_loop];
    pose proof (findchar_map_sets kctx) as Hk;
    destruct (kui_findchar kctx) as [key k1]; cbn [snd] in Hk;
    (destruct (key =? 0); [rewrite Hk; reflexivity|]).
  - rewrite Hk. reflexivity.
  - pose proof (update_each_list_map_lists (kui_map_set_list k1) key
                  (position + 1)) as Hu.
    destruct (kui_update_each_list _ _ _) as [r sets]. cbn [snd] in Hu.
    destruct (r =? -1); [cbn [set_map_sets kui_map_set_list]; congruence|].
    destruct (negb _); [cbn [set_map_sets kui_map_set_list]; congruence|].
    specialize (IH (set_map_sets sets k1) (position + 1)
                   (<[Z.to_nat (position + 1) := key]> bufmax)).
    destruct (findkey_loop _ _ _ _);
      cbn [set_map_sets kui_map_set_list] in IH; congruence.
Qed.

Lemma findkey_map_lists kctx stack :
  match kui_findkey kctx stack with
  | Findkey_return _ _ k | Findkey_overrun _ k =>
      map_list <$> kui_map_set_list k = map_list <$> kui_map_set_list kctx
  end.
Proof.
  unfold kui_findkey.
  pose proof (findkey_loop_map_lists BUFMAX_CELLS
                (set_map_sets (kui_reset_state_data (kui_map_set_list kctx))
                              kctx)
                (-1) (bufmax_init stack)) as Hloop.
  cbn [set_map_sets kui_map_set_list] in Hloop.
  rewrite reset_map_lists in Hloop.
  destruct (findkey_loop _ _ _ _) as [position bufmax k|k|position k];
    [|assumption..].
  cbn [set_map_sets kui_map_set_list buffer].
  destruct (kui_was_map_found _ _ _) as [[r was] the].
  destruct (r =? -1);
    [unfold set_map_sets; cbn [kui_map_set_list];
     rewrite finalize_map_lists; assumption|].
  destruct (kui_update_buffer _ _ _ _ _ _) as [[r' b] key].
  destruct (r' =? -1); unfold set_buffer, set_map_sets;
    cbn [kui_map_set_list]; rewrite finalize_map_lists; assumption.
Qed.

Lemma findkey_loop_no_overrun : forall room kctx p bufmax,
  (p + room = BUFMAX_CELLS)%nat ->
  keys_shorter BUFMAX_CELLS (map_list <$> kui_map_set_list kctx) ->
  p = 0%nat \/
  Exists (Exists (fun m => (p <= length (literal_key m))%nat))
         (map_list <$> kui_map_set_list kctx) ->
  forall position k,
    findkey_loop room kctx (Z.of_nat p - 1) bufmax <> Loop_overrun position k.
Proof.
  induction room as [|room IH]; intros kctx p bufmax Hroom Hshort Hwhy
    position k.
  - exfalso. destruct Hwhy as [->|Hex]; [unfold BUFMAX_CELLS in Hroom; lia|].
    apply Exists_exists in Hex as (l & Hl & Hex).
    apply Exists_exists in Hex as (m & Hm & Hle).
    unfold keys_shorter in Hshort. rewrite Forall_forall in Hshort.
    specialize (Hshort l Hl). rewrite Forall_forall in Hshort.
    specialize (Hshort m Hm). lia.
  - cbn [findkey_loop].
    pose proof (findchar_map_sets kctx) as Hk.
    destruct (kui_findchar kctx) as [key k1]. cbn [snd] in Hk.
    destruct (Z.eqb_spec key 0) as [|Hkey]; [discriminate|].
    replace (Z.of_nat p - 1 + 1) with (Z.of_nat p) by lia.
    pose proof (update_each_list_map_lists (kui_map_set_list k1) key
                  (Z.of_nat p)) as Hu.
    destruct (kui_update_each_list _ _ _) as [r sets] eqn:Hup. cbn [snd] in Hu.
    destruct (Z.eqb_spec r (-1)) as [|Hr]; [discriminate|].
    cbn [set_map_sets kui_map_set_list].
    destruct (kui_should_continue_looking sets false) eqn:Hcont;
      cbn [negb]; [|discriminate].
    replace (Z.of_nat p) with (Z.of_nat (S p) - 1) at 1 by lia.
    apply IH; cbn [set_map_sets kui_map_set_list]; [lia|congruence|].
    right. rewrite Hu, Hk.
    apply should_continue_exists in Hcont as [|Hex]; [discriminate|].
    apply Exists_exists in Hex as (s' & Hs' & Hstill).
    apply list_elem_of_lookup_1 in Hs' as (i & Hi).
    destruct (Forall2_lookup_r _ _ _ _ _
                (update_each_list_ok _ _ _ _ _ Hup Hr) Hi)
      as (s & Hs & [[Hnf ->]|[Hok ->]]); [congruence|].
    destruct (update_state_still _ _ _ Hok Hstill) as (m & Hm & Hcell).
    rewrite Nat2Z.id in Hcell.
    apply Exists_exists. exists (map_list s). split.
    + rewrite <- Hk. apply list_elem_of_fmap_2.
      eapply list_elem_of_lookup_2. exact Hs.
    + apply Exists_exists. exists m. split; [assumption|].
      assert (p < length (literal_key m))%nat; [|lia].
      apply ix_nonzero_lt. congruence.
Qed.

Lemma findkey_no_overrun kctx stack :
  keys_shorter BUFMAX_CELLS (map_list <$> kui_map_set_list kctx) ->
  forall position k, kui_findkey kctx stack <> Findkey_overrun position k.
Proof.
  intros Hshort position k. unfold kui_findkey.
  pose proof (findkey_loop_no_overrun BUFMAX_CELLS
                (set_map_sets (kui_reset_state_data (kui_map_set_list kctx))
                              kctx)
                0 (bufmax_init stack) eq_refl) as Hloop.
  cbn [set_map_sets kui_map_set_list] in Hloop.
  rewrite reset_map_lists in Hloop.
  specialize (Hloop Hshort (or_introl eq_refl)).
  change (Z.of_nat 0 - 1) with (-1) in Hloop.
  destruct (findkey_loop _ _ _ _) as [pos bufmax k'|k'|pos k'].
  - cbn [set_map_sets kui_map_set_list buffer].
    destruct (kui_was_map_found _ _ _) as [[r was] the].
    destruct (r =? -1); [discriminate|].
    destruct (kui_update_buffer _ _ _ _ _ _) as [[r' b] key].
    destruct (r' =? -1); discriminate.
  - discriminate.
  - exfalso. exact (Hloop pos k' eq_refl).
Qed.

End Bound.

(** X10. Keys that fit are never stored behind bufmax.  When every key of
    every map set of the context has fewer than 1024 tokens, no pass of a
    call stores a key behind the last cell of bufmax, whatever the input
    and however many passes the call makes. *)
Theorem short_keys_never_overrun {source : Type} (passes : nat) :
  forall (kctx : kuictx source) (stack : nat -> Z),
    keys_shorter BUFMAX_CELLS (map_list <$> kui_map_set_list kctx) ->
    getkey_overruns (kui_getkey passes kctx stack) = false.
Proof.
  induction passes as [|passes IH]; intros kctx stack Hshort;
    cbn [kui_getkey]; [reflexivity|].
  pose proof (findkey_no_overrun kctx stack Hshort) as Hno.
  pose proof (findkey_map_lists kctx stack) as Hlists.
  destruct (kui_findkey kctx stack) as [key found k'|pos k'].
  - destruct (key =? -1); [reflexivity|].
    destruct found; [|reflexivity].
    apply IH. rewrite Hlists. assumption.
  - exfalso. exact (Hno pos k' eq_refl).
Qed.

Lemma short_keys_never_overrun_witness :
  getkey_overruns
    (kui_getkey 2 (kui_create_on [97; 100] [prefix_maps]) (fun _ => 0))
  = false.
Proof.
  apply (short_keys_never_overrun 2
           (kui_create_on [97; 100] [prefix_maps]) (fun _ => 0)).
  repeat first [apply Forall_nil_2 | apply Forall_cons_2];
    unfold BUFMAX_CELLS; simpl; lia.
Defined.

(** X11. A call leaves the registered maps alone: whatever it returns, and
    after any number of passes, every map set of the context holds the
    list of maps it held before. *)
Theorem getkey_keeps_map_lists {source : Type} (passes : nat) :
  forall (kctx : kuictx source) (stack : nat -> Z),
    match kui_getkey passes kctx stack with
    | Getkey_return _ k | Getkey_overrun _ k | Getkey_running k =>
        map_list <$> kui_map_set_list k = map_list <$> kui_map_set_list kctx
    end.
Proof.
  induction passes as [|passes IH]; intros kctx stack;
    cbn [kui_getkey]; [reflexivity|].
  pose proof (findkey_map_lists kctx stack) as Hlists.
  destruct (kui_findkey kctx stack) as [key found k'|pos k'];
    [|assumption].
  destruct (key =? -1); [assumption|].
  destruct found; [|assumption].
  specialize (IH k' stack).
  destruct (kui_getkey passes k' stack); congruence.
Qed.

(** ** A pass over one map set *)

Lemma intlen_from_bounds (val : list Z) : forall n,
  n <= intlen_from val n <= n + Z.of_nat (length val).
Proof.
  induction val as [|c val IH]; intros n; cbn [intlen_from length]; [lia|].
  destruct (c =? 0); [lia|]. specialize (IH (n + 1)). lia.
Qed.

(** Putting a value back: the cells before its terminator, in order. *)
Lemma prepend_down_value (val buffer : list Z) :
  prepend_down (Z.to_nat (intlen val)) val (intlen val - 1) buffer
  = take (Z.to_nat (intlen val)) val ++ buffer.
Proof.
  pose proof (intlen_from_bounds val 0) as Hb. fold (intlen val) in Hb.
  destruct (Z.to_nat (intlen val)) as [|n] eqn:Hn; [reflexivity|].
  replace (intlen val - 1) with (Z.of_nat n) by lia.
  rewrite prepend_down_cells by lia.
  replace (S n - S n)%nat with 0%nat by lia.
  rewrite ix_seq_take by lia. reflexivity.
Qed.

Lemma update_state_negative_key kui_ms key position :
  key < 0 -> fst (kui_ms_update_state kui_ms key position) = -1.
Proof.
  intros Hkey. apply (update_state_returns kui_ms key position). auto.
Qed.

Section OneSet.

Context {source : Type}.
Implicit Types kctx : kuictx source.

(** The loop of a pass over a single map set: the keys it has read when it
    leaves by a break are positive, and the map set is what the update
    calls for these keys make of it. *)
Lemma findkey_loop_one_set :
  forall room kctx p bufmax kui_ms position bufmax' kloop,
    kui_map_set_list kctx = [kui_ms] ->
    map_state kui_ms = KUI_MAP_STILL_LOOKING ->
    findkey_loop room kctx (Z.of_nat p - 1) bufmax
    = Loop_break position bufmax' kloop ->
    exists n,
      position = Z.of_nat (p + n) - 1 /\
      positive_key (fst (findchar_n n kctx)) /\
      kui_map_set_list kloop =
      [run_updates kui_ms (scan_calls_from p (fst (findchar_n n kctx)))].
Proof.
  induction room as [|room IH];
    intros kctx p bufmax kui_ms position bufmax' kloop Hsets Hst Hloop;
    cbn [findkey_loop] in Hloop;
    pose proof (findchar_map_sets kctx) as Hk;
    destruct (kui_findchar kctx) as [key k1] eqn:Hread; cbn [snd] in Hk;
    (destruct (Z.eqb_spec key 0) as [->|Hkey];
     [injection Hloop as <- <- <-; exists 0%nat;
      split; [lia|]; split; [constructor|];
      cbn [findchar_n fst scan_calls_from run_updates]; congruence|]);
    [discriminate|].
  replace (Z.of_nat p - 1 + 1) with (Z.of_nat p) in Hloop by lia.
  rewrite Hk, Hsets in Hloop. cbn [kui_update_each_list] in Hloop.
  unfold kui_ms_get_state in Hloop. rewrite Hst in Hloop.
  cbn [kui_map_state_eqb negb] in Hloop.
  pose proof (update_state_negative_key kui_ms key (Z.of_nat p)) as Hneg.
  destruct (kui_ms_update_state kui_ms key (Z.of_nat p)) as [r s'] eqn:Hup.
  cbn [fst] in Hneg.
  destruct (Z.eqb_spec r (-1)) as [|Hr]; [discriminate|].
  assert (0 < key) as Hpos by lia.
  unfold set_map_sets at 1 2 in Hloop.
  cbn [kui_map_set_list kui_should_continue_looking] in Hloop.
  unfold kui_ms_get_state in Hloop.
  assert (forall n keys,
            fst (findchar_n n k1) = keys ->
            fst (findchar_n (S n) kctx) = key :: keys /\
            run_updates kui_ms (scan_calls_from p (key :: keys))
            = run_updates s' (scan_calls_from (S p) keys)) as Hnext.
  { intros n keys <-. rewrite findchar_n_S, Hread. cbn [fst snd].
    split; [reflexivity|]. cbn [scan_calls_from run_updates].
    rewrite Hup. reflexivity. }
  destruct (map_state s') eqn:Hs'; cbn [kui_map_state_eqb negb] in Hloop;
    try (injection Hloop as <- <- <-; exists 1%nat;
         destruct (Hnext 0%nat [] eq_refl) as [-> ->];
         split; [lia|]; split; [repeat constructor; assumption|];
         reflexivity).
  replace (Z.of_nat p) with (Z.of_nat (S p) - 1) in Hloop at 1 by lia.
  apply (IH _ _ _ s') in Hloop; [|reflexivity|assumption].
  destruct Hloop as (n & Hposn & Hkeys & Hafter).
  rewrite findchar_n_set_map_sets in Hkeys, Hafter. cbn [fst] in Hkeys, Hafter.
  exists (S n). destruct (Hnext n _ eq_refl) as [-> ->].
  split; [lia|]. split; [constructor; assumption|]. exact Hafter.
Qed.

End OneSet.

(** X12. What a pass over one map set does with the keys it has read.
    The map list is sorted and its keys hold no zero; the loop has left by
    a break with at least one key stored.  If some non-empty key is a
    prefix of the keys read, the pass reports a map found, and the buffer
    then begins with the value of the map with the longest such key, up to
    its terminator, followed by the keys read behind that key and by what
    the reads had left.  If there is none, the pass returns the first key
    read and puts the others back. *)
Theorem one_set_pass_substitutes {source : Type}
    (kctx kloop : kuictx source) (kui_ms : kui_map_set) (stack : nat -> Z)
    (position : Z) (bufmax : list Z) :
  kui_map_set_list kctx = [kui_ms] ->
  sorted_by_literal_key (map_list kui_ms) ->
  proper_keys (map_list kui_ms) ->
  findkey_loop BUFMAX_CELLS
    (set_map_sets (kui_reset_state_data (kui_map_set_list kctx)) kctx)
    (-1) (bufmax_init stack)
  = Loop_break position bufmax kloop ->
  0 <= position ->
  let consumed := fst (findchar_n (Z.to_nat (position + 1)) kctx) in
  (exists f F kctx',
     longest_prefix_key (map_list kui_ms) consumed f /\
     map_list kui_ms !! f = Some F /\
     kui_findkey kctx stack = Findkey_return 0 true kctx' /\
     buffer kctx' =
       take (Z.to_nat (intlen (literal_value F))) (literal_value F)
       ++ drop (length (literal_key F)) consumed ++ buffer kloop)
  \/
  ((forall i D, map_list kui_ms !! i = Some D ->
                literal_key D `prefix_of` consumed -> literal_key D = []) /\
   exists first rest kctx',
     consumed = first :: rest /\
     kui_findkey kctx stack = Findkey_return first false kctx' /\
     buffer kctx' = rest ++ buffer kloop).
Proof.
  intros Hsets Hs Hp Hloop Hpos consumed.
  pose proof Hloop as Htrace. change (-1) with (Z.of_nat 0 - 1) in Htrace.
  pose proof Htrace as Hone.
  apply findkey_loop_trace in Htrace;
    [|rewrite bufmax_init_length; cbn [Nat.add]; lia].
  destruct Htrace as (n & Hposn & Hfit & Hlen & _ & Hnew & _ & _).
  apply (findkey_loop_one_set _ _ _ _ (kui_ms_reset_state kui_ms)) in Hone;
    [|cbn [set_map_sets kui_map_set_list]; rewrite Hsets; reflexivity
     |reflexivity].
  destruct Hone as (n' & Hposn' & Hkeys & Hafter).
  assert (n' = n) as -> by lia.
  rewrite findchar_n_set_map_sets in Hnew, Hkeys, Hafter.
  cbn [fst Nat.add] in Hposn, Hfit, Hnew, Hkeys, Hafter.
  assert (Z.to_nat (position + 1) = n) as Hn by lia.
  subst consumed. rewrite Hn.
  set (consumed := fst (findchar_n n kctx)) in *.
  assert (length consumed = n) as Hcons.
  { rewrite <- Hnew, length_fmap, length_seq. reflexivity. }
  pose proof (scan_invariant_run (map_list kui_ms) Hs Hp consumed []
                (kui_ms_reset_state kui_ms) Hkeys
                (scan_invariant_reset _ Hs Hp _ eq_refl)) as Hinv.
  cbn [app length] in Hinv.
  set (after := run_updates (kui_ms_reset_state kui_ms)
                            (scan_calls_from 0 consumed)) in *.
  destruct Hinv as (Hmaps & Hon & Hoff & Hstate).
  unfold kui_findkey. rewrite Hloop.
  unfold set_map_sets. cbn [kui_map_set_list buffer].
  rewrite Hafter. unfold kui_update_list_state.
  cbn [fmap list_fmap]. unfold kui_ms_finalize_state.
  destruct (is_found after) eqn:Hf.
  - left. destruct (Hon eq_refl) as (f & Hfi & Hlong).
    pose proof Hlong as (F & HF & Hne & HFP & _).
    exists f, F.
    cbn [kui_was_map_found]. unfold kui_ms_get_state.
    cbn [set_map_iter set_map_state map_state kui_map_state_eqb map_list
         map_iter std_list_get_data].
    rewrite Hfi, Hmaps. cbn [std_list_get_data]. rewrite HF.
    cbn [kui_was_map_found Z.eqb]. unfold kui_update_buffer.
    rewrite (intlen_zero_free _ (proper_keys_lookup _ _ _ Hp HF)).
    rewrite prepend_down_value.
    apply prefix_length in HFP.
    destruct n as [|n0]; [lia|].
    replace position with (Z.of_nat n0) by lia.
    replace (Z.to_nat (Z.of_nat n0 - Z.of_nat (length (literal_key F)) + 1))
      with (S n0 - length (literal_key F))%nat by lia.
    rewrite prepend_down_cells by lia.
    replace (S n0 - (S n0 - length (literal_key F)))%nat
      with (0 + length (literal_key F))%nat by lia.
    rewrite <- drop_seq, fmap_drop, Hnew.
    cbn [Z.eqb]. eexists.
    split; [assumption|]. split; [reflexivity|]. split; reflexivity.
  - right. split; [exact (Hoff eq_refl)|].
    assert (map_state after <> KUI_MAP_FOUND) as Hnf.
    { intros Hfound. rewrite Hfound in Hstate.
      destruct Hstate as [Hf' _]. congruence. }
    cbv iota.
    rewrite (was_map_found_none [after] false None)
      by (repeat constructor; assumption).
    cbn [Z.eqb]. unfold kui_update_buffer.
    destruct n as [|n0]; [lia|].
    replace (position - 1 + 1) with (Z.of_nat n0) by lia.
    replace position with (Z.of_nat n0) by lia.
    rewrite Nat2Z.id, prepend_down_cells by lia.
    replace (S n0 - n0)%nat with 1%nat by lia.
    rewrite <- Hnew. cbn [seq fmap list_fmap Z.eqb].
    exists (ix bufmax 0), (ix bufmax <$> seq 1 n0). eexists.
    split; [reflexivity|]. split; reflexivity.
Qed.

Lemma one_set_pass_substitutes_witness :
  let consumed := fst (findchar_n (Z.to_nat (1 + 1)) prefix_ctx) in
  (exists f F kctx',
     longest_prefix_key (map_list prefix_maps) consumed f /\
     map_list prefix_maps !! f = Some F /\
     kui_findkey prefix_ctx (fun _ => 0) = Findkey_return 0 true kctx' /\
     buffer kctx' =
       take (Z.to_nat (intlen (literal_value F))) (literal_value F)
       ++ drop (length (literal_key F)) consumed ++ buffer prefix_ctx_loop)
  \/
  ((forall i D, map_list prefix_maps !! i = Some D ->
                literal_key D `prefix_of` consumed -> literal_key D = []) /\
   exists first rest kctx',
     consumed = first :: rest /\
     kui_findkey prefix_ctx (fun _ => 0) = Findkey_return first false kctx' /\
     buffer kctx' = rest ++ buffer prefix_ctx_loop).
Proof.
  apply (one_set_pass_substitutes prefix_ctx prefix_ctx_loop prefix_maps
           (fun _ => 0) 1
           (<[1%nat:=100]> (<[0%nat:=97]> (bufmax_init (fun _ => 0))))).
  - reflexivity.
  - repeat constructor. vm_compute. discriminate.
  - repeat constructor; vm_compute; discriminate.
  - vm_compute. reflexivity.
  - lia.
Defined.

(** ** A key of one map set that begins a key of another *)

Lemma should_continue_true sets : forall b,
  b = true \/ Exists (fun s => map_state s = KUI_MAP_STILL_LOOKING) sets ->
  kui_should_continue_looking sets b = true.
Proof.
  induction sets as [|s sets IH]; intros b H;
    cbn [kui_should_continue_looking].
  - destruct H as [H|H]; [assumption|inversion H].
  - apply IH. unfold kui_ms_get_state.
    destruct H as [->|H].
    + left. destruct (kui_map_state_eqb _ _); reflexivity.
    + apply Exists_cons in H as [->|H]; [left; reflexivity|right; assumption].
Qed.

(** The first token of a key of two or more tokens leaves the single map
    of a set under the cursor, the set STILL_LOOKING. *)
Lemma update_longer_key m a b rest :
  literal_key m = a :: b :: rest -> 0 < a -> b <> 0 ->
  kui_ms_update_state (single_scanning m) a 0 = (0, single_scanning m).
Proof.
  intros Hkey Ha Hb. unfold kui_ms_update_state.
  destruct (Z.ltb_spec a 0); [lia|].
  cbn [Z.ltb Z.compare single_scanning map_state map_iter map_list
       kui_map_state_eqb negb std_list_get_data lookup list_lookup drop
       update_search].
  change (intncmp (literal_key m) (literal_key m) 0) with 0.
  change (Z.to_nat 0) with 0%nat. rewrite Hkey, ix_head.
  rewrite Z.gtb_ltb, Z.ltb_irrefl, (Z.eqb_refl a).
  cbn [Z.eqb negb orb andb]. ms_simpl.
  rewrite iter_eqb_Some, bool_decide_eq_false_2 by (simpl; lia).
  unfold intlen. cbn [intlen_from].
  destruct (Z.eqb_spec a 0); [lia|].
  destruct (Z.eqb_spec b 0); [contradiction|].
  pose proof (intlen_from_bounds rest (0 + 1 + 1)) as Hlen.
  destruct (Z.eqb_spec (intlen_from rest (0 + 1 + 1)) (0 + 1)); [lia|].
  cbn [negb]. reflexivity.
Qed.

Section Across.

Context {source : Type}.
Implicit Types kctx : kuictx source.

(** A pass in which the first key leaves one map set FOUND and another
    STILL_LOOKING fails at the next key. *)
Lemma findkey_fails_after_found kctx k1 k2 a c sets1 stack :
  kui_findchar kctx = (a, k1) -> kui_findchar k1 = (c, k2) ->
  a <> 0 -> c <> 0 ->
  kui_update_each_list (kui_reset_state_data (kui_map_set_list kctx)) a 0
  = (0, sets1) ->
  Exists (fun s => map_state s = KUI_MAP_FOUND) sets1 ->
  Exists (fun s => map_state s = KUI_MAP_STILL_LOOKING) sets1 ->
  exists k, kui_findkey kctx stack = Findkey_return (-1) false k.
Proof.
  intros Hread1 Hread2 Ha Hc Hrun Hfound Hstill.
  pose proof (findchar_map_sets kctx) as Hk. rewrite Hread1 in Hk.
  cbn [snd] in Hk.
  unfold kui_findkey. change BUFMAX_CELLS with (S (S 1022)).
  rewrite (findkey_loop_step _ _ _ _ a
             (set_map_sets (kui_reset_state_data (kui_map_set_list kctx)) k1))
    by (first [assumption
              | rewrite findchar_set_map_sets, Hread1; reflexivity]).
  cbn [set_map_sets kui_map_set_list fst snd].
  change (-1 + 1) with 0. rewrite Hrun. cbn [Z.eqb].
  cbn [set_map_sets kui_map_set_list].
  rewrite (should_continue_true sets1 false (or_intror Hstill)).
  cbn [negb].
  rewrite (findkey_loop_step _ _ _ _ c
             (set_map_sets sets1
                (set_map_sets (kui_reset_state_data (kui_map_set_list kctx))
                              k2)))
    by (first [assumption
              | rewrite !findchar_set_map_sets, Hread2; reflexivity]).
  cbn [set_map_sets kui_map_set_list fst snd].
  destruct (update_each_list_returns sets1 c (0 + 1)) as (_ & Hfail).
  destruct (kui_update_each_list sets1 c (0 + 1)) as [r sets2].
  cbn [fst] in Hfail.
  assert (r = -1) as ->.
  { apply Hfail. eapply Exists_impl; [exact Hfound|].
    intros s Hs. simpl. rewrite Hs. split; [discriminate|].
    right. right. left. discriminate. }
  cbn [Z.eqb]. eexists. reflexivity.
Qed.

End Across.

(** X13. A key of one map set that begins a key of another map set makes
    the call fail.  The context holds two map sets with one map each, the
    key of the one a single token [a], the key of the other beginning
    with [a] and a second token; the input delivers [a] and then any key
    but 0.  The first key leaves the one set FOUND and the other
    STILL_LOOKING, the update for the second key is refused by the set
    that is FOUND, and the call returns -1. *)
Theorem prefix_across_sets_fails {source : Type}
    (kctx k1 k2 : kuictx source) (s1 s2 : kui_map_set) (m1 m2 : kui_map)
    (a b c : Z) (rest : list Z) (stack : nat -> Z) (passes : nat) :
  kui_map_set_list kctx = [s1; s2] \/ kui_map_set_list kctx = [s2; s1] ->
  map_list s1 = [m1] -> map_list s2 = [m2] ->
  literal_key m1 = [a] -> literal_key m2 = a :: b :: rest ->
  0 < a -> b <> 0 -> c <> 0 ->
  kui_findchar kctx = (a, k1) -> kui_findchar k1 = (c, k2) ->
  exists k, kui_getkey (S passes) kctx stack = Getkey_return (-1) k.
Proof.
  intros Hsets Hm1 Hm2 Hkey1 Hkey2 Ha Hb Hc Hread1 Hread2.
  assert (kui_ms_update_state (single_scanning m1) a 0 = (0, single_found m1))
    as Hup1.
  { pose proof (update_single m1 0 a) as Hup.
    rewrite Hkey1 in Hup. change (Z.of_nat 0) with 0 in Hup.
    apply Hup; [repeat constructor; assumption|reflexivity]. }
  pose proof (update_longer_key m2 a b rest Hkey2 Ha Hb) as Hup2.
  assert (exists sets1,
            kui_update_each_list
              (kui_reset_state_data (kui_map_set_list kctx)) a 0
            = (0, sets1) /\
            Exists (fun s => map_state s = KUI_MAP_FOUND) sets1 /\
            Exists (fun s => map_state s = KUI_MAP_STILL_LOOKING) sets1)
    as (sets1 & Hrun & Hfound & Hstill).
  { destruct Hsets as [-> | ->]; unfold kui_reset_state_data;
      cbn [fmap list_fmap]; rewrite (reset_single _ _ Hm1),
        (reset_single _ _ Hm2); cbn [kui_update_each_list];
      unfold kui_ms_get_state;
      cbn [single_scanning map_state kui_map_state_eqb negb];
      fold (single_scanning m1); fold (single_scanning m2);
      rewrite Hup1, Hup2; cbn [Z.eqb]; eexists;
      (split; [reflexivity|]); split.
    - left. reflexivity.
    - right. left. reflexivity.
    - right. left. reflexivity.
    - left. reflexivity. }
  destruct (findkey_fails_after_found kctx k1 k2 a c sets1 stack
              Hread1 Hread2 ltac:(lia) Hc Hrun Hfound Hstill) as (k & Hpass).
  exists k. cbn [kui_getkey]. rewrite Hpass. reflexivity.
Qed.

Lemma prefix_across_sets_fails_witness :
  exists k,
    kui_getkey 1
      (kui_create_on [97; 98] [kui_ms_of [map_a_X]; kui_ms_of [map_abc_Y]])
      (fun _ => 0)
    = Getkey_return (-1) k.
Proof.
  apply (prefix_across_sets_fails
           (kui_create_on [97; 98] [kui_ms_of [map_a_X]; kui_ms_of [map_abc_Y]])
           (kui_create_on [98] [kui_ms_of [map_a_X]; kui_ms_of [map_abc_Y]])
           (kui_create_on [] [kui_ms_of [map_a_X]; kui_ms_of [map_abc_Y]])
           (kui_ms_of [map_a_X]) (kui_ms_of [map_abc_Y]) map_a_X map_abc_Y
           97 98 98 [99] (fun _ => 0) 0).
  - left. reflexivity.
  - reflexivity.
  - reflexivity.
  - reflexivity.
  - reflexivity.
  - lia.
  - discriminate.
  - discriminate.
  - reflexivity.
  - reflexivity.
Defined.

(** ** Several map sets FOUND *)

(** X14. The last map set that is FOUND decides.  When the map sets that
    are FOUND all have their cursor on a map, the walk over the map sets
    reports a map found and hands out the map under the cursor of the
    last of them in the list, whatever the earlier ones hold. *)
Theorem was_map_found_last_wins (pre post : list kui_map_set)
    (kui_ms : kui_map_set) (m : kui_map) (was : bool)
    (the : option kui_map) :
  Forall (fun s => map_state s = KUI_MAP_FOUND ->
                   std_list_get_data (map_list s) (map_iter s) <> None) pre ->
  map_state kui_ms = KUI_MAP_FOUND ->
  std_list_get_data (map_list kui_ms) (map_iter kui_ms) = Some m ->
  Forall (fun s => map_state s <> KUI_MAP_FOUND) post ->
  kui_was_map_found (pre ++ kui_ms :: post) was the = (0, true, Some m).
Proof.
  intros Hpre Hst Hm Hpost. revert was the.
  induction Hpre as [|s pre Hs _ IH]; intros was the.
  - cbn [app kui_was_map_found]. unfold kui_ms_get_state.
    rewrite Hst, Hm. cbn [kui_map_state_eqb].
    apply was_map_found_none. assumption.
  - cbn [app kui_was_map_found]. unfold kui_ms_get_state.
    destruct (map_state s) eqn:Hss; cbn [kui_map_state_eqb]; try apply IH.
    destruct (std_list_get_data (map_list s) (map_iter s)) eqn:Hd;
      [apply IH|]. exfalso. exact (Hs eq_refl eq_refl).
Qed.

Lemma was_map_found_last_wins_witness :
  kui_was_map_found
    ([single_found map_a_X] ++ single_found map_a_a
       :: [single_scanning map_abc_Y]) false None
  = (0, true, Some map_a_a).
Proof.
  apply (was_map_found_last_wins [single_found map_a_X]
           [single_scanning map_abc_Y] (single_found map_a_a) map_a_a
           false None).
  - repeat constructor. discriminate.
  - reflexivity.
  - reflexivity.
  - repeat constructor. discriminate.
Defined.

(** ** Keys put back *)

(** X15. Keys put back come first.  While the buffer holds keys, the
    reads deliver them in order, from its head, and neither ask the
    source nor touch anything but the buffer; the call that asks whether
    a key can be had answers 1 meanwhile. *)
Theorem buffered_keys_come_first {source : Type} (kctx : kuictx source)
    (keys rest : list Z) :
  buffer kctx = keys ++ rest ->
  findchar_n (length keys) kctx = (keys, set_buffer rest kctx) /\
  (keys <> [] -> kui_cangetkey kctx = 1).
Proof.
  intros Hbuf. split; [apply findchar_n_buffer; assumption|].
  intros Hne. unfold kui_cangetkey. rewrite Hbuf.
  destruct keys as [|key keys]; [contradiction|]. reflexivity.
Qed.

Lemma buffered_keys_come_first_witness :
  findchar_n (length [88; 100]) prefix_ctx_pass
  = ([88; 100], set_buffer [] prefix_ctx_pass) /\
  ([88; 100] <> [] -> kui_cangetkey prefix_ctx_pass = 1).
Proof.
  apply (buffered_keys_come_first prefix_ctx_pass [88; 100] []).
  reflexivity.
Defined.

(** ** Sorted keys and common prefixes *)

(** X16. In a list of maps sorted by [intcmp] the keys that begin with a
    given sequence stand together: a map between two maps whose keys
    begin with [P] has a key that begins with [P]. *)
Theorem keys_with_prefix_stand_together (maps : list kui_map) (P : list Z)
    (i j k : nat) (mi mj mk : kui_map) :
  sorted_by_literal_key maps -> proper_keys maps ->
  (i <= j)%nat -> (j <= k)%nat ->
  maps !! i = Some mi -> maps !! j = Some mj -> maps !! k = Some mk ->
  P `prefix_of` literal_key mi -> P `prefix_of` literal_key mk ->
  P `prefix_of` literal_key mj.
Proof.
  intros Hs Hp Hij Hjk Hi Hj Hk HPi HPk.
  destruct (decide (i = j)) as [->|Hne1]; [congruence|].
  destruct (decide (j = k)) as [->|Hne2]; [congruence|].
  assert (shares_prefix (length P) (literal_key mi) (literal_key mj)) as Hsh.
  { apply (shares_prefix_between _ _ _ (literal_key mk));
      try (eapply proper_keys_lookup; eassumption).
    - apply (sorted_lookup_le maps Hs Hp i j); [lia|assumption..].
    - apply (sorted_lookup_le maps Hs Hp j k); [lia|assumption..].
    - unfold shares_prefix.
      destruct HPi as [x ->], HPk as [z ->].
      rewrite !take_app_length. reflexivity. }
  unfold shares_prefix in Hsh. destruct HPi as [x Hx].
  rewrite Hx, take_app_length in Hsh. rewrite Hsh. apply prefix_take.
Qed.

Lemma keys_with_prefix_stand_together_witness :
  [97] `prefix_of` literal_key map_abc_Y.
Proof.
  apply (keys_with_prefix_stand_together
           [map_a_X; map_abc_Y; map_abc_Y] [97] 0 1 2
           map_a_X map_abc_Y map_abc_Y).
  - repeat constructor; vm_compute; discriminate.
  - repeat constructor; vm_compute; discriminate.
  - lia.
  - lia.
  - reflexivity.
  - reflexivity.
  - reflexivity.
  - exists []. reflexivity.
  - exists [98; 99]. reflexivity.
Defined.

(** ** Deregistration of a map behind the first *)




(** ** One map set: the loop always leaves by a break *)

(** A map set that an update call leaves STILL_LOOKING has its cursor on
    a map. *)
Lemma update_still_cursor kui_ms key position :
  fst (kui_ms_update_state kui_ms key position) <> -1 ->
  map_state (snd (kui_ms_update_state kui_ms key position))
  = KUI_MAP_STILL_LOOKING ->
  std_list_get_data
    (map_list (snd (kui_ms_update_state kui_ms key position)))
    (map_iter (snd (kui_ms_update_state kui_ms key position))) <> None.
Proof.
  unfold kui_ms_update_state.
  destruct (position <? 0); [cbn; congruence|].
  destruct (key <? 0); [cbn; congruence|].
  destruct (negb _); [cbn; congruence|].
  destruct (map_iter kui_ms) as [start|]; [|cbn; congruence].
  cbn [std_list_get_data].
  destruct (map_list kui_ms !! start) as [anchor|] eqn:Hanchor;
    [|cbn; congruence].
  apply lookup_lt_Some in Hanchor as Hlt.
  pose proof (update_search_range (drop start (map_list kui_ms))
                (literal_key anchor) key position start
                (map_state kui_ms) (literal_key anchor)) as Hrange.
  rewrite length_drop in Hrange.
  destruct (update_search _ _ _ _ _ _ _) as [[j st] cur] eqn:Hrun.
  simpl in Hrange. ms_simpl.
  destruct (kui_map_state_eqb st KUI_MAP_NOT_FOUND) eqn:Hnf.
  { cbn. intros _ Hs. rewrite Hs in Hnf. discriminate. }
  rewrite iter_eqb_Some. case_bool_decide as Hend; [cbn; discriminate|].
  assert (map_list kui_ms !! j <> None) as Hon.
  { intros Hnone. apply lookup_ge_None in Hnone.
    apply Hend. f_equal. lia. }
  repeat case_match; cbn; intros Hr Hs; try congruence.
Qed.

Section OneSetBreak.

Context {source : Type}.
Implicit Types kctx : kuictx source.

Lemma reads_nonnegative_next kctx key k1 :
  kui_findchar kctx = (key, k1) -> reads_nonnegative kctx ->
  0 <= key /\ reads_nonnegative k1.
Proof.
  intros Hread Hall. split.
  - specialize (Hall 1%nat). rewrite findchar_n_S, Hread in Hall.
    cbn [fst] in Hall. inversion Hall; assumption.
  - intros n. specialize (Hall (S n)). rewrite findchar_n_S, Hread in Hall.
    cbn [fst snd] in Hall. inversion Hall; assumption.
Qed.

Lemma reads_nonnegative_set_map_sets sets kctx :
  reads_nonnegative kctx -> reads_nonnegative (set_map_sets sets kctx).
Proof.
  intros Hall n. rewrite findchar_n_set_map_sets. exact (Hall n).
Qed.

Lemma findkey_loop_one_set_no_fail : forall room kctx p bufmax kui_ms,
  kui_map_set_list kctx = [kui_ms] ->
  map_state kui_ms = KUI_MAP_STILL_LOOKING ->
  std_list_get_data (map_list kui_ms) (map_iter kui_ms) <> None ->
  reads_nonnegative kctx ->
  forall k, findkey_loop room kctx (Z.of_nat p - 1) bufmax <> Loop_fail k.
Proof.
  induction room as [|room IH];
    intros kctx p bufmax kui_ms Hsets Hst Hon Hall k;
    cbn [findkey_loop];
    pose proof (findchar_map_sets kctx) as Hk;
    destruct (kui_findchar kctx) as [key k1] eqn:Hread; cbn [snd] in Hk;
    (destruct (Z.eqb_spec key 0) as [|Hkey]; [discriminate|]);
    [discriminate|].
  destruct (reads_nonnegative_next _ _ _ Hread Hall) as [Hpos Hall1].
  replace (Z.of_nat p - 1 + 1) with (Z.of_nat p) by lia.
  rewrite Hk, Hsets. cbn [kui_update_each_list].
  unfold kui_ms_get_state. rewrite Hst. cbn [kui_map_state_eqb negb].
  destruct (update_state_returns kui_ms key (Z.of_nat p)) as (Hr & Hiff & _).
  pose proof (update_still_cursor kui_ms key (Z.of_nat p)) as Hcur.
  destruct (kui_ms_update_state kui_ms key (Z.of_nat p)) as [r s'].
  cbn [fst snd] in Hr, Hiff, Hcur.
  destruct Hr as [-> | ->].
  { exfalso. destruct Hiff as [Hiff _].
    destruct (Hiff eq_refl) as [?|[?|[?|?]]]; try lia; contradiction. }
  change (0 =? -1) with false. cbv iota.
  cbn [set_map_sets kui_map_set_list kui_should_continue_looking].
  unfold kui_ms_get_state.
  destruct (map_state s') eqn:Hs'; cbn [kui_map_state_eqb negb];
    try discriminate.
  replace (Z.of_nat p) with (Z.of_nat (S p) - 1) at 1 by lia.
  apply (IH _ _ _ s'); [reflexivity|exact Hs'| |].
  - apply Hcur; [discriminate|reflexivity].
  - apply reads_nonnegative_set_map_sets. assumption.
Qed.

(** A break of the loop after a first read that found data has stored a
    key. *)
Lemma findkey_loop_break_stored room kctx p bufmax position bufmax' kloop :
  findkey_loop room kctx (Z.of_nat p - 1) bufmax
  = Loop_break position bufmax' kloop ->
  (p + room <= length bufmax)%nat ->
  fst (kui_findchar kctx) <> 0 -> Z.of_nat p <= position.
Proof.
  intros Hloop Hroom Hfirst.
  destruct room as [|room]; cbn [findkey_loop] in Hloop;
    destruct (kui_findchar kctx) as [key k1]; cbn [fst] in Hfirst;
    (destruct (Z.eqb_spec key 0) as [|Hkey]; [contradiction|]);
    [discriminate|].
  destruct (kui_update_each_list _ _ _) as [r sets].
  destruct (r =? -1); [discriminate|].
  destruct (negb _).
  - injection Hloop as Hp _ _. lia.
  - replace (Z.of_nat p - 1 + 1) with (Z.of_nat (S p) - 1) in Hloop by lia.
    apply findkey_loop_trace in Hloop; [|rewrite length_insert; lia].
    destruct Hloop as (n & Hposn & _). lia.
Qed.

End OneSetBreak.

(** A list source that holds no negative key delivers none. *)
Lemma list_source_nonnegative sets m f : forall buf pending,
  Forall (fun key => 0 <= key) buf ->
  Forall (fun key => 0 <= key) pending ->
  reads_nonnegative
    {| kui_map_set_list := sets; buffer := buf; callback := list_callback;
       ms := m; state_data := pending; fd := f |}.
Proof.
  intros buf pending Hbuf Hpending n. revert buf pending Hbuf Hpending.
  induction n as [|n IH]; intros buf pending Hbuf Hpending;
    [constructor|].
  rewrite findchar_n_S. unfold kui_findchar. cbn [buffer fst].
  destruct buf as [|key buf].
  - cbn [callback fd ms state_data list_callback].
    destruct pending as [|key pending];
      cbn [list_callback fst snd set_state_data buffer kui_map_set_list
           callback ms fd state_data].
    + constructor; [lia|]. apply IH; constructor.
    + inversion Hpending; subst. constructor; [assumption|].
      apply IH; [constructor|assumption].
  - cbn [fst snd set_buffer buffer kui_map_set_list callback ms fd
         state_data].
    inversion Hbuf; subst. constructor; [assumption|].
    apply IH; assumption.
Qed.

(** X18. With one map set a pass never fails in its loop.  When the
    context holds a single map set with at least one map, every key has
    fewer than 1024 tokens, and neither the buffer nor the source delivers
    a negative key, the loop of a pass leaves by a break: no update call
    is refused, and no key is stored behind bufmax; and it has stored a
    key unless the first read found no data. *)
Theorem one_set_pass_leaves_by_break {source : Type}
    (kctx : kuictx source) (kui_ms : kui_map_set) (stack : nat -> Z) :
  kui_map_set_list kctx = [kui_ms] ->
  map_list kui_ms <> [] ->
  keys_shorter BUFMAX_CELLS [map_list kui_ms] ->
  reads_nonnegative kctx ->
  exists position bufmax kloop,
    findkey_loop BUFMAX_CELLS
      (set_map_sets (kui_reset_state_data (kui_map_set_list kctx)) kctx)
      (-1) (bufmax_init stack)
    = Loop_break position bufmax kloop /\
    (fst (kui_findchar kctx) <> 0 -> 0 <= position).
Proof.
  intros Hsets Hne Hshort Hall.
  pose proof (findkey_loop_one_set_no_fail BUFMAX_CELLS
                (set_map_sets (kui_reset_state_data (kui_map_set_list kctx))
                              kctx)
                0 (bufmax_init stack) (kui_ms_reset_state kui_ms)) as Hnofail.
  pose proof (findkey_loop_no_overrun BUFMAX_CELLS
                (set_map_sets (kui_reset_state_data (kui_map_set_list kctx))
                              kctx)
                0 (bufmax_init stack) eq_refl) as Hnoover.
  pose proof (findkey_loop_break_stored BUFMAX_CELLS
                (set_map_sets (kui_reset_state_data (kui_map_set_list kctx))
                              kctx)
                0 (bufmax_init stack)) as Hstored.
  cbn [set_map_sets kui_map_set_list] in Hnofail, Hnoover.
  rewrite reset_map_lists, Hsets in Hnoover.
  rewrite Hsets in Hnofail, Hstored.
  specialize (Hnofail eq_refl eq_refl).
  specialize (Hnoover Hshort (or_introl eq_refl)).
  assert (std_list_get_data (map_list (kui_ms_reset_state kui_ms))
            (map_iter (kui_ms_reset_state kui_ms)) <> None) as Hon.
  { cbn [kui_ms_reset_state map_list map_iter]. unfold std_list_begin.
    cbn [std_list_get_data]. destruct (map_list kui_ms);
      [contradiction|discriminate]. }
  specialize (Hnofail Hon (reads_nonnegative_set_map_sets _ _ Hall)).
  change (Z.of_nat 0 - 1) with (-1) in Hnofail, Hnoover, Hstored.
  rewrite Hsets.
  destruct (findkey_loop BUFMAX_CELLS _ _ _)
    as [position bufmax kloop|k|pos k].
  - exists position, bufmax, kloop. split; [reflexivity|].
    intros Hfirst. change 0 with (Z.of_nat 0).
    apply (Hstored position bufmax kloop eq_refl).
    + rewrite bufmax_init_length. apply Nat.le_refl.
    + rewrite findchar_set_map_sets. exact Hfirst.
  - exfalso. exact (Hnofail k eq_refl).
  - exfalso. exact (Hnoover pos k eq_refl).
Qed.

Lemma one_set_pass_leaves_by_break_witness :
  exists position bufmax kloop,
    findkey_loop BUFMAX_CELLS
      (set_map_sets (kui_reset_state_data (kui_map_set_list prefix_ctx))
                    prefix_ctx)
      (-1) (bufmax_init (fun _ => 0))
    = Loop_break position bufmax kloop /\
    (fst (kui_findchar prefix_ctx) <> 0 -> 0 <= position).
Proof.
  apply (one_set_pass_leaves_by_break prefix_ctx prefix_maps (fun _ => 0)).
  - reflexivity.
  - discriminate.
  - repeat first [apply Forall_nil_2 | apply Forall_cons_2];
      unfold BUFMAX_CELLS; simpl; lia.
  - apply list_source_nonnegative; repeat constructor; lia.
Defined.

(** ** A map whose value begins no key *)

Lemma getkey_found_pass {source : Type} passes (kctx : kuictx source) stack k :
  kui_findkey kctx stack = Findkey_return 0 true k ->
  kui_getkey (S passes) kctx stack = kui_getkey passes k stack.
Proof. intros Hpass. cbn [kui_getkey]. rewrite Hpass. reflexivity. Qed.

(** X19. A map is expanded in two passes.  The context holds one map set
    with one map; its key is not empty, positive and no longer than
    bufmax, its value is positive and begins with a token [t] other than
    the first token of the key; the input begins with the key.  The first
    pass replaces the key by the value, the second returns [t]: the call
    returns the first token of the value and leaves the rest of the value
    at the head of the buffer, before what the reads of the key had
    left. *)
Theorem single_map_expands {source : Type} (kctx : kuictx source)
    (kui_ms : kui_map_set) (m : kui_map) (t : Z) (vs : list Z)
    (stack : nat -> Z) (passes : nat) :
  kui_map_set_list kctx = [kui_ms] ->
  map_list kui_ms = [m] ->
  positive_key (literal_key m) ->
  literal_key m <> [] ->
  (length (literal_key m) <= BUFMAX_CELLS)%nat ->
  literal_value m = t :: vs ->
  positive_key (literal_value m) ->
  ix (literal_key m) 0 <> t ->
  input_begins kctx (literal_key m) ->
  exists k,
    kui_getkey (S (S passes)) kctx stack = Getkey_return t k /\
    buffer k = vs ++ buffer (snd (findchar_n (length (literal_key m)) kctx)) /\
    state_data k = state_data (snd (findchar_n (length (literal_key m)) kctx)).
Proof.
  intros Hsets Hmaps Hpos Hne Hlen Hval Hvpos Hfirst Hin.
  assert (0 < t) as Ht.
  { rewrite Hval in Hvpos. inversion Hvpos; assumption. }
  rewrite (getkey_found_pass (S passes) kctx stack _
             (findkey_single_found kctx kui_ms m stack Hsets Hmaps Hpos
                (positive_zero_free _ Hvpos) Hne Hlen Hin)).
  rewrite Hval.
  set (after := snd (findchar_n (length (literal_key m)) kctx)).
  destruct (getkey_unmapped_key
              (set_buffer ((t :: vs) ++ buffer after)
                          (set_map_sets [single_found m] after))
              (set_buffer (vs ++ buffer after)
                          (set_map_sets [single_found m] after))
              t stack passes) as (k & Hk & Hbuf & Hsd & _).
  - reflexivity.
  - assumption.
  - repeat constructor; [discriminate|assumption].
  - exists k. split; [exact Hk|]. split; [exact Hbuf|exact Hsd].
Qed.

Lemma single_map_expands_witness :
  exists k,
    kui_getkey 2 (kui_create_on [97; 100] [kui_ms_of [map_a_X]]) (fun _ => 0)
    = Getkey_return 88 k /\
    buffer k =
      [] ++ buffer (snd (findchar_n (length (literal_key map_a_X))
                           (kui_create_on [97; 100] [kui_ms_of [map_a_X]]))) /\
    state_data k =
      state_data (snd (findchar_n (length (literal_key map_a_X))
                         (kui_create_on [97; 100] [kui_ms_of [map_a_X]]))).
Proof.
  apply (single_map_expands
           (kui_create_on [97; 100] [kui_ms_of [map_a_X]])
           (kui_ms_of [map_a_X]) map_a_X 88 [] (fun _ => 0) 0).
  - reflexivity.
  - reflexivity.
  - repeat constructor.
  - discriminate.
  - unfold BUFMAX_CELLS. simpl. lia.
  - reflexivity.
  - repeat constructor.
  - vm_compute. discriminate.
  - reflexivity.
Defined.
